(** * xo-server: the Scheduler and the API dispatcher

    A shallow embedding of [src/scheduler.js] (class [Scheduler]) and of the
    dispatcher that follows it in the same file ([checkPermission],
    [checkAuthorization], [resolveParams], [Api.call]), together with
    [User.hasPermission] of [src/xo.coffee] and the error classes of
    [src/api-errors.js]; then the registry of methods of [Api], the set-up
    of a XAPI connection and its batches of events in [src/xo.coffee], and
    the resolution of remotes in [src/remote-handler.js].

    Modelling conventions.
    - A JavaScript object used as a dictionary is a [gmap] keyed by the
      property name, holding its own properties.  The three tables of the
      Scheduler, [perms] and [checkAuthorizationByTypes] are object literals:
      reading them also finds the properties of [Object.prototype]
      ([has_property], [read_property]); [_methods] is created without a
      prototype.  The prototype of the tables is [Object.prototype]
      throughout: an assignment under the key [__proto__], which would replace
      it, is modelled as any other assignment, so a stored schedule whose id is
      [__proto__] is outside the model.  The parameters of a call and the XO
      objects are read under the names the methods declare; what they inherit
      is not modelled.
    - A [throw] is a [Throw] completion; the state mutated before the throw is
      kept, as in JavaScript.  A rejected promise of an [async] method is the
      same [Throw] completion.
    - [CronJob] objects live in a heap ([timers]); [_cronJobs] stores
      references into it, so that a timer that is still running but no longer
      referenced can be told apart from one that has been stopped.
    - The Scheduler is modelled once [_loadSchedules] has resolved, that is
      with its three tables defined. *)

From Stdlib Require Import Ascii.
From stdpp Require Import gmap strings list fin_maps.

Open Scope string_scope.

(* ===================================================================== *)
(** ** Errors and completions *)
(* ===================================================================== *)

(** The error classes of [scheduler.js] and [api-errors.js], plus the two
    kinds of foreign errors the modelled code can meet: the [TypeError] of the
    runtime and the [Error] the [CronJob] constructor throws on a pattern it
    cannot parse.  Scheduler errors carry the id of their message. *)
Inductive Error :=
| ScheduleOverride (i : string)
| NoSuchSchedule (i : string)
| ScheduleNotEnabled (i : string)
| ScheduleAlreadyEnabled (i : string)
| ScheduleJobNotFound (jobId scheduleId : string)
| TypeError
| CronPatternError (pattern : string)
| InvalidParameters (detail : string)
| MethodNotFound (name : string)
| NoSuchObject
| Unauthorized
| ForeignError (msg : string).

(** [class X extends SchedulerError] *)
Definition is_SchedulerError (e : Error) : bool :=
  match e with
  | ScheduleOverride _ | NoSuchSchedule _ | ScheduleNotEnabled _
  | ScheduleAlreadyEnabled _ | ScheduleJobNotFound _ _ => true
  | _ => false
  end.

(** [class X extends JsonRpcError] *)
Definition is_JsonRpcError (e : Error) : bool :=
  match e with
  | InvalidParameters _ | MethodNotFound _ | NoSuchObject | Unauthorized => true
  | _ => false
  end.

Inductive completion (A : Type) :=
| Normal (a : A)
| Throw (e : Error).
Arguments Normal {A} a.
Arguments Throw {A} e.

Definition is_Normal {A} (c : completion A) : bool :=
  match c with Normal _ => true | Throw _ => false end.

(** The values that occur in the guard of [remove]'s [catch] clause. *)
Inductive jsval :=
| JBool (b : bool)
| JError (e : Error).

Definition truthy (v : jsval) : bool :=
  match v with JBool b => b | JError _ => true end.

(** [!v] *)
Definition js_not (v : jsval) : jsval := JBool (negb (truthy v)).

(** [v instanceof SchedulerError]: a primitive is an instance of nothing. *)
Definition instanceof_SchedulerError (v : jsval) : bool :=
  match v with
  | JBool _ => false
  | JError e => is_SchedulerError e
  end.

(* ===================================================================== *)
(** ** Object literals and [Object.prototype] *)
(* ===================================================================== *)

(** The properties every object literal inherits from [Object.prototype]. *)
Definition Object_prototype : list string :=
  ["constructor"; "toString"; "toLocaleString"; "valueOf"; "hasOwnProperty";
   "isPrototypeOf"; "propertyIsEnumerable"; "__defineGetter__";
   "__defineSetter__"; "__lookupGetter__"; "__lookupSetter__"; "__proto__"].

(** What [object[key]] gives for an object literal used as a table: the
    value stored under the key, else the property of [Object.prototype] of
    that name (a built-in function, or the prototype itself for
    [__proto__]), else [undefined]. *)
Inductive property (A : Type) :=
| Own (a : A)
| Inherited (name : string)
| NoProperty.
Arguments Own {A} a.
Arguments Inherited {A} name.
Arguments NoProperty {A}.

(** [key in object] *)
Definition has_property {A} (object : gmap string A) (key : string) : bool :=
  bool_decide (is_Some (object !! key)) || bool_decide (key ∈ Object_prototype).

(** [object[key]] *)
Definition read_property {A} (object : gmap string A) (key : string) : property A :=
  match object !! key with
  | Some a => Own a
  | None => if bool_decide (key ∈ Object_prototype) then Inherited key
            else NoProperty
  end.

(* ===================================================================== *)
(** ** The Scheduler *)
(* ===================================================================== *)

Record Schedule := mkSchedule {
  schedule_id : string;
  schedule_cron : string;
  schedule_job : string;
  schedule_enabled : bool
}.

(** What the methods taking [scheduleOrId] can be handed. *)
Inductive scheduleOrId :=
| Undefined
| Id (i : string)
| Sched (s : Schedule).

(** [const _resolveId = scheduleOrId => scheduleOrId.id || scheduleOrId].
    Reading [.id] of [undefined] throws; a string has no [id]; the empty
    string is falsy, so a schedule with an empty id resolves to itself. *)
Definition _resolveId (x : scheduleOrId) : completion scheduleOrId :=
  match x with
  | Undefined => Throw TypeError
  | Id i => Normal (Id i)
  | Sched s => if decide (schedule_id s = "") then Normal (Sched s)
               else Normal (Id (schedule_id s))
  end.

(** Conversion to a property key (and to the text of a message). *)
Definition toKey (x : scheduleOrId) : string :=
  match x with
  | Undefined => "undefined"
  | Id i => i
  | Sched _ => "[object Object]"
  end.

(** A [CronJob] object: its pattern, what its callback closes over
    ([jobId] and [schedule.id]) and whether it has been started and not yet
    stopped. *)
Record CronJob := mkCronJob {
  cj_cron : string;
  cj_jobId : string;
  cj_scheduleId : string;
  cj_running : bool
}.

Definition cj_set_running (b : bool) (c : CronJob) : CronJob :=
  mkCronJob (cj_cron c) (cj_jobId c) (cj_scheduleId c) b.

Record Scheduler := mkScheduler {
  _schedules : gmap string Schedule;
  _scheduleTable : gmap string bool;
  _cronJobs : gmap string nat;
  timers : list CronJob
}.

Definition set_schedules (f : gmap string Schedule → gmap string Schedule)
    (st : Scheduler) : Scheduler :=
  mkScheduler (f (_schedules st)) (_scheduleTable st) (_cronJobs st) (timers st).
Definition set_scheduleTable (f : gmap string bool → gmap string bool)
    (st : Scheduler) : Scheduler :=
  mkScheduler (_schedules st) (f (_scheduleTable st)) (_cronJobs st) (timers st).
Definition set_cronJobs (f : gmap string nat → gmap string nat)
    (st : Scheduler) : Scheduler :=
  mkScheduler (_schedules st) (_scheduleTable st) (f (_cronJobs st)) (timers st).
Definition set_timers (f : list CronJob → list CronJob)
    (st : Scheduler) : Scheduler :=
  mkScheduler (_schedules st) (_scheduleTable st) (_cronJobs st) (f (timers st)).

(** [_getJob (id, scheduleId)], [getJob] being [this.xo.getJob] resolved; a
    job is kept as its definition. *)
Definition _getJob (getJob : string → option string) (id scheduleId : string)
    : completion string :=
  match getJob id with
  | Some job => Normal job
  | None => Throw (ScheduleJobNotFound id scheduleId)
  end.

(** A tick of the timer behind reference [h]: a timer that is not running
    does not call its callback ([None]); one that is running loads the job and
    hands it to [this.executor.exec] ([Normal job]), or fails to load it. *)
Definition tick (getJob : string → option string) (h : nat) (st : Scheduler)
    : option (completion string) :=
  match timers st !! h with
  | Some c => if cj_running c
              then Some (_getJob getJob (cj_jobId c) (cj_scheduleId c))
              else None
  | None => None
  end.

(** The state [_loadSchedules] builds before it installs the stored
    schedules. *)
Definition empty_scheduler : Scheduler := mkScheduler ∅ ∅ ∅ [].

(** *** A state and exception monad for the methods *)

Definition M (A : Type) : Type := Scheduler → completion A * Scheduler.

Definition ret {A} (a : A) : M A := fun st => (Normal a, st).
Definition throw {A} (e : Error) : M A := fun st => (Throw e, st).
Definition bind {A B} (m : M A) (k : A → M B) : M B := fun st =>
  match m st with
  | (Normal a, st') => k a st'
  | (Throw e, st') => (Throw e, st')
  end.
Definition lift {A} (c : completion A) : M A := fun st => (c, st).
Definition gets {A} (f : Scheduler → A) : M A := fun st => (Normal (f st), st).
Definition modify (f : Scheduler → Scheduler) : M unit :=
  fun st => (Normal tt, f st).

(** [try { body } catch (exc) { handler exc } finally { fin }] *)
Definition try_catch_finally {A} (body : M A) (handler : Error → M A)
    (fin : M unit) : M A := fun st =>
  let r := match body st with
           | (Normal a, st1) => (Normal a, st1)
           | (Throw e, st1) => handler e st1
           end in
  match fin r.2 with
  | (Normal _, st2) => (r.1, st2)
  | (Throw e, st2) => (Throw e, st2)
  end.

(** The methods are written with stdpp's monadic notations. *)
#[global] Instance M_ret : MRet M := @ret.
#[global] Instance M_bind : MBind M := fun A B k m => bind m k.

Section Scheduler.

(** Whether the [CronJob] constructor of the [cron] package accepts a
    pattern; it throws otherwise. *)
Variable cron_valid : string → bool.

(** [new X(scheduleOrId)] for the error classes whose constructor resolves the
    id for its message. *)
Definition new_error (K : string → Error) (x : scheduleOrId) : M Error :=
  r ← lift (_resolveId x); ret (K (toKey r)).

(** [throw new X(scheduleOrId)] *)
Definition throw_new {A} (K : string → Error) (x : scheduleOrId) : M A :=
  e ← new_error K x; throw e.

(** [exists (scheduleOrId)] *)
Definition exists_ (x : scheduleOrId) : M bool :=
  id_ ← lift (_resolveId x);
  gets (fun st => has_property (_schedules st) (toKey id_)).

(** [isEnabled (scheduleOrId)] *)
Definition isEnabled (x : scheduleOrId) : M (property bool) :=
  r ← lift (_resolveId x);
  gets (fun st => read_property (_scheduleTable st) (toKey r)).

(** Truthiness of what [isEnabled] returns: an inherited property is a
    function or an object. *)
Definition truthy_enabled (p : property bool) : bool :=
  match p with
  | Own b => b
  | Inherited _ => true
  | NoProperty => false
  end.

(** Truthiness of the value [forEach] hands to its callback for an own key
    of the table. *)
Definition truthy_entry (o : option bool) : bool := default false o.

(** [new CronJob(pattern, callback)]: the new object is not started. *)
Definition new_CronJob (pattern jobId scheduleId : string) : M nat :=
  if cron_valid pattern then
    (h ← gets (fun st => length (timers st));
     modify (set_timers (fun ts => (ts ++ [mkCronJob pattern jobId scheduleId false])%list));;
     ret h)
  else throw (CronPatternError pattern).

(** [cronJob.start()] and [cronJob.stop()] on the object behind a
    reference. *)
Definition cronJob_start (h : nat) : M unit :=
  modify (set_timers (alter (cj_set_running true) h)).
Definition cronJob_stop (h : nat) : M unit :=
  modify (set_timers (alter (cj_set_running false) h)).

(** [_enable (schedule)] *)
Definition _enable (schedule : Schedule) : M unit :=
  let jobId := schedule_job schedule in
  cronJob ← new_CronJob (schedule_cron schedule) jobId (schedule_id schedule);
  modify (set_cronJobs <[schedule_id schedule := cronJob]>);;
  cronJob_start cronJob;;
  modify (set_scheduleTable <[schedule_id schedule := true]>).

(** [_add (schedule)] *)
Definition _add (schedule : Schedule) : M unit :=
  id_ ← lift (_resolveId (Sched schedule));
  modify (set_schedules <[toKey id_ := schedule]>);;
  modify (set_scheduleTable <[toKey id_ := false]>);;
  if schedule_enabled schedule then _enable schedule else ret tt.

(** [add (schedule)] *)
Definition add (schedule : Schedule) : M unit :=
  b ← exists_ (Sched schedule);
  if (b : bool) then throw_new ScheduleOverride (Sched schedule)
  else _add schedule.

(** [_disable (scheduleOrId)].  What [this._cronJobs[id]] gives has a [stop]
    method only when it is a stored [CronJob]. *)
Definition _disable (x : scheduleOrId) : M unit :=
  b ← exists_ x;
  if negb b then throw_new NoSuchSchedule x else
  en ← isEnabled x;
  if negb (truthy_enabled en) then throw_new ScheduleNotEnabled x else
  id_ ← lift (_resolveId x);
  cj ← gets (fun st => read_property (_cronJobs st) (toKey id_));
  match cj with
  | Own h =>
      cronJob_stop h;;
      modify (set_cronJobs (delete (toKey id_)));;
      modify (set_scheduleTable <[toKey id_ := false]>)
  | Inherited _ | NoProperty => throw TypeError
  end.

(** [remove (id)].  The guard of the [catch] clause is
    [!exc instanceof SchedulerError], which JavaScript reads as
    [(!exc) instanceof SchedulerError]. *)
Definition remove (x : scheduleOrId) : M unit :=
  try_catch_finally
    (_disable x)
    (fun exc =>
       if instanceof_SchedulerError (js_not (JError exc)) then throw exc
       else ret tt)
    (modify (set_schedules (delete (toKey x)));;
     modify (set_scheduleTable (delete (toKey x)))).

(** [update (schedule)] *)
Definition update (schedule : Schedule) : M unit :=
  b ← exists_ (Sched schedule);
  if negb b then throw_new NoSuchSchedule (Sched schedule) else
  enabled ← isEnabled (Sched schedule);
  (if truthy_enabled enabled then _disable (Sched schedule) else ret tt);;
  _add schedule.

(** [forEach(this.scheduleTable, (enabled, id) => ...)]: lodash takes the
    keys once and reads each value when it reaches its key. *)
Fixpoint disableAll_keys (keys : list string) : M unit :=
  match keys with
  | [] => ret tt
  | k :: rest =>
      enabled ← gets (fun st => _scheduleTable st !! k);
      (if truthy_entry enabled then _disable (Id k) else ret tt);;
      disableAll_keys rest
  end.

(** [disableAll ()].  The keys come in the order of [map_to_list]; what is
    proved of [disableAll_keys] holds for the keys in any order. *)
Definition disableAll : M unit :=
  keys ← gets (fun st => (map_to_list (_scheduleTable st)).*1);
  disableAll_keys keys.

(** [forEach(schedules, schedule => { this._add(schedule) })] *)
Fixpoint forEach_add (schedules : list Schedule) : M unit :=
  match schedules with
  | [] => ret tt
  | schedule :: rest => _add schedule;; forEach_add rest
  end.

(** [_loadSchedules ()], from the point where [this.xo.getAllSchedules()]
    has resolved to [schedules]. *)
Definition _loadSchedules (schedules : list Schedule) : M unit :=
  modify (set_schedules (fun _ => ∅));;
  modify (set_scheduleTable (fun _ => ∅));;
  modify (set_cronJobs (fun _ => ∅));;
  forEach_add schedules.

(** The states of a Scheduler built over stored schedules with distinct,
    non-empty ids and driven through its public methods, with schedules
    whose id is not empty. *)
Inductive reachable : Scheduler → Prop :=
| reachable_load schedules :
    NoDup (schedule_id <$> schedules) →
    Forall (fun s => schedule_id s ≠ "") schedules →
    reachable (_loadSchedules schedules empty_scheduler).2
| reachable_add st s :
    reachable st → schedule_id s ≠ "" → reachable (add s st).2
| reachable_remove st i :
    reachable st → reachable (remove (Id i) st).2
| reachable_update st s :
    reachable st → schedule_id s ≠ "" → reachable (update s st).2
| reachable_disableAll st :
    reachable st → reachable (disableAll st).2.

End Scheduler.

(* ===================================================================== *)
(** ** Scheduler: the states the methods lead to *)
(* ===================================================================== *)

(** The state after the body of [_disable] has run for key [k], whose stored
    reference is [h]. *)
Definition disabled_state (k : string) (h : nat) (st : Scheduler) : Scheduler :=
  mkScheduler (_schedules st) (<[k := false]> (_scheduleTable st))
    (delete k (_cronJobs st)) (alter (cj_set_running false) h (timers st)).

(** The state after [_enable] has run for [s] with an accepted pattern. *)
Definition enabled_state (s : Schedule) (st : Scheduler) : Scheduler :=
  mkScheduler (_schedules st) (<[schedule_id s := true]> (_scheduleTable st))
    (<[schedule_id s := length (timers st)]> (_cronJobs st))
    (alter (cj_set_running true) (length (timers st))
       (timers st ++ [mkCronJob (schedule_cron s) (schedule_job s) (schedule_id s) false])%list).

(** The state after the first two assignments of [_add]. *)
Definition added_state (k : string) (s : Schedule) (st : Scheduler) : Scheduler :=
  mkScheduler (<[k := s]> (_schedules st)) (<[k := false]> (_scheduleTable st))
    (_cronJobs st) (timers st).

(** The state after the [finally] block of [remove]. *)
Definition purged_state (k : string) (st : Scheduler) : Scheduler :=
  mkScheduler (delete k (_schedules st)) (delete k (_scheduleTable st))
    (_cronJobs st) (timers st).

(* ===================================================================== *)
(** ** Scheduler: the invariant *)
(* ===================================================================== *)

(** A reference to a [CronJob] is stored for an id exactly when the id's
    entry of [_scheduleTable] is [true]. *)
Definition handle_iff_enabled (st : Scheduler) : Prop :=
  ∀ k, is_Some (_cronJobs st !! k) ↔ _scheduleTable st !! k = Some true.

(** An id marked enabled is an id of [_schedules]. *)
Definition enabled_known (st : Scheduler) : Prop :=
  ∀ k, _scheduleTable st !! k = Some true → is_Some (_schedules st !! k).

(** A stored reference points to a running timer created for that id. *)
Definition handles_running (st : Scheduler) : Prop :=
  ∀ k h, _cronJobs st !! k = Some h →
    ∃ c, timers st !! h = Some c ∧ cj_running c = true ∧ cj_scheduleId c = k.

(** A running timer is the one stored for the id it was created for. *)
Definition running_owned (st : Scheduler) : Prop :=
  ∀ h c, timers st !! h = Some c → cj_running c = true →
    _cronJobs st !! cj_scheduleId c = Some h.

Record scheduler_inv (st : Scheduler) : Prop := mk_scheduler_inv {
  inv_handle : handle_iff_enabled st;
  inv_known : enabled_known st;
  inv_running : handles_running st;
  inv_owned : running_owned st
}.

(** The running timers whose callback was created for id [k]. *)
Definition runs_for (k : string) (c : CronJob) : bool :=
  cj_running c && bool_decide (cj_scheduleId c = k).

Definition running_timers_of (k : string) (st : Scheduler) : list nat :=
  filter (fun h => from_option (runs_for k) false (timers st !! h) = true)
    (seq 0 (length (timers st))).

(** One half of [handle_iff_enabled].  Every method keeps it, whatever it is
    called with, so the body of [_disable] always finds the [CronJob] it
    stops. *)
Definition enabled_has_handle (st : Scheduler) : Prop :=
  ∀ k, _scheduleTable st !! k = Some true → is_Some (_cronJobs st !! k).

(** An id of [_schedules] has its entry in the table: [_add] writes both
    and [remove] deletes both.  For such an id [isEnabled] reads the entry
    of the table, also when the id is a name of [Object.prototype]. *)
Definition tables_aligned (st : Scheduler) : Prop :=
  ∀ k, is_Some (_schedules st !! k) → is_Some (_scheduleTable st !! k).

(* ===================================================================== *)
(** ** Scheduler: sample data *)
(* ===================================================================== *)

Definition always_valid : string → bool := fun _ => true.

Definition s1 : Schedule := mkSchedule "s1" "* * * * *" "j1" true.
Definition s1_new : Schedule := mkSchedule "s1" "0 3 * * *" "j2" true.
Definition s2 : Schedule := mkSchedule "s2" "0 0 * * *" "j2" false.

(** Schedules whose id is the empty string, and one named as a property
    of [Object.prototype]. *)
Definition s_noid : Schedule := mkSchedule "" "* * * * *" "j1" true.
Definition s_noid_new : Schedule := mkSchedule "" "0 3 * * *" "j2" true.
Definition s_toString : Schedule := mkSchedule "toString" "* * * * *" "j1" true.

(** Two states the methods do not build: a reference stored for a name of
    [Object.prototype] whose entry is [false], and a schedule filed under
    such a name with no entry in the table. *)
Definition st_stale : Scheduler :=
  mkScheduler ∅ (<["toString" := false]> ∅) (<["toString" := 0]> ∅)
    [mkCronJob "* * * * *" "j1" "toString" true].
Definition st_unaligned : Scheduler :=
  mkScheduler (<["toString" := s_toString]> ∅) ∅ ∅ [].

(** The Scheduler after [add(s1)], and after [add(s2)]. *)
Definition st_s1 : Scheduler := (add always_valid s1 empty_scheduler).2.
Definition st_s2 : Scheduler := (add always_valid s2 empty_scheduler).2.

(* ===================================================================== *)
(** ** The API dispatcher *)
(* ===================================================================== *)

(** An instance of [completion] for stdpp's notations. *)
#[global] Instance completion_ret : MRet completion := @Normal.
#[global] Instance completion_bind : MBind completion := fun A B k c =>
  match c with
  | Normal a => k a
  | Throw e => Throw e
  end.

(** [User] of [xo.coffee]. *)
Record User := mkUser {
  user_id : string;
  user_permission : string
}.

Definition perms : gmap string nat :=
  <["none" := 0]> (<["read" := 1]> (<["write" := 2]> (<["admin" := 3]> ∅))).

(** The string the property of [Object.prototype] of that name converts to:
    the source text of a built-in function starts with its name,
    [constructor] is the function [Object], and [__proto__] is the prototype
    object itself. *)
Definition Object_prototype_text (name : string) : string :=
  if decide (name = "__proto__") then "[object Object]"
  else if decide (name = "constructor") then "function Object() { [native code] }"
  else "function " ++ name ++ "() { [native code] }".

(** [a >= b] on what reading [perms] gives: two numbers are compared as
    numbers, two inherited properties as the strings they convert to; next to
    a number such a string converts to [NaN], as [undefined] does, and a
    comparison with [NaN] is false. *)
Definition js_ge (a b : property nat) : bool :=
  match a, b with
  | Own x, Own y => bool_decide (y ≤ x)%nat
  | Inherited x, Inherited y =>
      String.leb (Object_prototype_text y) (Object_prototype_text x)
  | _, _ => false
  end.

(** [hasPermission: (permission) -> perms[@get 'permission'] >= perms[permission]] *)
Definition User_hasPermission (user : User) (permission : string) : bool :=
  js_ge (read_property perms (user_permission user)) (read_property perms permission).

(** An object of the XO object store: its id, its type, its properties
    holding references, and its [$VBDs]. *)
Record XoObject := mkObject {
  obj_id : string;
  obj_type : string;
  obj_props : gmap string string;
  obj_VBDs : list string
}.

(** What a parameter of a call can hold. *)
Inductive Value :=
| VBool (b : bool)
| VString (s : string)
| VObject (o : XoObject).

(** The [types] of a resolve entry: a type name or an array of them. *)
Inductive TypeSpec :=
| OneType (t : string)
| AnyOf (ts : list string).

(** How a promise settles; [None] is a promise that does not. *)
Inductive settled := Fulfilled | Rejected.

#[global] Instance settled_eq_dec : EqDecision settled.
Proof. solve_decision. Defined.

(** The call context: the user, if the session has one, and the
    collaborators the dispatcher reaches through [this]. *)
Record Context := mkContext {
  ctx_user : option User;
  (** [this.getObject(id, types)], [id] possibly [undefined] *)
  ctx_getObject : option Value → option TypeSpec → completion XoObject;
  (** [this.getObjects(ids, type)] *)
  ctx_getObjects : list string → string → completion (list XoObject);
  (** [this.hasPermission(userId, objectId, permission)], resolved *)
  ctx_hasPermission : string → string → string → bool;
  (** [context._getUser(userId)] *)
  ctx_getUser : string → completion User
}.

Definition with_user (u : User) (ctx : Context) : Context :=
  mkContext (Some u) (ctx_getObject ctx) (ctx_getObjects ctx)
    (ctx_hasPermission ctx) (ctx_getUser ctx).

(** [object[member]] *)
Definition prop (object : XoObject) (member : string) : option Value :=
  VString <$> obj_props object !! member.

(** [Bluebird.any]: the first fulfilment wins; rejection needs them all. *)
Definition Bluebird_any (promises : list (option settled)) : option settled :=
  if bool_decide (Some Fulfilled ∈ promises) then Some Fulfilled
  else if bool_decide (Forall (fun p => p = Some Rejected) promises) then Some Rejected
  else None.

(** [Bluebird.all]: the first rejection wins; fulfilment needs them all. *)
Definition Bluebird_all (promises : list (option settled)) : option settled :=
  if bool_decide (Some Rejected ∈ promises) then Some Rejected
  else if bool_decide (Forall (fun p => p = Some Fulfilled) promises) then Some Fulfilled
  else None.

(** A function of [checkAuthorizationByTypes]: it throws, or returns a
    promise. *)
Definition Handler : Type :=
  Context → string → XoObject → string → completion (option settled).

(** [Bluebird.method]: what the function throws becomes a rejection. *)
Definition Bluebird_method (c : completion (option settled)) : option settled :=
  match c with
  | Normal promise => promise
  | Throw _ => Some Rejected
  end.

Section CheckAuthorizationByTypes.

(** [let checkAuthorization], the forward declaration. *)
Variable checkAuthorization : Context → string → XoObject → string → option settled.

(** [function authorized () {}] *)
Definition authorized : Handler := fun _ _ _ _ => Normal (Some Fulfilled).

(** [checkMemberAuthorization (member)] *)
Definition checkMemberAuthorization (member : string) : Handler :=
  fun this userId object permission =>
    memberObject ← ctx_getObject this (prop object member) None;
    Normal (checkAuthorization this userId memberObject permission).

(** [VDI (userId, vdi, permission)] *)
Definition VDI : Handler := fun this userId vdi permission =>
  vbds ← ctx_getObjects this (obj_VBDs vdi) "VBD";
  promises ← mapM (fun vbd =>
      vm ← ctx_getObject this (prop vbd "VM") (Some (OneType "VM"));
      Normal (checkAuthorization this userId vm permission)) vbds;
  sr ← ctx_getObject this (prop vdi "$SR") (Some (OneType "SR"));
  Normal (Bluebird_any (promises ++ [checkAuthorization this userId sr permission])%list).

(** [VIF (userId, vif, permission)] *)
Definition VIF : Handler := fun this userId vif permission =>
  network ← ctx_getObject this (prop vif "$network") None;
  vm ← ctx_getObject this (prop vif "$VM") None;
  Normal (Bluebird_any [checkAuthorization this userId network permission;
                        checkAuthorization this userId vm permission]).

Definition checkAuthorizationByTypes : gmap string Handler :=
  <["network" := authorized]> (
  <["VM-template" := authorized]> (
  <["message" := checkMemberAuthorization "$object"]> (
  <["task" := checkMemberAuthorization "$host"]> (
  <["VBD" := checkMemberAuthorization "VDI"]> (
  <["VDI" := VDI]> (
  <["VIF" := VIF]> (
  <["VM-snapshot" := checkMemberAuthorization "$snapshot_of"]> ∅))))))).

End CheckAuthorizationByTypes.

(** [defaultCheckAuthorization]: [throwIfFail] rejects a falsy answer. *)
Definition defaultCheckAuthorization : Handler := fun this userId object permission =>
  Normal (Some (if ctx_hasPermission this userId (obj_id object) permission
                then Fulfilled else Rejected)).

(** What the property of [Object.prototype] of that name does when it is
    found in [checkAuthorizationByTypes] and called as
    [fn.call(this, userId, object, permission)]: [__defineGetter__] and
    [__defineSetter__] throw, [object] being no function; [__proto__] is an
    object, which has no [call]; the other built-in functions return a
    value. *)
Definition Object_prototype_call (name : string) : Handler := fun _ _ _ _ =>
  if bool_decide (name ∈ ["__defineGetter__"; "__defineSetter__"; "__proto__"])
  then Throw TypeError
  else Normal (Some Fulfilled).

(** [checkAuthorization = Bluebird.method(...)].  The recursion follows the
    references between objects, so it is bounded by [fuel]; [None] stands for
    a check whose recursion does not end within it.  (Where the references
    form a cycle the recursion ends in no result for any [fuel]; what the
    exhausted stack of the runtime makes of such a check is not modelled.) *)
Fixpoint checkAuthorization (fuel : nat) (this : Context) (userId : string)
    (object : XoObject) (permission : string) : option settled :=
  match fuel with
  | 0 => None
  | S n =>
      let fn :=
        match read_property (checkAuthorizationByTypes (checkAuthorization n))
                (obj_type object) with
        | Own fn => fn
        | Inherited name => Object_prototype_call name
        | NoProperty => defaultCheckAuthorization
        end in
      Bluebird_method (fn this userId object permission)
  end.

(** The [permission] a method declares. *)
Inductive Permission :=
| PermUndefined
| PermNull
| PermString (p : string).

(** [!permission] *)
Definition perm_falsy (permission : Permission) : bool :=
  match permission with
  | PermUndefined | PermNull => true
  | PermString p => bool_decide (p = "")
  end.

(** An entry [[param, types, permission = 'administrate']] of [resolve]. *)
Record ResolveEntry := mkEntry {
  re_param : string;
  re_types : TypeSpec;
  re_permission : option string
}.

Definition entry_permission (e : ResolveEntry) : string :=
  default "administrate" (re_permission e).

Abbreviation Params := (gmap string Value).

(** A method with its metadata.  The schema is kept as the answer of
    [schemaInspector.validate] to each [params]: [None] when valid, the error
    otherwise.  The body returns [None] for [undefined]. *)
Record Method := mkMethod {
  m_permission : Permission;
  m_params : option (Params → option string);
  m_resolve : option (list (string * ResolveEntry));
  m_fn : Context → Params → completion (option Value)
}.

(** [checkPermission (method)] *)
Definition checkPermission (this : Context) (method : Method) : completion unit :=
  let permission := m_permission method in
  match permission with
  | PermUndefined => Normal tt
  | _ =>
      match ctx_user this with
      | None => Throw Unauthorized
      | Some user =>
          if perm_falsy permission then Normal tt
          else match permission with
               | PermString p =>
                   if negb (User_hasPermission user p) then Throw Unauthorized
                   else Normal tt
               | _ => Normal tt
               end
      end
  end.

(** [checkParams (method, params)] *)
Definition checkParams (method : Method) (params : Params) : completion unit :=
  match m_params method with
  | None => Normal tt
  | Some schema =>
      match schema params with
      | None => Normal tt
      | Some error => Throw (InvalidParameters error)
      end
  end.

(** The state of the loop of [resolveParams]: the [params] object, the
    [promises] array, and a record of the calls of [this.getObject]. *)
Record ResolveState := mkResolveState {
  rs_params : Params;
  rs_promises : list (option settled);
  rs_lookups : list (Value * TypeSpec)
}.

(** The [forEach] of [resolveParams]; an exception of [getObject] ends it. *)
Fixpoint resolve_loop (fuel : nat) (this : Context) (userId : string)
    (isAdmin : bool) (resolve : list (string * ResolveEntry))
    (st : ResolveState) : ResolveState * option Error :=
  match resolve with
  | [] => (st, None)
  | (key, e) :: rest =>
      match rs_params st !! re_param e with
      | None => resolve_loop fuel this userId isAdmin rest st
      | Some id =>
          let lookups := (rs_lookups st ++ [(id, re_types e)])%list in
          match ctx_getObject this (Some id) (Some (re_types e)) with
          | Throw err => (mkResolveState (rs_params st) (rs_promises st) lookups, Some err)
          | Normal object =>
              let params := <[key := VObject object]> (delete (re_param e) (rs_params st)) in
              let promises :=
                if negb isAdmin
                then (rs_promises st ++
                        [checkAuthorization fuel this userId object (entry_permission e)])%list
                else rs_promises st in
              resolve_loop fuel this userId isAdmin rest
                (mkResolveState params promises lookups)
          end
      end
  end.

(** What [resolveParams] leaves: its outcome ([None] when its promise does
    not settle) and the final state of its loop. *)
Record ResolveResult := mkResolveResult {
  rr_outcome : option (completion Params);
  rr_state : ResolveState
}.

(** [resolveParams (method, params)] *)
Definition resolveParams (fuel : nat) (this : Context) (method : Method)
    (params : Params) : ResolveResult :=
  let st0 := mkResolveState params [] [] in
  match m_resolve method with
  | None => mkResolveResult (Some (Normal params)) st0
  | Some resolve =>
      match ctx_user this with
      | None => mkResolveResult (Some (Throw Unauthorized)) st0
      | Some user =>
          let userId := user_id user in
          let isAdmin := User_hasPermission user "admin" in
          match resolve_loop fuel this userId isAdmin resolve st0 with
          | (st, Some err) => mkResolveResult (Some (Throw err)) st
          | (st, None) =>
              mkResolveResult
                (match Bluebird_all (rs_promises st) with
                 | Some Fulfilled => Some (Normal (rs_params st))
                 | Some Rejected => Some (Throw Unauthorized)
                 | None => None
                 end) st
          end
      end
  end.

(** What a call leaves: its outcome, the parameters the method body was
    invoked with, if it was, and the state of the resolution, if it ran. *)
Record CallResult := mkCallResult {
  cr_outcome : option (completion Value);
  cr_invoked : option Params;
  cr_resolution : option ResolveState
}.

(** The body of the [try] block of [Api.call], in the context of the call;
    the [catch] clause logs the error and throws it again. *)
Definition call_in_context (fuel : nat) (context : Context) (method : Method)
    (params : Params) : CallResult :=
  match checkPermission context method with
  | Throw e => mkCallResult (Some (Throw e)) None None
  | Normal _ =>
  match checkParams method params with
  | Throw e => mkCallResult (Some (Throw e)) None None
  | Normal _ =>
  let r := resolveParams fuel context method params in
  match rr_outcome r with
  | None => mkCallResult None None (Some (rr_state r))
  | Some (Throw e) => mkCallResult (Some (Throw e)) None (Some (rr_state r))
  | Some (Normal _) =>
      let params' := rs_params (rr_state r) in
      mkCallResult
        (Some (match m_fn method context params' with
               | Throw e => Throw e
               | Normal None => Normal (VBool true)
               | Normal (Some result) => Normal result
               end))
        (Some params') (Some (rr_state r))
  end end end.

Record Api := mkApi {
  _methods : gmap string Method;
  context : Context
}.

(** [async call (session, name, params)]; [session] is the [user_id] it
    holds, if any. *)
Definition call (fuel : nat) (api : Api) (session : option string)
    (name : string) (params : Params) : CallResult :=
  match _methods api !! name with
  | None => mkCallResult (Some (Throw (MethodNotFound name))) None None
  | Some method =>
      match session with
      | Some userId =>
          if decide (userId = "") then call_in_context fuel (context api) method params
          else match ctx_getUser (context api) userId with
               | Throw e => mkCallResult (Some (Throw e)) None None
               | Normal user =>
                   call_in_context fuel (with_user user (context api)) method params
               end
      | None => call_in_context fuel (context api) method params
      end
  end.

(** Every call of [this.getObject] the resolution made returned an object. *)
Definition lookups_ok (this : Context) (st : ResolveState) : Prop :=
  Forall (fun l => is_Normal (ctx_getObject this (Some l.1) (Some l.2)) = true)
    (rs_lookups st).

(** The loop of [resolveParams] over [params] gets past the entries [before],
    finds the parameter of the entry [e] that follows them, and [getObject]
    returns [object] for it. *)
Definition entry_resolves (fuel : nat) (this : Context) (userId : string)
    (isAdmin : bool) (before : list (string * ResolveEntry)) (e : ResolveEntry)
    (params : Params) (object : XoObject) : Prop :=
  ∃ st id,
    resolve_loop fuel this userId isAdmin before (mkResolveState params [] []) = (st, None) ∧
    rs_params st !! re_param e = Some id ∧
    ctx_getObject this (Some id) (Some (re_types e)) = Normal object.

(** The per-object check of [object] succeeds: its promise is fulfilled, the
    recursion given room enough. *)
Definition authorization_succeeds (this : Context) (userId : string)
    (object : XoObject) (permission : string) : Prop :=
  ∃ fuel, checkAuthorization fuel this userId object permission = Some Fulfilled.

(** The per-object check of [object] fails: its promise is rejected. *)
Definition authorization_fails (this : Context) (userId : string)
    (object : XoObject) (permission : string) : Prop :=
  ∃ fuel, checkAuthorization fuel this userId object permission = Some Rejected.

(** [b] is settled as [a] is, if [a] is. *)
Definition promise_le (a b : option settled) : Prop :=
  ∀ r, a = Some r → b = Some r.

(** [g] settles as [f] does wherever [f] settles. *)
Definition settles_as (f g : Context → string → XoObject → string → option settled)
    : Prop :=
  ∀ this userId object permission r,
    f this userId object permission = Some r →
    g this userId object permission = Some r.

(* ===================================================================== *)
(** ** Dispatcher: sample data *)
(* ===================================================================== *)

Definition vm1 : XoObject := mkObject "vm1" "VM" ∅ [].
Definition net1 : XoObject := mkObject "net1" "network" ∅ [].
Definition sr1 : XoObject := mkObject "sr1" "SR" ∅ [].
Definition vif1 : XoObject :=
  mkObject "vif1" "VIF" (<["$network" := "net1"]> (<["$VM" := "vm1"]> ∅)) [].
(** A [VIF] whose [$network] points to an object that is not a network. *)
Definition vif2 : XoObject :=
  mkObject "vif2" "VIF" (<["$network" := "sr1"]> (<["$VM" := "vm1"]> ∅)) [].

Definition sample_store : gmap string XoObject :=
  <["vm1" := vm1]> (<["net1" := net1]> (<["sr1" := sr1]>
    (<["vif1" := vif1]> (<["vif2" := vif2]> ∅)))).

Definition type_allowed (types : option TypeSpec) (t : string) : bool :=
  match types with
  | None => true
  | Some (OneType t') => bool_decide (t = t')
  | Some (AnyOf ts) => bool_decide (t ∈ ts)
  end.

(** Modelled from the spec: [getObject(id, expectedTypes?) -> Object] of the
    object accessor interface, which is not in the sources, over
    [sample_store]; an id that does not resolve to an object of an expected
    type fails with [NoSuchObject]. *)
Definition sample_getObject (key : option Value) (types : option TypeSpec)
    : completion XoObject :=
  match key with
  | Some (VString id) =>
      match sample_store !! id with
      | Some o => if type_allowed types (obj_type o) then Normal o else Throw NoSuchObject
      | None => Throw NoSuchObject
      end
  | _ => Throw NoSuchObject
  end.

(** Modelled from the spec: [getObjects(ids, type) -> list<Object>] of the
    same interface. *)
Definition sample_getObjects (ids : list string) (type : string)
    : completion (list XoObject) :=
  mapM (fun id => sample_getObject (Some (VString id)) (Some (OneType type))) ids.

Definition alice : User := mkUser "alice" "admin".
Definition bob : User := mkUser "bob" "read".

(** Modelled from the spec: the user lookup of the shared context, which is
    not in the sources; its failure is not an RPC error. *)
Definition sample_getUser (userId : string) : completion User :=
  if decide (userId = "alice") then Normal alice
  else if decide (userId = "bob") then Normal bob
  else Throw (ForeignError "no such user").

(** The shared context, without a user; [acl] is the permission store. *)
Definition sample_context (acl : string → string → string → bool) : Context :=
  mkContext None sample_getObject sample_getObjects acl sample_getUser.

Definition deny_all : string → string → string → bool := fun _ _ _ => false.
(** bob may operate [vm1]. *)
Definition bob_on_vm1 : string → string → string → bool := fun userId objectId _ =>
  bool_decide (userId = "bob") && bool_decide (objectId = "vm1").

(** A method that resolves a VM and a host, with no declared permission. *)
Definition migrate : Method :=
  mkMethod PermUndefined None
    (Some [("vm", mkEntry "id" (OneType "VM") None);
           ("host", mkEntry "target" (OneType "host") None)])
    (fun _ _ => Normal None).

(** [vif.connect] of the repository: [resolve = {vif: ['id', 'VIF', 'operate']}]. *)
Definition vif_connect : Method :=
  mkMethod PermUndefined None
    (Some [("vif", mkEntry "id" (OneType "VIF") (Some "operate"))])
    (fun _ _ => Normal None).

(** [user.create]: [permission = 'admin']. *)
Definition user_create : Method :=
  mkMethod (PermString "admin") None None (fun _ _ => Normal (Some (VString "id"))).

(** A method that only asks for a logged-in user. *)
Definition whoami : Method :=
  mkMethod PermNull None None (fun _ _ => Normal None).

Definition sample_api (acl : string → string → string → bool) : Api :=
  mkApi (<["vm.migrate" := migrate]> (<["vif.connect" := vif_connect]>
           (<["user.create" := user_create]> (<["whoami" := whoami]> ∅))))
        (sample_context acl).


(* ===================================================================== *)
(** ** Scheduler: reading a schedule, and what a method leaves alone *)
(* ===================================================================== *)

(** [async get (id)]; the schedule is read under the argument as it was
    given. *)
Definition get (id : scheduleOrId) : M (property Schedule) :=
  b ← exists_ id;
  if negb b then throw_new NoSuchSchedule id
  else gets (fun st => read_property (_schedules st) (toKey id)).

(** [async _get (id)], [getSchedule] being [this.xo.getSchedule] resolved. *)
Definition _get (getSchedule : string → option Schedule) (id : string)
    : completion Schedule :=
  match getSchedule id with
  | Some schedule => Normal schedule
  | None => Throw (NoSuchSchedule id)
  end.

(** The three tables hold for [k] in [st'] what they hold in [st]. *)
Definition same_entries (k : string) (st st' : Scheduler) : Prop :=
  _schedules st' !! k = _schedules st !! k ∧
  _scheduleTable st' !! k = _scheduleTable st !! k ∧
  _cronJobs st' !! k = _cronJobs st !! k.

(** The timer stored for an id was created from the schedule stored for it:
    it has its pattern and loads its job. *)
Definition timers_match (st : Scheduler) : Prop :=
  ∀ k h s c, _cronJobs st !! k = Some h → _schedules st !! k = Some s →
    timers st !! h = Some c →
    cj_cron c = schedule_cron s ∧ cj_jobId c = schedule_job s.

(** A schedule [add], [update] and [_loadSchedules] install without an
    exception: it is disabled, or its pattern is one [CronJob] accepts. *)
Definition installable (cron_valid : string → bool) (s : Schedule) : Prop :=
  schedule_enabled s = true → cron_valid (schedule_cron s) = true.

(** Sample data: a pattern [CronJob] rejects. *)
Definition rejects_bad : string → bool := fun pattern => negb (String.eqb pattern "bad").
Definition s3_bad : Schedule := mkSchedule "s3" "bad" "j3" true.
Definition s1_bad : Schedule := mkSchedule "s1" "bad" "j1" true.

(** The timer stored for [k] in [st] is in [st'] as it was in [st]. *)
Definition same_timer (k : string) (st st' : Scheduler) : Prop :=
  ∀ h, _cronJobs st !! k = Some h → timers st' !! h = timers st !! h.

(* ===================================================================== *)
(** ** Dispatcher: reading [checkAuthorizationByTypes] *)
(* ===================================================================== *)

(** The keys of [checkAuthorizationByTypes]. *)
Definition typed_rules : list string :=
  ["network"; "VM-template"; "message"; "task"; "VBD"; "VDI"; "VIF"; "VM-snapshot"].

(** The types whose rule is [checkMemberAuthorization(member)], with their
    member. *)
Definition delegate_member (type : string) : option string :=
  if decide (type = "message") then Some "$object"
  else if decide (type = "task") then Some "$host"
  else if decide (type = "VBD") then Some "VDI"
  else if decide (type = "VM-snapshot") then Some "$snapshot_of"
  else None.

(** The levels of [perms]. *)
Definition known_permissions : list string := ["none"; "read"; "write"; "admin"].

(** Sample data: a message about [vm1], a disk of [sr1] attached to [vm1]
    through [vbd1], and a disk with a dangling attachment. *)
Definition msg1 : XoObject := mkObject "msg1" "message" (<["$object" := "vm1"]> ∅) [].
Definition vbd1 : XoObject := mkObject "vbd1" "VBD" (<["VM" := "vm1"]> (<["VDI" := "vdi1"]> ∅)) [].
Definition vdi1 : XoObject := mkObject "vdi1" "VDI" (<["$SR" := "sr1"]> ∅) ["vbd1"].
Definition vif_lost : XoObject :=
  mkObject "vif_lost" "VIF" (<["$network" := "gone"]> (<["$VM" := "vm1"]> ∅)) [].

(** A disk whose attachment points to a VM that is gone. *)
Definition vbd_lost : XoObject := mkObject "vbd_lost" "VBD" (<["VM" := "gone"]> ∅) [].
Definition vdi2 : XoObject := mkObject "vdi2" "VDI" (<["$SR" := "sr1"]> ∅) ["vbd_lost"].

Definition allow_all : string → string → string → bool := fun _ _ _ => true.

(** Modelled from the spec: [getObject] and [getObjects] of the object
    accessor interface, as [sample_getObject], over a store that holds the
    disks and their attachments too. *)
Definition disk_getObject (key : option Value) (types : option TypeSpec)
    : completion XoObject :=
  match key with
  | Some (VString id) =>
      match (<["vbd1" := vbd1]> (<["vdi1" := vdi1]> (<["vbd_lost" := vbd_lost]>
               (<["vdi2" := vdi2]> sample_store)))) !! id with
      | Some o => if type_allowed types (obj_type o) then Normal o else Throw NoSuchObject
      | None => Throw NoSuchObject
      end
  | _ => Throw NoSuchObject
  end.

Definition disk_context (acl : string → string → string → bool) : Context :=
  mkContext None disk_getObject
    (fun ids type => mapM (fun id => disk_getObject (Some (VString id)) (Some (OneType type))) ids)
    acl sample_getUser.

(** The context with another permission store. *)
Definition with_acl (acl : string → string → string → bool) (ctx : Context) : Context :=
  mkContext (ctx_user ctx) (ctx_getObject ctx) (ctx_getObjects ctx) acl (ctx_getUser ctx).

(** Sample data: a method that declares a permission [perms] does not know,
    and one with a schema that wants an [id]. *)
Definition odd_permission : Method :=
  mkMethod (PermString "administrate") None None (fun _ _ => Normal None).
Definition needs_id : Method :=
  mkMethod PermUndefined
    (Some (fun params : Params =>
             if decide (is_Some (params !! "id")) then None else Some "id is missing"))
    (Some [("vm", mkEntry "id" (OneType "VM") None)])
    (fun _ _ => Normal None).

(* ===================================================================== *)
(** ** The API dispatcher: the registry of methods *)
(* ===================================================================== *)

(** What [addMethods] is given: a function, or an object whose properties are
    such values again, in the order [forEach] visits them. *)
#[warnings="-register-all"]
Inductive MethodTree :=
| Fn (method : Method)
| Namespace (methods : list (string * MethodTree)).

(** [addMethod (name, method)] *)
Definition addMethod (name : string) (method : Method) (api : Api) : Api :=
  mkApi (<[name := method]> (_methods api)) (context api).

(** [getMethod (name)]; [_methods] has no prototype. *)
Definition getMethod (name : string) (api : Api) : option Method :=
  _methods api !! name.

(** The callback [addMethod (method, name)] of [addMethods], with the value
    [base] has when it is entered. *)
Fixpoint addMethods_each (base name : string) (method : MethodTree) (api : Api)
    : Api :=
  let name := base ++ name in
  match method with
  | Fn f => addMethod name f api
  | Namespace methods =>
      let base := name ++ "." in
      (fix forEach (l : list (string * MethodTree)) (api : Api) : Api :=
         match l with
         | [] => api
         | (n, m) :: l' => forEach l' (addMethods_each base n m api)
         end) methods api
  end.

(** [addMethods (methods)] *)
Definition addMethods (methods : list (string * MethodTree)) (api : Api) : Api :=
  foldl (fun api nm => addMethods_each "" nm.1 nm.2 api) api methods.

(** The functions of a tree with their dotted paths, in visiting order. *)
Fixpoint paths_each (base name : string) (method : MethodTree)
    : list (string * Method) :=
  match method with
  | Fn f => [(base ++ name, f)]
  | Namespace methods =>
      (fix go (l : list (string * MethodTree)) : list (string * Method) :=
         match l with
         | [] => []
         | (n, m) :: l' => (paths_each ((base ++ name) ++ ".") n m ++ go l')%list
         end) methods
  end.

Definition paths (methods : list (string * MethodTree)) : list (string * Method) :=
  flat_map (fun nm => paths_each "" nm.1 nm.2) methods.

(** Registering the functions of a list one after the other. *)
Definition register (methods : gmap string Method) (l : list (string * Method))
    : gmap string Method :=
  foldl (fun m p => <[p.1 := p.2]> m) methods l.

Definition system_tree : list (string * MethodTree) :=
  [("system", Namespace [("whoami", Fn whoami); ("empty", Namespace [])]);
   ("vm", Namespace [("migrate", Fn migrate);
                     ("vif", Namespace [("connect", Fn vif_connect)])]);
   ("whoami", Fn user_create)].

(* ===================================================================== *)
(** ** [xo.coffee]: the objects of a XAPI connection *)
(* ===================================================================== *)

(** A XAPI record, by its properties; a property holding [undefined] or
    [null] is [None]. *)
Abbreviation XapiRecord := (gmap string (option string)).

(** [normalizeObject = (object, ref, type) ->], in a connection whose pool
    has UUID [poolUUID]; it mutates [refsToUUIDs] and [object]. *)
Definition normalizeObject (poolUUID : option string)
    (refsToUUIDs : gmap string (option string)) (object : XapiRecord)
    (ref type : string) : gmap string (option string) * XapiRecord :=
  let refsToUUIDs :=
    match object !! "uuid" with
    | Some (Some uuid) => <[ref := Some uuid]> refsToUUIDs
    | _ => refsToUUIDs
    end in
  let object :=
    if decide (type = "pool") then object else <["$pool" := poolUUID]> object in
  (refsToUUIDs, <["$type" := Some type]> object).

(** The loop [for ref of pools] that looks for the pool of a connection. *)
Fixpoint pool_loop (pools : list (string * XapiRecord)) (ref : option string)
    (pool : option XapiRecord) : completion (option string * option XapiRecord) :=
  match pools with
  | [] => Normal (ref, pool)
  | (ref', pool') :: rest =>
      match pool with
      | Some _ => Throw (ForeignError "more than one pool!")
      | None => pool_loop rest (Some ref') (Some pool')
      end
  end.

(** What [connect] has once the pool is stored: [poolUUID], [refsToUUIDs]
    and [objects]. *)
Record PoolLoaded := mkPoolLoaded {
  pl_poolUUID : option string;
  pl_refsToUUIDs : gmap string (option string);
  pl_objects : gmap string XapiRecord
}.

(** The part of [connect] from [pools = xapi.call 'pool.get_all_records'] to
    [objects[ref] = pool]. *)
Definition connect_pool (refsToUUIDs : gmap string (option string))
    (pools : list (string * XapiRecord)) : completion PoolLoaded :=
  match pool_loop pools None None with
  | Throw e => Throw e
  | Normal (Some ref, Some pool) =>
      let poolUUID := mjoin (pool !! "uuid") in
      let '(refsToUUIDs, pool) := normalizeObject poolUUID refsToUUIDs pool ref "pool" in
      Normal (mkPoolLoaded poolUUID refsToUUIDs (<[ref := pool]> ∅))
  | Normal _ => Throw (ForeignError "no pool found")
  end.

(** An entry of the array [event.next] returns. *)
Record XapiEvent := mkEvent {
  ev_operation : string;
  ev_class : string;
  ev_ref : string;
  ev_snapshot : XapiRecord
}.

(** The variables of the loop over a batch of events. *)
Record Batch := mkBatch {
  refsToUUIDs : gmap string (option string);
  updatedObjects : gmap string XapiRecord;
  removedObjects : gmap string XapiRecord
}.

(** The body of [for {operation, class: type, ref, snapshot: object} in event] *)
Definition handle_event (poolUUID : option string) (b : Batch) (ev : XapiEvent)
    : Batch :=
  let '(refs, object) :=
    normalizeObject poolUUID (refsToUUIDs b) (ev_snapshot ev) (ev_ref ev) (ev_class ev) in
  if decide (ev_operation ev = "del") then
    mkBatch refs (delete (ev_ref ev) (updatedObjects b))
            (<[ev_ref ev := object]> (removedObjects b))
  else
    mkBatch refs (<[ev_ref ev := object]> (updatedObjects b))
            (delete (ev_ref ev) (removedObjects b)).

(** One batch: [updatedObjects = {}], [removedObjects = {}] and the loop. *)
Definition handle_events (poolUUID : option string)
    (refs : gmap string (option string)) (event : list XapiEvent) : Batch :=
  foldl (handle_event poolUUID) (mkBatch refs ∅ ∅) event.

(** The object an event leaves in [updatedObjects] or [removedObjects]. *)
Definition normalized (poolUUID : option string) (ev : XapiEvent) : XapiRecord :=
  (normalizeObject poolUUID ∅ (ev_snapshot ev) (ev_ref ev) (ev_class ev)).2.

(** No reference is both updated and removed. *)
Definition batch_disjoint (b : Batch) : Prop :=
  ∀ ref, updatedObjects b !! ref = None ∨ removedObjects b !! ref = None.

(** [s.split sep] for a separator of one character. *)
Fixpoint split_on (sep : Ascii.ascii) (s : string) : list string :=
  match s with
  | EmptyString => [EmptyString]
  | String c s' =>
      if Ascii.eqb c sep then EmptyString :: split_on sep s'
      else match split_on sep s' with
           | w :: ws => String c w :: ws
           | [] => [String c EmptyString]
           end
  end.

(** The character occurs in the string. *)
Fixpoint has_char (c : Ascii.ascii) (s : string) : bool :=
  match s with
  | EmptyString => false
  | String c' s' => Ascii.eqb c' c || has_char c s'
  end.

(** [retrievableTypes], from the answer of [system.listMethods]. *)
Definition retrievableTypes (methods : list string) : list string :=
  foldl (fun types method =>
           let parts := split_on "."%char method in
           let type := parts !! 0%nat in
           let method := parts !! 1%nat in
           if bool_decide (method = Some "get_all_records")
              && negb (bool_decide (type = Some "pool"))
           then (types ++ [default EmptyString type])%list
           else types)
        [] methods.

Definition null_refs : gmap string (option string) := <["OpaqueRef:NULL" := None]> ∅.

Definition vm_record : XapiRecord :=
  <["uuid" := Some "uuid-vm"]> (<["name_label" := Some "web"]> ∅).
Definition pool_record : XapiRecord := <["uuid" := Some "uuid-pool"]> ∅.

Definition sample_events : list XapiEvent :=
  [mkEvent "add" "vm" "OpaqueRef:1" vm_record;
   mkEvent "mod" "vm" "OpaqueRef:2" vm_record;
   mkEvent "del" "vm" "OpaqueRef:1" vm_record;
   mkEvent "mod" "pool" "OpaqueRef:3" pool_record].

(* ===================================================================== *)
(** ** [remote-handler.js]: the handlers of remote stores *)
(* ===================================================================== *)

(** A remote, with the properties [_resolve] adds to it. *)
Record Remote := mkRemote {
  remote_id : string;
  remote_url : string;
  remote_enabled : bool;
  remote_type : option string;
  remote_path : option string;
  remote_host : option string;
  remote_share : option string
}.

(** [startsWith (string, target)] of lodash; a [target] that is not given is
    converted to the string ['undefined']. *)
Definition startsWith (s : string) (target : option string) : bool :=
  String.prefix (default "undefined" target) s.

(** [s.slice (start)] *)
Fixpoint String_slice (start : nat) (s : string) : string :=
  match start, s with
  | O, _ => s
  | S n, String _ s' => String_slice n s'
  | S _, EmptyString => EmptyString
  end.

(** [_resolve (remote)]: what the call evaluates to, [None] being
    [undefined], and the remote as the call leaves it. *)
Definition _resolve (remote : Remote) : completion (option Remote) * Remote :=
  if startsWith (remote_url remote) (Some "nfs://") then
    let url := String_slice 6 (remote_url remote) in
    let parts := split_on ":"%char url in
    (Normal None,
     mkRemote (remote_id remote) (remote_url remote) (remote_enabled remote)
              (Some "nfs") (Some (remote_id remote)) (parts !! 0%nat) (parts !! 1%nat))
  else if startsWith "file://" None then
    (Normal None,
     mkRemote (remote_id remote) (remote_url remote) (remote_enabled remote)
              (Some "local") (Some (String_slice 6 (remote_url remote)))
              (remote_host remote) (remote_share remote))
  else (Throw (ForeignError "Unknown remote url protocol"), remote).

(** Reading the property [type] of what a call returned: no property of
    [undefined] can be read. *)
Definition read_type (returned : option Remote) : completion (option string) :=
  match returned with
  | None => Throw TypeError
  | Some remote => Normal (remote_type remote)
  end.

(** The methods of a handler: what each returns, and for [sync] the remote as
    it leaves it. *)
Record RemoteOps := mkRemoteOps {
  ops_sync : Remote → completion (option Remote) * Remote;
  ops_forget : Remote → completion unit;
  ops_disableAll : list Remote → completion unit
}.

(** [class LocalHandler]; [ensureDir] is [fs.ensureDirAsync]. *)
Definition LocalHandler (ensureDir : option string → completion unit) : RemoteOps :=
  mkRemoteOps
    (fun local =>
       if remote_enabled local
       then (_ ← ensureDir (remote_path local); Normal None, local)
       else (Normal None, local))
    (fun _ => Normal tt)
    (fun _ => Normal tt).

(** [Promise.all] over settled promises, of which at most one is rejected. *)
Definition Promise_all (promises : list (completion unit)) : completion unit :=
  foldr (fun p rest => _ ← p; rest) (Normal tt) promises.

(** What [disableAll] leaves: its outcome, the remotes, and the arguments
    the [disableAll] of each handler was called with. *)
Record DisableAllResult := mkDisableAllResult {
  da_outcome : completion unit;
  da_remotes : list Remote;
  da_calls : list (string * list Remote)
}.

(** [forEach(remotes, remote => this._resolve(remote))] *)
Fixpoint resolve_each (remotes : list Remote) : completion unit * list Remote :=
  match remotes with
  | [] => (Normal tt, [])
  | remote :: rest =>
      let '(returned, remote) := _resolve remote in
      match returned with
      | Throw e => (Throw e, remote :: rest)
      | Normal _ => let '(c, rest) := resolve_each rest in (c, remote :: rest)
      end
  end.

Section RemoteHandler.

(** [this.handlers], as the constructor fills it. *)
Variable handlers : gmap string RemoteOps.

(** [this.handlers[type]] then a method of it *)
Definition handler_of (type : option string) : completion RemoteOps :=
  match handlers !! default "undefined" type with
  | None => Throw TypeError
  | Some handler => Normal handler
  end.

(** [async sync (remote)] *)
Definition RemoteHandler_sync (remote : Remote) : completion (option Remote) * Remote :=
  let '(returned, remote) := _resolve remote in
  match (value ← returned; type ← read_type value; handler_of type) with
  | Throw e => (Throw e, remote)
  | Normal handler => ops_sync handler remote
  end.

(** [async forget (remote)] *)
Definition RemoteHandler_forget (remote : Remote) : completion unit * Remote :=
  let '(returned, remote) := _resolve remote in
  match (value ← returned; type ← read_type value; handler_of type) with
  | Throw e => (Throw e, remote)
  | Normal handler => (ops_forget handler remote, remote)
  end.

(** [async disableAll (remotes)] *)
Definition RemoteHandler_disableAll (remotes : list Remote) : DisableAllResult :=
  let '(c, remotes) := resolve_each remotes in
  match c with
  | Throw e => mkDisableAllResult (Throw e) remotes []
  | Normal _ =>
      let calls :=
        map (fun type =>
               (type, filter (fun remote => remote_type remote = Some type) remotes))
            ["local"; "nfs"] in
      let promises :=
        map (fun call => handler ← handler_of (Some call.1); ops_disableAll handler call.2)
            calls in
      mkDisableAllResult (Promise_all promises) remotes calls
  end.

End RemoteHandler.

(** [new RemoteHandler ()], for a given [NfsMounter]. *)
Definition RemoteHandler_handlers (NfsMounter : RemoteOps)
    (ensureDir : option string → completion unit) : gmap string RemoteOps :=
  <["nfs" := NfsMounter]> (<["local" := LocalHandler ensureDir]> ∅).

(** The remote [_resolve] leaves. *)
Definition resolved (remote : Remote) : Remote := (_resolve remote).2.

Definition is_nfs (remote : Remote) : bool := String.prefix "nfs://" (remote_url remote).

Definition nfs_remote : Remote :=
  mkRemote "r1" "nfs://filer:/export/backups" true None None None None.
Definition file_remote : Remote :=
  mkRemote "r2" "file:///var/backups" true None None None None.
Definition mounter_ok : RemoteOps :=
  mkRemoteOps (fun mount => (Normal (Some mount), mount)) (fun _ => Normal tt)
              (fun _ => Normal tt).
Definition ensureDir_ok : option string → completion unit := fun _ => Normal tt.

(* ===================================================================== *)
(** ** Scheduler: the steps of the methods *)
(* ===================================================================== *)

Arguments _resolveId : simpl never.

Ltac run_M :=
  unfold throw_new, new_error, exists_, isEnabled, new_CronJob, cronJob_start,
    cronJob_stop, mbind, M_bind, bind, lift, gets, modify, ret, throw,
    set_schedules, set_scheduleTable, set_cronJobs, set_timers; simpl.

Section SchedulerSteps.

Variable cron_valid : string → bool.


Lemma _resolveId_Id (i : string) : _resolveId (Id i) = Normal (Id i).
Proof. reflexivity. Qed.

Lemma _resolveId_Sched (s : Schedule) :
  schedule_id s ≠ "" → _resolveId (Sched s) = Normal (Id (schedule_id s)).
Proof. intros Hne. unfold _resolveId. by destruct (decide _). Qed.

Lemma _enable_valid (s : Schedule) (st : Scheduler) :
  cron_valid (schedule_cron s) = true →
  _enable cron_valid s st = (Normal tt, enabled_state s st).
Proof. intros Hv. unfold _enable. run_M. by rewrite Hv. Qed.

Lemma _enable_invalid (s : Schedule) (st : Scheduler) :
  cron_valid (schedule_cron s) = false →
  _enable cron_valid s st = (Throw (CronPatternError (schedule_cron s)), st).
Proof. intros Hv. unfold _enable. run_M. by rewrite Hv. Qed.

Lemma _add_eq (s : Schedule) (k : scheduleOrId) (st : Scheduler) :
  _resolveId (Sched s) = Normal k →
  _add cron_valid s st = if schedule_enabled s then _enable cron_valid s (added_state (toKey k) s st)
              else (Normal tt, added_state (toKey k) s st).
Proof. intros Hk. unfold _add. run_M. rewrite Hk. by destruct (schedule_enabled s). Qed.

Lemma has_property_true {A} (object : gmap string A) (k : string) :
  has_property object k = true ↔ is_Some (object !! k) ∨ k ∈ Object_prototype.
Proof.
  unfold has_property. rewrite orb_true_iff, !bool_decide_eq_true. done.
Qed.

Lemma has_property_false {A} (object : gmap string A) (k : string) :
  has_property object k = false ↔ object !! k = None ∧ k ∉ Object_prototype.
Proof.
  unfold has_property. rewrite orb_false_iff, !bool_decide_eq_false.
  by rewrite <- eq_None_not_Some.
Qed.

Lemma has_property_own {A} (object : gmap string A) (k : string) :
  is_Some (object !! k) → has_property object k = true.
Proof. intros H. apply has_property_true. by left. Qed.

Lemma read_property_own {A} (object : gmap string A) (k : string) (a : A) :
  object !! k = Some a → read_property object k = Own a.
Proof. intros H. unfold read_property. by rewrite H. Qed.

Lemma read_property_Own {A} (object : gmap string A) (k : string) (a : A) :
  read_property object k = Own a ↔ object !! k = Some a.
Proof.
  unfold read_property. destruct (object !! k); [|by case_bool_decide].
  split; by intros [= ->].
Qed.

Lemma read_property_absent {A} (object : gmap string A) (k : string) :
  object !! k = None → k ∉ Object_prototype → read_property object k = NoProperty.
Proof.
  intros H Hk. unfold read_property. rewrite H. by rewrite bool_decide_eq_false_2.
Qed.

Lemma read_property_inherited {A} (object : gmap string A) (k : string) :
  object !! k = None → k ∈ Object_prototype → read_property object k = Inherited k.
Proof.
  intros H Hk. unfold read_property. rewrite H. by rewrite bool_decide_eq_true_2.
Qed.

(** An own entry of the table is truthy exactly when it is [true]; a key
    that is no name of [Object.prototype] reads as its own entry. *)
Lemma truthy_enabled_own (table : gmap string bool) (k : string) (b : bool) :
  table !! k = Some b → truthy_enabled (read_property table k) = b.
Proof. intros H. by rewrite (read_property_own _ _ _ H). Qed.

Lemma truthy_enabled_plain (table : gmap string bool) (k : string) :
  k ∉ Object_prototype →
  truthy_enabled (read_property table k) = truthy_entry (table !! k).
Proof.
  intros Hk. unfold read_property. destruct (table !! k); [done|].
  by rewrite bool_decide_eq_false_2.
Qed.

Lemma truthy_enabled_false (table : gmap string bool) (k : string) :
  truthy_enabled (read_property table k) = false → table !! k ≠ Some true.
Proof. intros H Ht. by rewrite (truthy_enabled_own _ _ _ Ht) in H. Qed.

Lemma _disable_absent (x r : scheduleOrId) (st : Scheduler) :
  _resolveId x = Normal r →
  has_property (_schedules st) (toKey r) = false →
  _disable x st = (Throw (NoSuchSchedule (toKey r)), st).
Proof. intros Hr Hs. unfold _disable. run_M. rewrite Hr. simpl. by rewrite Hs. Qed.

Lemma _disable_not_enabled (x r : scheduleOrId) (st : Scheduler) :
  _resolveId x = Normal r →
  has_property (_schedules st) (toKey r) = true →
  truthy_enabled (read_property (_scheduleTable st) (toKey r)) = false →
  _disable x st = (Throw (ScheduleNotEnabled (toKey r)), st).
Proof.
  intros Hr Hs Ht. unfold _disable. run_M. rewrite Hr. simpl.
  rewrite Hs. simpl. by rewrite Ht.
Qed.

Lemma _disable_no_handle (x r : scheduleOrId) (st : Scheduler) :
  _resolveId x = Normal r →
  has_property (_schedules st) (toKey r) = true →
  truthy_enabled (read_property (_scheduleTable st) (toKey r)) = true →
  _cronJobs st !! toKey r = None →
  _disable x st = (Throw TypeError, st).
Proof.
  intros Hr Hs Ht Hc. unfold _disable. run_M. rewrite Hr. simpl.
  rewrite Hs. simpl. rewrite Ht. simpl. unfold read_property. rewrite Hc.
  by case_bool_decide.
Qed.

Lemma _disable_enabled (x r : scheduleOrId) (h : nat) (st : Scheduler) :
  _resolveId x = Normal r →
  has_property (_schedules st) (toKey r) = true →
  truthy_enabled (read_property (_scheduleTable st) (toKey r)) = true →
  _cronJobs st !! toKey r = Some h →
  _disable x st = (Normal tt, disabled_state (toKey r) h st).
Proof.
  intros Hr Hs Ht Hc. unfold _disable. run_M. rewrite Hr. simpl.
  rewrite Hs. simpl. rewrite Ht. simpl. by rewrite (read_property_own _ _ _ Hc).
Qed.

Lemma _disable_undefined (st : Scheduler) :
  _disable Undefined st = (Throw TypeError, st).
Proof. reflexivity. Qed.

End SchedulerSteps.

(* ===================================================================== *)
(** ** Scheduler: the invariant on the states the methods lead to *)
(* ===================================================================== *)

Lemma inv_empty : scheduler_inv empty_scheduler.
Proof.
  split.
  - intros k. simpl. rewrite !lookup_empty. split; [by intros [? ?] | done].
  - intros k. simpl. by rewrite lookup_empty.
  - intros k h. simpl. by rewrite lookup_empty.
  - intros h c. simpl. by rewrite lookup_nil.
Qed.

Lemma inv_no_handle (st : Scheduler) (k : string) :
  handle_iff_enabled st → _scheduleTable st !! k ≠ Some true →
  _cronJobs st !! k = None.
Proof.
  intros Hi Hne. destruct (_cronJobs st !! k) eqn:E; [|done].
  exfalso. apply Hne, Hi. by rewrite E.
Qed.

Lemma inv_unknown_no_handle (st : Scheduler) (k : string) :
  handle_iff_enabled st → enabled_known st → _schedules st !! k = None →
  _cronJobs st !! k = None.
Proof.
  intros Hi Hk Hs. apply inv_no_handle; [done|].
  intros Ht. apply Hk in Ht. rewrite Hs in Ht. by destruct Ht.
Qed.

Lemma inv_disabled_state (st : Scheduler) (k : string) (h : nat) :
  scheduler_inv st → _cronJobs st !! k = Some h →
  scheduler_inv (disabled_state k h st).
Proof.
  intros [Hi Hk Hr Ho] Hc.
  destruct (Hr _ _ Hc) as (c & Htc & Hrun & Hsid).
  split.
  - intros k'. simpl. destruct (decide (k = k')) as [<-|Hne].
    + rewrite lookup_delete_eq, lookup_insert_eq. split; [by intros [? ?] | done].
    + rewrite lookup_delete_ne, lookup_insert_ne by done. apply Hi.
  - intros k'. simpl. destruct (decide (k = k')) as [<-|Hne].
    + by rewrite lookup_insert_eq.
    + rewrite lookup_insert_ne by done. apply Hk.
  - intros k' h'. simpl. destruct (decide (k = k')) as [<-|Hne].
    + by rewrite lookup_delete_eq.
    + rewrite lookup_delete_ne by done. intros Hc'.
      destruct (Hr _ _ Hc') as (c' & Htc' & Hrun' & Hsid').
      assert (h ≠ h') by (intros ->; congruence).
      exists c'. by rewrite list_lookup_alter_ne.
  - intros h' c'. simpl. destruct (decide (h = h')) as [<-|Hne].
    + rewrite list_lookup_alter_eq, Htc. simpl. by intros [= <-].
    + rewrite list_lookup_alter_ne by done. intros Htc' Hrun'.
      specialize (Ho _ _ Htc' Hrun').
      rewrite lookup_delete_ne; [done|]. intros Heq. rewrite <- Heq in Ho.
      congruence.
Qed.

Lemma inv_added_state (st : Scheduler) (k : string) (s : Schedule) :
  scheduler_inv st → _cronJobs st !! k = None →
  scheduler_inv (added_state k s st).
Proof.
  intros [Hi Hk Hr Ho] Hc. split; try done.
  - intros k'. simpl. destruct (decide (k = k')) as [<-|Hne].
    + rewrite lookup_insert_eq, Hc. split; [by intros [? ?] | done].
    + rewrite lookup_insert_ne by done. apply Hi.
  - intros k'. simpl. destruct (decide (k = k')) as [<-|Hne].
    + by rewrite lookup_insert_eq.
    + rewrite !lookup_insert_ne by done. apply Hk.
Qed.

Lemma inv_purged_state (st : Scheduler) (k : string) :
  scheduler_inv st → _cronJobs st !! k = None →
  scheduler_inv (purged_state k st).
Proof.
  intros [Hi Hk Hr Ho] Hc. split; try done.
  - intros k'. simpl. destruct (decide (k = k')) as [<-|Hne].
    + rewrite lookup_delete_eq, Hc. split; [by intros [? ?] | done].
    + rewrite lookup_delete_ne by done. apply Hi.
  - intros k'. simpl. destruct (decide (k = k')) as [<-|Hne].
    + by rewrite lookup_delete_eq.
    + rewrite !lookup_delete_ne by done. apply Hk.
Qed.

Lemma inv_enabled_state (st : Scheduler) (s : Schedule) :
  scheduler_inv st → is_Some (_schedules st !! schedule_id s) →
  _cronJobs st !! schedule_id s = None →
  scheduler_inv (enabled_state s st).
Proof.
  intros [Hi Hk Hr Ho] Hs Hc.
  set (k := schedule_id s) in *.
  assert (Hnew : alter (cj_set_running true) (length (timers st))
            (timers st ++ [mkCronJob (schedule_cron s) (schedule_job s) k false])%list
            !! length (timers st)
          = Some (mkCronJob (schedule_cron s) (schedule_job s) k true)).
  { rewrite list_lookup_alter_eq, lookup_app_r by lia.
    by replace (length (timers st) - length (timers st)) with 0 by lia. }
  assert (Hold : ∀ h, h ≠ length (timers st) →
            alter (cj_set_running true) (length (timers st))
              (timers st ++ [mkCronJob (schedule_cron s) (schedule_job s) k false])%list
              !! h = timers st !! h).
  { intros h Hne. rewrite list_lookup_alter_ne by done.
    destruct (decide (h < length (timers st))).
    - by rewrite lookup_app_l.
    - rewrite !lookup_ge_None_2; [done | lia | rewrite length_app; simpl; lia]. }
  split.
  - intros k'. simpl. fold k. destruct (decide (k = k')) as [<-|Hne].
    + rewrite !lookup_insert_eq. split; [done | by eexists].
    + rewrite !lookup_insert_ne by done. apply Hi.
  - intros k'. simpl. fold k. destruct (decide (k = k')) as [<-|Hne].
    + done.
    + rewrite lookup_insert_ne by done. apply Hk.
  - intros k' h'. simpl. fold k. destruct (decide (k = k')) as [<-|Hne].
    + rewrite lookup_insert_eq. intros [= <-]. eexists. by split.
    + rewrite lookup_insert_ne by done. intros Hc'.
      destruct (Hr _ _ Hc') as (c' & Htc' & Hrun' & Hsid').
      exists c'. rewrite Hold; [done|].
      apply lookup_lt_Some in Htc'. lia.
  - intros h' c'. simpl. fold k.
    destruct (decide (h' = length (timers st))) as [->|Hne].
    + rewrite Hnew. intros [= <-] _. simpl. by rewrite lookup_insert_eq.
    + rewrite Hold by done. intros Htc' Hrun'.
      specialize (Ho _ _ Htc' Hrun').
      rewrite lookup_insert_ne; [done|]. intros Heq. rewrite <- Heq in Ho.
      congruence.
Qed.

(* ===================================================================== *)
(** ** Scheduler: what each method does to the state *)
(* ===================================================================== *)

Lemma _disable_throw_resolve (x : scheduleOrId) (e : Error) (st : Scheduler) :
  _resolveId x = Throw e → _disable x st = (Throw e, st).
Proof. intros Hr. unfold _disable. run_M. by rewrite Hr. Qed.

(** [_disable] either throws and leaves the state alone, or runs its body on
    an id that is present, enabled and has a stored reference. *)
Lemma _disable_cases (x : scheduleOrId) (st : Scheduler) :
  (∃ e, _disable x st = (Throw e, st)) ∨
  (∃ r h, _resolveId x = Normal r ∧
          has_property (_schedules st) (toKey r) = true ∧
          truthy_enabled (read_property (_scheduleTable st) (toKey r)) = true ∧
          _cronJobs st !! toKey r = Some h ∧
          _disable x st = (Normal tt, disabled_state (toKey r) h st)).
Proof.
  destruct (_resolveId x) as [r|e] eqn:Hr.
  2:{ left. exists e. by apply _disable_throw_resolve. }
  destruct (has_property (_schedules st) (toKey r)) eqn:Hs.
  2:{ left. eexists. by apply (_disable_absent x r). }
  destruct (truthy_enabled (read_property (_scheduleTable st) (toKey r))) eqn:Ht.
  2:{ left. eexists. by apply (_disable_not_enabled x r). }
  destruct (_cronJobs st !! toKey r) as [h|] eqn:Hc.
  - right. exists r, h. repeat split; try done.
    by apply (_disable_enabled x r).
  - left. eexists. by apply (_disable_no_handle x r).
Qed.

(** The guard of the [catch] clause never holds, and the [finally] block
    cannot throw: [remove] always completes normally, on the state [_disable]
    left, purged of the key. *)
Lemma remove_eq (x : scheduleOrId) (st : Scheduler) :
  remove x st = (Normal tt, purged_state (toKey x) (_disable x st).2).
Proof.
  unfold remove, try_catch_finally.
  destruct (_disable x st) as [[[]|e] st1]; reflexivity.
Qed.

Section SchedulerInvariant.

Variable cron_valid : string → bool.

Lemma _disable_inv (x : scheduleOrId) (st : Scheduler) :
  scheduler_inv st → scheduler_inv (_disable x st).2.
Proof.
  intros Hinv.
  destruct (_disable_cases x st) as [[e ->]|(r & h & _ & _ & _ & Hc & ->)]; [done|].
  by apply inv_disabled_state.
Qed.

Lemma _enable_inv (s : Schedule) (st : Scheduler) :
  scheduler_inv st → is_Some (_schedules st !! schedule_id s) →
  _cronJobs st !! schedule_id s = None →
  scheduler_inv (_enable cron_valid s st).2.
Proof.
  intros Hinv Hs Hc. destruct (cron_valid (schedule_cron s)) eqn:Hv.
  - rewrite _enable_valid by done. by apply inv_enabled_state.
  - by rewrite _enable_invalid.
Qed.

Lemma _add_inv (s : Schedule) (st : Scheduler) :
  scheduler_inv st → schedule_id s ≠ "" →
  _cronJobs st !! schedule_id s = None →
  scheduler_inv (_add cron_valid s st).2.
Proof.
  intros Hinv Hne Hc.
  rewrite (_add_eq _ _ _ _ (_resolveId_Sched s Hne)). simpl.
  pose proof (inv_added_state st (schedule_id s) s Hinv Hc) as Hadded.
  destruct (schedule_enabled s); [|done].
  apply _enable_inv; [done | (simpl; by rewrite lookup_insert_eq) | done].
Qed.

Lemma add_inv (s : Schedule) (st : Scheduler) :
  scheduler_inv st → schedule_id s ≠ "" →
  scheduler_inv (add cron_valid s st).2.
Proof.
  intros Hinv Hne. unfold add. run_M. rewrite (_resolveId_Sched s Hne). simpl.
  destruct (has_property (_schedules st) (schedule_id s)) eqn:Hs; [done|].
  apply has_property_false in Hs as [Hs _].
  apply _add_inv; [done | done |].
  by apply inv_unknown_no_handle; [apply Hinv | apply Hinv |].
Qed.

Lemma remove_inv (i : string) (st : Scheduler) :
  scheduler_inv st → scheduler_inv (remove (Id i) st).2.
Proof.
  intros Hinv. rewrite remove_eq. simpl.
  destruct (_disable_cases (Id i) st) as [[e He]|(r & h & Hr & Hs & Ht & Hc & ->)].
  - rewrite He. simpl. apply inv_purged_state; [done|].
    destruct (_cronJobs st !! i) as [h|] eqn:Hc; [|done].
    assert (Ht : _scheduleTable st !! i = Some true)
      by (apply (inv_handle _ Hinv); by rewrite Hc).
    pose proof (_disable_enabled (Id i) (Id i) h st eq_refl) as Hd.
    simpl in Hd. rewrite Hd in He; [done | | by rewrite (truthy_enabled_own _ _ _ Ht) | done].
    by apply has_property_own, (inv_known _ Hinv).
  - injection Hr as <-. simpl.
    apply inv_purged_state; [by apply inv_disabled_state|].
    simpl. by rewrite lookup_delete_eq.
Qed.

Lemma update_absent (s : Schedule) (r : scheduleOrId) (st : Scheduler) :
  _resolveId (Sched s) = Normal r →
  has_property (_schedules st) (toKey r) = false →
  update cron_valid s st = (Throw (NoSuchSchedule (toKey r)), st).
Proof. intros Hr Hs. unfold update. run_M. rewrite Hr. simpl. by rewrite Hs. Qed.

Lemma update_enabled (s : Schedule) (r : scheduleOrId) (h : nat) (st : Scheduler) :
  _resolveId (Sched s) = Normal r →
  has_property (_schedules st) (toKey r) = true →
  truthy_enabled (read_property (_scheduleTable st) (toKey r)) = true →
  _cronJobs st !! toKey r = Some h →
  update cron_valid s st = _add cron_valid s (disabled_state (toKey r) h st).
Proof.
  intros Hr Hs Ht Hc. unfold update. run_M. rewrite Hr. simpl.
  rewrite Hs. simpl. rewrite Ht. simpl.
  by rewrite (_disable_enabled (Sched s) r h st).
Qed.

Lemma update_no_handle (s : Schedule) (r : scheduleOrId) (st : Scheduler) :
  _resolveId (Sched s) = Normal r →
  has_property (_schedules st) (toKey r) = true →
  truthy_enabled (read_property (_scheduleTable st) (toKey r)) = true →
  _cronJobs st !! toKey r = None →
  update cron_valid s st = (Throw TypeError, st).
Proof.
  intros Hr Hs Ht Hc. unfold update. run_M. rewrite Hr. simpl.
  rewrite Hs. simpl. rewrite Ht. simpl.
  by rewrite (_disable_no_handle (Sched s) r st).
Qed.

Lemma update_disabled (s : Schedule) (r : scheduleOrId) (st : Scheduler) :
  _resolveId (Sched s) = Normal r →
  has_property (_schedules st) (toKey r) = true →
  truthy_enabled (read_property (_scheduleTable st) (toKey r)) = false →
  update cron_valid s st = _add cron_valid s st.
Proof.
  intros Hr Hs Ht. unfold update. run_M. rewrite Hr. simpl.
  rewrite Hs. simpl. by rewrite Ht.
Qed.

(** [add] throws and leaves the state alone, or is [_add]; [update] throws
    and leaves the state alone, or is [_add], run on the state [_disable]
    leaves when the entry of the key is truthy. *)
Lemma add_cases (s : Schedule) (r : scheduleOrId) (st : Scheduler) :
  _resolveId (Sched s) = Normal r →
  add cron_valid s st = (Throw (ScheduleOverride (toKey r)), st) ∨
  add cron_valid s st = _add cron_valid s st.
Proof.
  intros Hr. unfold add. run_M. rewrite Hr. simpl.
  destruct (has_property (_schedules st) (toKey r)); [by left | by right].
Qed.

Lemma update_cases (s : Schedule) (r : scheduleOrId) (st : Scheduler) :
  _resolveId (Sched s) = Normal r →
  (∃ e, update cron_valid s st = (Throw e, st)) ∨
  update cron_valid s st = _add cron_valid s st ∨
  (∃ h, _cronJobs st !! toKey r = Some h ∧
        update cron_valid s st = _add cron_valid s (disabled_state (toKey r) h st)).
Proof.
  intros Hr.
  destruct (has_property (_schedules st) (toKey r)) eqn:Hs.
  2:{ left. eexists. by apply (update_absent s r). }
  destruct (truthy_enabled (read_property (_scheduleTable st) (toKey r))) eqn:Ht.
  - destruct (_cronJobs st !! toKey r) as [h|] eqn:Hc.
    + right. right. exists h. split; [done|]. by apply (update_enabled s r).
    + left. eexists. by apply (update_no_handle s r).
  - right. left. by apply (update_disabled s r).
Qed.

Lemma update_inv (s : Schedule) (st : Scheduler) :
  scheduler_inv st → schedule_id s ≠ "" →
  scheduler_inv (update cron_valid s st).2.
Proof.
  intros Hinv Hne. pose proof (_resolveId_Sched s Hne) as Hr.
  destruct (has_property (_schedules st) (schedule_id s)) eqn:Hs.
  2:{ by rewrite (update_absent s _ st Hr). }
  destruct (truthy_enabled (read_property (_scheduleTable st) (schedule_id s))) eqn:Ht.
  - destruct (_cronJobs st !! schedule_id s) as [h|] eqn:Hc.
    + rewrite (update_enabled s _ h st Hr) by done.
      simpl. apply _add_inv; [by apply inv_disabled_state | done |].
      simpl. by rewrite lookup_delete_eq.
    + by rewrite (update_no_handle s _ st Hr).
  - rewrite (update_disabled s _ st Hr) by done.
    apply _add_inv; [done | done |].
    apply inv_no_handle; [apply Hinv|]. by apply truthy_enabled_false.
Qed.

Lemma disableAll_keys_inv (keys : list string) (st : Scheduler) :
  scheduler_inv st → scheduler_inv (disableAll_keys keys st).2.
Proof.
  revert st. induction keys as [|k keys IH]; intros st Hinv; [done|].
  simpl. run_M.
  destruct (truthy_entry (_scheduleTable st !! k)).
  - pose proof (_disable_inv (Id k) st Hinv) as Hd.
    destruct (_disable (Id k) st) as [[[]|e] st1]; simpl in *; [by apply IH | done].
  - by apply IH.
Qed.

Lemma disableAll_inv (st : Scheduler) :
  scheduler_inv st → scheduler_inv (disableAll st).2.
Proof. intros Hinv. unfold disableAll. run_M. by apply disableAll_keys_inv. Qed.

Lemma _add_schedules (s : Schedule) (st : Scheduler) :
  schedule_id s ≠ "" →
  _schedules (_add cron_valid s st).2 = <[schedule_id s := s]> (_schedules st).
Proof.
  intros Hne. rewrite (_add_eq _ _ _ _ (_resolveId_Sched s Hne)). simpl.
  destruct (schedule_enabled s); [|done].
  destruct (cron_valid (schedule_cron s)) eqn:Hv.
  - by rewrite _enable_valid.
  - by rewrite _enable_invalid.
Qed.

Lemma forEach_add_inv (schedules : list Schedule) (st : Scheduler) :
  scheduler_inv st →
  NoDup (schedule_id <$> schedules) →
  Forall (fun s => schedule_id s ≠ "") schedules →
  Forall (fun s => _schedules st !! schedule_id s = None) schedules →
  scheduler_inv (forEach_add cron_valid schedules st).2.
Proof.
  revert st. induction schedules as [|s rest IH]; intros st Hinv Hnd Hne Hnew; [done|].
  rewrite fmap_cons in Hnd. apply NoDup_cons in Hnd as [Hnotin Hnd].
  apply Forall_cons in Hne as [Hne1 Hne]. apply Forall_cons in Hnew as [Hnew1 Hnew].
  assert (Hadd : scheduler_inv (_add cron_valid s st).2).
  { apply _add_inv; [done | done |].
    by apply inv_unknown_no_handle; [apply Hinv | apply Hinv |]. }
  pose proof (_add_schedules s st Hne1) as Hsch.
  simpl. run_M.
  destruct (_add cron_valid s st) as [[[]|e] st1]; simpl in *; [|done].
  apply IH; [done | done | done |].
  rewrite Forall_forall in Hnew |- *. intros s' Hin.
  rewrite Hsch, lookup_insert_ne; [by apply Hnew|].
  intros Heq. apply Hnotin. rewrite Heq. apply list_elem_of_fmap. by exists s'.
Qed.

Lemma _loadSchedules_inv (schedules : list Schedule) :
  NoDup (schedule_id <$> schedules) →
  Forall (fun s => schedule_id s ≠ "") schedules →
  scheduler_inv (_loadSchedules cron_valid schedules empty_scheduler).2.
Proof.
  intros Hnd Hne. unfold _loadSchedules. run_M.
  apply forEach_add_inv; [apply inv_empty | done | done |].
  apply Forall_forall. intros s _. simpl. apply lookup_empty.
Qed.

(** The invariant holds in every reachable state. *)
Lemma reachable_inv (st : Scheduler) :
  reachable cron_valid st → scheduler_inv st.
Proof.
  induction 1 as [schedules Hnd Hne | st s _ IH Hne | st i _ IH
                  | st s _ IH Hne | st _ IH].
  - by apply _loadSchedules_inv.
  - by apply add_inv.
  - by apply remove_inv.
  - by apply update_inv.
  - by apply disableAll_inv.
Qed.

End SchedulerInvariant.

(** Under the invariant the running timers of an id are the stored
    reference, if any. *)
Lemma running_timers_of_spec (st : Scheduler) (k : string) (h : nat) :
  scheduler_inv st →
  h ∈ running_timers_of k st ↔ _cronJobs st !! k = Some h.
Proof.
  intros [Hi Hk Hr Ho]. unfold running_timers_of, runs_for.
  rewrite list_elem_of_filter, elem_of_seq. split.
  - intros [Hrun _]. destruct (timers st !! h) as [c|] eqn:Hc; [|done].
    simpl in Hrun. apply andb_true_iff in Hrun as [Hrun Hsid].
    apply bool_decide_eq_true in Hsid as <-. by apply Ho.
  - intros Hc. destruct (Hr _ _ Hc) as (c & Htc & Hrun & Hsid).
    rewrite Htc. simpl. rewrite Hrun, bool_decide_eq_true_2 by done.
    split; [done|]. apply lookup_lt_Some in Htc. lia.
Qed.

Lemma running_timers_of_NoDup (st : Scheduler) (k : string) :
  NoDup (running_timers_of k st).
Proof. apply NoDup_filter, NoDup_seq. Qed.

Lemma running_timers_at_most_one (st : Scheduler) (k : string) :
  scheduler_inv st → (length (running_timers_of k st) ≤ 1)%nat.
Proof.
  intros Hinv. pose proof (running_timers_of_NoDup st k) as Hnd.
  destruct (running_timers_of k st) as [|a [|b l]] eqn:E; simpl; [lia | lia |].
  exfalso.
  assert (Ha : a ∈ running_timers_of k st) by (rewrite E; set_solver).
  assert (Hb : b ∈ running_timers_of k st) by (rewrite E; set_solver).
  apply running_timers_of_spec in Ha, Hb; [|done..].
  assert (a = b) by congruence. subst b.
  apply NoDup_cons in Hnd as [Hnotin _]. apply Hnotin. set_solver.
Qed.

(* ===================================================================== *)
(** ** Scheduler: an entry marked enabled has a stored reference *)
(* ===================================================================== *)

Lemma ehh_empty : enabled_has_handle empty_scheduler.
Proof. intros k. simpl. by rewrite lookup_empty. Qed.

Lemma ehh_disabled_state (k : string) (h : nat) (st : Scheduler) :
  enabled_has_handle st → enabled_has_handle (disabled_state k h st).
Proof.
  intros H k'. simpl. destruct (decide (k = k')) as [<-|Hne].
  - by rewrite lookup_insert_eq.
  - rewrite lookup_insert_ne, lookup_delete_ne by done. apply H.
Qed.

Lemma ehh_added_state (k : string) (s : Schedule) (st : Scheduler) :
  enabled_has_handle st → enabled_has_handle (added_state k s st).
Proof.
  intros H k'. simpl. destruct (decide (k = k')) as [<-|Hne].
  - by rewrite lookup_insert_eq.
  - rewrite lookup_insert_ne by done. apply H.
Qed.

Lemma ehh_purged_state (k : string) (st : Scheduler) :
  enabled_has_handle st → enabled_has_handle (purged_state k st).
Proof.
  intros H k'. simpl. destruct (decide (k = k')) as [<-|Hne].
  - by rewrite lookup_delete_eq.
  - rewrite lookup_delete_ne by done. apply H.
Qed.

Lemma ehh_enabled_state (s : Schedule) (st : Scheduler) :
  enabled_has_handle st → enabled_has_handle (enabled_state s st).
Proof.
  intros H k'. simpl. destruct (decide (schedule_id s = k')) as [<-|Hne].
  - rewrite !lookup_insert_eq. by eexists.
  - rewrite !lookup_insert_ne by done. apply H.
Qed.

Section EnabledHasHandle.

Variable cron_valid : string → bool.

Lemma ehh__disable (x : scheduleOrId) (st : Scheduler) :
  enabled_has_handle st → enabled_has_handle (_disable x st).2.
Proof.
  intros H.
  destruct (_disable_cases x st) as [[e ->]|(r & h & _ & _ & _ & _ & ->)]; [done|].
  by apply ehh_disabled_state.
Qed.

Lemma ehh__enable (s : Schedule) (st : Scheduler) :
  enabled_has_handle st → enabled_has_handle (_enable cron_valid s st).2.
Proof.
  intros H. destruct (cron_valid (schedule_cron s)) eqn:Hv.
  - rewrite _enable_valid by done. by apply ehh_enabled_state.
  - by rewrite _enable_invalid.
Qed.

Lemma _resolveId_Sched_normal (s : Schedule) :
  ∃ r, _resolveId (Sched s) = Normal r.
Proof. unfold _resolveId. destruct (decide _); by eexists. Qed.

Lemma ehh__add (s : Schedule) (st : Scheduler) :
  enabled_has_handle st → enabled_has_handle (_add cron_valid s st).2.
Proof.
  intros H. destruct (_resolveId_Sched_normal s) as [r Hr].
  rewrite (_add_eq _ _ _ _ Hr).
  pose proof (ehh_added_state (toKey r) s st H).
  destruct (schedule_enabled s); [by apply ehh__enable | done].
Qed.

Lemma ehh_add (s : Schedule) (st : Scheduler) :
  enabled_has_handle st → enabled_has_handle (add cron_valid s st).2.
Proof.
  intros H. destruct (_resolveId_Sched_normal s) as [r Hr].
  unfold add. run_M. rewrite Hr. simpl.
  destruct (has_property (_schedules st) (toKey r)); [done | by apply ehh__add].
Qed.

Lemma ehh_remove (x : scheduleOrId) (st : Scheduler) :
  enabled_has_handle st → enabled_has_handle (remove x st).2.
Proof.
  intros H. rewrite remove_eq. simpl. by apply ehh_purged_state, ehh__disable.
Qed.

Lemma ehh_update (s : Schedule) (st : Scheduler) :
  enabled_has_handle st → enabled_has_handle (update cron_valid s st).2.
Proof.
  intros H. destruct (_resolveId_Sched_normal s) as [r Hr].
  destruct (has_property (_schedules st) (toKey r)) eqn:Hs.
  2:{ by rewrite (update_absent _ s r st Hr). }
  destruct (truthy_enabled (read_property (_scheduleTable st) (toKey r))) eqn:Ht.
  - destruct (_cronJobs st !! toKey r) as [h|] eqn:Hc.
    + rewrite (update_enabled _ s r h st Hr) by done.
      by apply ehh__add, ehh_disabled_state.
    + by rewrite (update_no_handle _ s r st Hr).
  - rewrite (update_disabled _ s r st Hr) by done.
    by apply ehh__add.
Qed.

Lemma ehh_disableAll_keys (keys : list string) (st : Scheduler) :
  enabled_has_handle st → enabled_has_handle (disableAll_keys keys st).2.
Proof.
  revert st. induction keys as [|k keys IH]; intros st H; [done|].
  simpl. run_M.
  destruct (truthy_entry (_scheduleTable st !! k)).
  - pose proof (ehh__disable (Id k) st H) as Hd.
    destruct (_disable (Id k) st) as [[[]|e] st1]; simpl in *; [by apply IH | done].
  - by apply IH.
Qed.

Lemma ehh__loadSchedules (schedules : list Schedule) (st : Scheduler) :
  enabled_has_handle (_loadSchedules cron_valid schedules st).2.
Proof.
  unfold _loadSchedules. run_M.
  assert (H0 : enabled_has_handle
            (mkScheduler ∅ ∅ ∅ (timers st))) by (intros k; simpl; by rewrite lookup_empty).
  revert H0. generalize (mkScheduler ∅ ∅ ∅ (timers st)). clear st.
  induction schedules as [|s rest IH]; intros st H; [done|].
  simpl. run_M. pose proof (ehh__add s st H) as Hadd.
  destruct (_add cron_valid s st) as [[[]|e] st1]; simpl in *; [by apply IH | done].
Qed.

Lemma ehh_disableAll (st : Scheduler) :
  enabled_has_handle st → enabled_has_handle (disableAll st).2.
Proof. intros H. unfold disableAll. run_M. by apply ehh_disableAll_keys. Qed.

End EnabledHasHandle.

(* ===================================================================== *)
(** ** Scheduler: an id of the schedules has an entry in the table *)
(* ===================================================================== *)

Lemma ta_empty : tables_aligned empty_scheduler.
Proof. intros k. simpl. rewrite lookup_empty. by intros [? ?]. Qed.

Lemma ta_disabled_state (k : string) (h : nat) (st : Scheduler) :
  tables_aligned st → tables_aligned (disabled_state k h st).
Proof.
  intros H k' Hs. simpl in *. destruct (decide (k = k')) as [<-|Hne].
  - rewrite lookup_insert_eq. by eexists.
  - rewrite lookup_insert_ne by done. by apply H.
Qed.

Lemma ta_added_state (k : string) (s : Schedule) (st : Scheduler) :
  tables_aligned st → tables_aligned (added_state k s st).
Proof.
  intros H k'. simpl. destruct (decide (k = k')) as [<-|Hne].
  - rewrite !lookup_insert_eq. by eexists.
  - rewrite !lookup_insert_ne by done. apply H.
Qed.

Lemma ta_enabled_state (s : Schedule) (st : Scheduler) :
  tables_aligned st → tables_aligned (enabled_state s st).
Proof.
  intros H k' Hs. simpl in *. destruct (decide (schedule_id s = k')) as [<-|Hne].
  - rewrite lookup_insert_eq. by eexists.
  - rewrite lookup_insert_ne by done. by apply H.
Qed.

Lemma ta_purged_state (k : string) (st : Scheduler) :
  tables_aligned st → tables_aligned (purged_state k st).
Proof.
  intros H k'. simpl. destruct (decide (k = k')) as [<-|Hne].
  - rewrite lookup_delete_eq. by intros [? ?].
  - rewrite !lookup_delete_ne by done. apply H.
Qed.

Section TablesAligned.

Variable cron_valid : string → bool.

Lemma ta__disable (x : scheduleOrId) (st : Scheduler) :
  tables_aligned st → tables_aligned (_disable x st).2.
Proof.
  intros H.
  destruct (_disable_cases x st) as [[e ->]|(r & h & _ & _ & _ & _ & ->)]; [done|].
  by apply ta_disabled_state.
Qed.

Lemma ta__add (s : Schedule) (st : Scheduler) :
  tables_aligned st → tables_aligned (_add cron_valid s st).2.
Proof.
  intros H. destruct (_resolveId_Sched_normal s) as [r Hr].
  rewrite (_add_eq _ _ _ _ Hr).
  pose proof (ta_added_state (toKey r) s st H) as Hadded.
  destruct (schedule_enabled s); [|done].
  destruct (cron_valid (schedule_cron s)) eqn:Hv.
  - rewrite _enable_valid by done. by apply ta_enabled_state.
  - by rewrite _enable_invalid.
Qed.

Lemma ta_add (s : Schedule) (st : Scheduler) :
  tables_aligned st → tables_aligned (add cron_valid s st).2.
Proof.
  intros H. destruct (_resolveId_Sched_normal s) as [r Hr].
  destruct (add_cases cron_valid s r st Hr) as [-> | ->]; [done | by apply ta__add].
Qed.

Lemma ta_remove (x : scheduleOrId) (st : Scheduler) :
  tables_aligned st → tables_aligned (remove x st).2.
Proof. intros H. rewrite remove_eq. by apply ta_purged_state, ta__disable. Qed.

Lemma ta_update (s : Schedule) (st : Scheduler) :
  tables_aligned st → tables_aligned (update cron_valid s st).2.
Proof.
  intros H. destruct (_resolveId_Sched_normal s) as [r Hr].
  destruct (update_cases cron_valid s r st Hr) as [[e ->]|[-> |(h & _ & ->)]];
    [done | by apply ta__add | by apply ta__add, ta_disabled_state].
Qed.

Lemma ta_disableAll (st : Scheduler) :
  tables_aligned st → tables_aligned (disableAll st).2.
Proof.
  intros H. unfold disableAll. run_M.
  generalize (map_to_list (_scheduleTable st)).*1. intros keys.
  revert st H. induction keys as [|k keys IH]; intros st H; [done|].
  simpl. run_M. destruct (truthy_entry (_scheduleTable st !! k)).
  - pose proof (ta__disable (Id k) st H) as Hd.
    destruct (_disable (Id k) st) as [[[]|e] st1]; simpl in *; [by apply IH | done].
  - by apply IH.
Qed.

Lemma ta__loadSchedules (schedules : list Schedule) (st : Scheduler) :
  tables_aligned (_loadSchedules cron_valid schedules st).2.
Proof.
  unfold _loadSchedules. run_M.
  assert (H0 : tables_aligned (mkScheduler ∅ ∅ ∅ (timers st))).
  { intros k. simpl. rewrite lookup_empty. by intros [? ?]. }
  revert H0. generalize (mkScheduler ∅ ∅ ∅ (timers st)). clear st.
  induction schedules as [|s rest IH]; intros st H; [done|].
  simpl. run_M. pose proof (ta__add s st H) as Hadd.
  destruct (_add cron_valid s st) as [[[]|e] st1]; simpl in *; [by apply IH | done].
Qed.

(** In every reachable state an id of [_schedules] has its entry in the
    table. *)
Lemma reachable_tables_aligned (st : Scheduler) :
  reachable cron_valid st → tables_aligned st.
Proof.
  induction 1 as [schedules Hnd Hne | st s _ IH Hne | st i _ IH
                  | st s _ IH Hne | st _ IH].
  - apply ta__loadSchedules.
  - by apply ta_add.
  - by apply ta_remove.
  - by apply ta_update.
  - by apply ta_disableAll.
Qed.

End TablesAligned.

Lemma inv_enabled_has_handle (st : Scheduler) :
  scheduler_inv st → enabled_has_handle st.
Proof. intros Hinv k Ht. by apply (inv_handle _ Hinv). Qed.

(** [_add] leaves the timers that exist alone, and stores for the id either
    nothing new or a reference to a timer it has just created. *)
Lemma _add_timers (cron_valid : string → bool) (s : Schedule) (st : Scheduler)
    (h : nat) (c : CronJob) :
  timers st !! h = Some c → timers (_add cron_valid s st).2 !! h = Some c.
Proof.
  intros Hc. destruct (_resolveId_Sched_normal s) as [r Hr].
  rewrite (_add_eq _ _ _ _ Hr).
  destruct (schedule_enabled s); [|done].
  destruct (cron_valid (schedule_cron s)) eqn:Hv.
  - rewrite _enable_valid by done. simpl.
    pose proof (lookup_lt_Some _ _ _ Hc).
    rewrite list_lookup_alter_ne by lia. by rewrite lookup_app_l.
  - by rewrite _enable_invalid.
Qed.

Lemma _add_handle (cron_valid : string → bool) (s : Schedule) (st : Scheduler) :
  _cronJobs (_add cron_valid s st).2 !! schedule_id s = _cronJobs st !! schedule_id s ∨
  _cronJobs (_add cron_valid s st).2 !! schedule_id s = Some (length (timers st)).
Proof.
  destruct (_resolveId_Sched_normal s) as [r Hr].
  rewrite (_add_eq _ _ _ _ Hr).
  destruct (schedule_enabled s); [|by left].
  destruct (cron_valid (schedule_cron s)) eqn:Hv.
  - rewrite _enable_valid by done. simpl. right. by rewrite lookup_insert_eq.
  - rewrite _enable_invalid by done. by left.
Qed.

(* ===================================================================== *)
(** ** Dispatcher: lemmas *)
(* ===================================================================== *)

Lemma Bluebird_any_fulfilled (ps : list (option settled)) :
  Bluebird_any ps = Some Fulfilled ↔ Some Fulfilled ∈ ps.
Proof.
  unfold Bluebird_any. case_bool_decide as H1; [done|].
  case_bool_decide; split; done.
Qed.

Lemma Bluebird_any_rejected (ps : list (option settled)) :
  Bluebird_any ps = Some Rejected ↔ Forall (fun p => p = Some Rejected) ps.
Proof.
  unfold Bluebird_any. case_bool_decide as H1.
  - split; [done|]. intros HF. rewrite Forall_forall in HF.
    by specialize (HF _ H1).
  - case_bool_decide; split; done.
Qed.

Lemma Bluebird_all_rejected (ps : list (option settled)) :
  Bluebird_all ps = Some Rejected ↔ Some Rejected ∈ ps.
Proof.
  unfold Bluebird_all. case_bool_decide as H1; [done|].
  case_bool_decide; split; done.
Qed.

Lemma Bluebird_all_fulfilled (ps : list (option settled)) :
  Bluebird_all ps = Some Fulfilled ↔ Forall (fun p => p = Some Fulfilled) ps.
Proof.
  unfold Bluebird_all. case_bool_decide as H1.
  - split; [done|]. intros HF. rewrite Forall_forall in HF.
    by specialize (HF _ H1).
  - case_bool_decide; split; done.
Qed.

Lemma checkAuthorizationByTypes_VIF chk :
  checkAuthorizationByTypes chk !! "VIF" = Some (VIF chk).
Proof. reflexivity. Qed.

(** The function [checkAuthorization] picks: the rule of the type, else the
    property of [Object.prototype] of that name, else the default rule. *)
Lemma checkAuthorization_rule (n : nat) this userId object permission (fn : Handler) :
  checkAuthorizationByTypes (checkAuthorization n) !! obj_type object = Some fn →
  checkAuthorization (S n) this userId object permission
    = Bluebird_method (fn this userId object permission).
Proof. intros H. cbn [checkAuthorization]. by rewrite (read_property_own _ _ _ H). Qed.

Lemma checkAuthorization_inherited (n : nat) this userId object permission :
  checkAuthorizationByTypes (checkAuthorization n) !! obj_type object = None →
  obj_type object ∈ Object_prototype →
  checkAuthorization (S n) this userId object permission
    = Bluebird_method (Object_prototype_call (obj_type object) this userId object
                         permission).
Proof.
  intros H Hin. cbn [checkAuthorization].
  by rewrite (read_property_inherited _ _ H Hin).
Qed.

Lemma checkAuthorization_no_rule (n : nat) this userId object permission :
  checkAuthorizationByTypes (checkAuthorization n) !! obj_type object = None →
  obj_type object ∉ Object_prototype →
  checkAuthorization (S n) this userId object permission
    = Bluebird_method (defaultCheckAuthorization this userId object permission).
Proof.
  intros H Hin. cbn [checkAuthorization].
  by rewrite (read_property_absent _ _ H Hin).
Qed.

Lemma checkAuthorization_VIF_step (n : nat) this userId vif permission :
  obj_type vif = "VIF" →
  checkAuthorization (S n) this userId vif permission =
    Bluebird_method (VIF (checkAuthorization n) this userId vif permission).
Proof. intros Ht. by apply checkAuthorization_rule; rewrite Ht. Qed.

(** One step of the recursion on a [VIF] whose two references resolve. *)
Lemma checkAuthorization_VIF (n : nat) (this : Context) (userId : string)
    (vif network vm : XoObject) (permission : string) :
  obj_type vif = "VIF" →
  ctx_getObject this (prop vif "$network") None = Normal network →
  ctx_getObject this (prop vif "$VM") None = Normal vm →
  checkAuthorization (S n) this userId vif permission =
    Bluebird_any [checkAuthorization n this userId network permission;
                  checkAuthorization n this userId vm permission].
Proof.
  intros Ht Hn Hv.
  rewrite (checkAuthorization_rule n _ _ _ _ (VIF (checkAuthorization n)))
    by (by rewrite Ht).
  unfold VIF. rewrite Hn. simpl. rewrite Hv. reflexivity.
Qed.

(** *** More fuel does not change a check that has settled *)

Lemma checkAuthorizationByTypes_lookup chk (t : string) :
  checkAuthorizationByTypes chk !! t =
    if decide ("network" = t) then Some authorized
    else if decide ("VM-template" = t) then Some authorized
    else if decide ("message" = t) then Some (checkMemberAuthorization chk "$object")
    else if decide ("task" = t) then Some (checkMemberAuthorization chk "$host")
    else if decide ("VBD" = t) then Some (checkMemberAuthorization chk "VDI")
    else if decide ("VDI" = t) then Some (VDI chk)
    else if decide ("VIF" = t) then Some (VIF chk)
    else if decide ("VM-snapshot" = t) then Some (checkMemberAuthorization chk "$snapshot_of")
    else None.
Proof.
  unfold checkAuthorizationByTypes. rewrite !lookup_insert, lookup_empty.
  reflexivity.
Qed.

Lemma Bluebird_any_mono (l l' : list (option settled)) (r : settled) :
  Forall2 promise_le l l' → Bluebird_any l = Some r → Bluebird_any l' = Some r.
Proof.
  intros HF. destruct r.
  - rewrite !Bluebird_any_fulfilled. intros Hin.
    apply list_elem_of_lookup in Hin as [i Hi].
    destruct (Forall2_lookup_l _ _ _ _ _ HF Hi) as (b & Hb & Hle).
    rewrite (Hle _ eq_refl) in Hb. apply list_elem_of_lookup. by exists i.
  - rewrite !Bluebird_any_rejected. intros Hall.
    induction HF as [|a b l l' Hab HF IH]; [done|].
    apply Forall_cons in Hall as [-> Hall].
    constructor; [by apply Hab | by apply IH].
Qed.

Section Monotone.

Variables chk chk' : Context → string → XoObject → string → option settled.
Hypothesis Hle : settles_as chk chk'.

Lemma checkMemberAuthorization_mono (member : string) this userId object permission r :
  Bluebird_method (checkMemberAuthorization chk member this userId object permission) = Some r →
  Bluebird_method (checkMemberAuthorization chk' member this userId object permission) = Some r.
Proof.
  unfold checkMemberAuthorization.
  destruct (ctx_getObject this (prop object member) None); simpl; [apply Hle | done].
Qed.

Lemma VIF_mono this userId object permission r :
  Bluebird_method (VIF chk this userId object permission) = Some r →
  Bluebird_method (VIF chk' this userId object permission) = Some r.
Proof.
  unfold VIF.
  destruct (ctx_getObject this (prop object "$network") None); simpl; [|done].
  destruct (ctx_getObject this (prop object "$VM") None); simpl; [|done].
  apply Bluebird_any_mono. repeat constructor; intros ?; apply Hle.
Qed.

Lemma VDI_promises_mono this userId permission (vbds : list XoObject) :
  match mapM (fun vbd =>
           vm ← ctx_getObject this (prop vbd "VM") (Some (OneType "VM"));
           Normal (chk this userId vm permission)) vbds with
  | Normal ps =>
      ∃ ps', mapM (fun vbd =>
               vm ← ctx_getObject this (prop vbd "VM") (Some (OneType "VM"));
               Normal (chk' this userId vm permission)) vbds = Normal ps' ∧
             Forall2 promise_le ps ps'
  | Throw e =>
      mapM (fun vbd =>
         vm ← ctx_getObject this (prop vbd "VM") (Some (OneType "VM"));
         Normal (chk' this userId vm permission)) vbds = Throw e
  end.
Proof.
  induction vbds as [|vbd vbds IH]; simpl.
  - exists []. by split.
  - destruct (ctx_getObject this (prop vbd "VM") (Some (OneType "VM"))) as [vm|e];
      simpl; [|done].
    destruct (mapM _ vbds) as [ps|e]; simpl.
    + destruct IH as (ps' & -> & HF). simpl. eexists. split; [done|].
      constructor; [intros ?; apply Hle | done].
    + by rewrite IH.
Qed.

Lemma VDI_mono this userId object permission r :
  Bluebird_method (VDI chk this userId object permission) = Some r →
  Bluebird_method (VDI chk' this userId object permission) = Some r.
Proof.
  unfold VDI.
  destruct (ctx_getObjects this (obj_VBDs object) "VBD") as [vbds|e]; simpl; [|done].
  pose proof (VDI_promises_mono this userId permission vbds) as Hps.
  destruct (mapM _ vbds) as [ps|e]; simpl.
  - destruct Hps as (ps' & -> & HF). simpl.
    destruct (ctx_getObject this (prop object "$SR") (Some (OneType "SR"))); simpl; [|done].
    apply Bluebird_any_mono. apply Forall2_app; [done|].
    repeat constructor. intros ?; apply Hle.
  - by rewrite Hps.
Qed.

End Monotone.

Lemma checkAuthorization_S (n : nat) :
  settles_as (checkAuthorization n) (checkAuthorization (S n)).
Proof.
  induction n as [|n IH]; intros this userId object permission r; [done|].
  remember (S n) as m eqn:Hm. rewrite Hm at 1. cbn [checkAuthorization].
  unfold read_property. rewrite !checkAuthorizationByTypes_lookup.
  repeat case_decide; simpl; try done; subst m;
    first [ by apply checkMemberAuthorization_mono
          | by apply VIF_mono | by apply VDI_mono
          | by case_bool_decide ].
Qed.

Lemma checkAuthorization_mono (n m : nat) :
  (n ≤ m)%nat → settles_as (checkAuthorization n) (checkAuthorization m).
Proof.
  induction 1 as [|m _ IH]; intros this userId object permission r Hr; [done|].
  by apply checkAuthorization_S, IH.
Qed.

(** A check does not both succeed and fail. *)
Lemma authorization_succeeds_not_fails this userId object permission :
  authorization_succeeds this userId object permission →
  ¬ authorization_fails this userId object permission.
Proof.
  intros [n Hn] [m Hm].
  apply (checkAuthorization_mono n (n `max` m)) in Hn; [|lia].
  apply (checkAuthorization_mono m (n `max` m)) in Hm; [|lia].
  congruence.
Qed.

Lemma resolve_loop_app (fuel : nat) (this : Context) (userId : string)
    (isAdmin : bool) (l1 l2 : list (string * ResolveEntry)) (st : ResolveState) :
  resolve_loop fuel this userId isAdmin (l1 ++ l2) st =
    match resolve_loop fuel this userId isAdmin l1 st with
    | (st1, None) => resolve_loop fuel this userId isAdmin l2 st1
    | (st1, Some err) => (st1, Some err)
    end.
Proof.
  revert st. induction l1 as [|[key e] l1 IH]; intros st; simpl.
  - done.
  - destruct (rs_params st !! re_param e) as [id|]; [|apply IH].
    destruct (ctx_getObject this (Some id) (Some (re_types e))); [apply IH | done].
Qed.

(** When the loop ends on an exception, it is the exception of the last
    lookup of its record. *)
Lemma resolve_loop_thrown (fuel : nat) (this : Context) (userId : string)
    (isAdmin : bool) (l : list (string * ResolveEntry)) (st st' : ResolveState)
    (err : Error) :
  resolve_loop fuel this userId isAdmin l st = (st', Some err) →
  ∃ id types, (id, types) ∈ rs_lookups st' ∧
              ctx_getObject this (Some id) (Some types) = Throw err.
Proof.
  revert st. induction l as [|[key e] l IH]; intros st; simpl; [done|].
  destruct (rs_params st !! re_param e) as [id|]; [|apply IH].
  destruct (ctx_getObject this (Some id) (Some (re_types e))) as [o|err'] eqn:Hg;
    [apply IH|].
  intros [= <- <-]. exists id, (re_types e). split; [|done].
  simpl. set_solver.
Qed.

Lemma resolve_loop_lookups_ok (fuel : nat) (this : Context) (userId : string)
    (isAdmin : bool) (l : list (string * ResolveEntry)) (st st' : ResolveState)
    (thrown : option Error) :
  resolve_loop fuel this userId isAdmin l st = (st', thrown) →
  lookups_ok this st' → thrown = None.
Proof.
  intros Hl Hok. destruct thrown as [err|]; [|done].
  destruct (resolve_loop_thrown _ _ _ _ _ _ _ _ Hl) as (id & types & Hin & Hg).
  unfold lookups_ok in Hok. rewrite Forall_forall in Hok.
  specialize (Hok _ Hin). simpl in Hok. by rewrite Hg in Hok.
Qed.


(* ===================================================================== *)
(** ** Scheduler: the claims *)
(* ===================================================================== *)

Lemma remove_never_throws (x : scheduleOrId) (st : Scheduler) :
  (remove x st).1 = Normal tt.
Proof. by rewrite remove_eq. Qed.

Lemma remove_purges (x : scheduleOrId) (st : Scheduler) :
  _schedules (remove x st).2 !! toKey x = None ∧
  _scheduleTable (remove x st).2 !! toKey x = None.
Proof. rewrite remove_eq. simpl. by rewrite !lookup_delete_eq. Qed.

(** C1 (the code departs from the claim).  [remove(undefined)]: the internal
    [_disable] raises a [TypeError], which is not a [SchedulerError]; the
    claim has [remove] raise it again, but [remove] completes normally, having
    purged the entries of the key.  The guard [!exc instanceof SchedulerError]
    is [(!exc) instanceof SchedulerError], false for every [exc]. *)
Theorem remove_swallows_TypeError (st : Scheduler) :
  _disable Undefined st = (Throw TypeError, st) ∧
  is_SchedulerError TypeError = false ∧
  remove Undefined st = (Normal tt, purged_state "undefined" st).
Proof.
  split; [apply _disable_undefined|]. split; [done|].
  rewrite remove_eq. by rewrite _disable_undefined.
Qed.

(** C2, as stated, fails: from the empty Scheduler, [_enable(s1)] keeps
    "a reference is stored iff the entry is marked enabled", and
    [remove("s1")] then breaks it: [_disable] throws [NoSuchSchedule], the
    entry of the table is deleted and the reference stays. *)
Lemma remove_breaks_handle_iff_enabled :
  handle_iff_enabled empty_scheduler ∧
  handle_iff_enabled (_enable always_valid s1 empty_scheduler).2 ∧
  ¬ handle_iff_enabled (remove (Id "s1") (_enable always_valid s1 empty_scheduler).2).2.
Proof.
  split; [apply inv_empty|]. split.
  - rewrite _enable_valid by done. intros k. simpl.
    destruct (decide ("s1" = k)) as [<-|Hne].
    + rewrite !lookup_insert_eq. split; [done | by eexists].
    + rewrite !lookup_insert_ne, !lookup_empty by done.
      split; [by intros [? ?] | done].
  - intros H. destruct (H "s1") as [H1 _].
    assert (Hc : is_Some (_cronJobs (remove (Id "s1")
                   (_enable always_valid s1 empty_scheduler).2).2 !! "s1"))
      by (vm_compute; eauto).
    specialize (H1 Hc). vm_compute in H1. discriminate H1.
Qed.

(** C2, amended.  From a state where (a) a reference is stored for an id iff
    its entry is marked enabled, (b) an id marked enabled is in [_schedules],
    and (c) the running timers are exactly the stored references, each for
    its own id, every method leads to such a state again: [add] and [update]
    for a schedule with a non-empty id, [remove] for an id, [_disable] and
    [disableAll] always, and [_enable] for a schedule that is in [_schedules]
    and has no reference stored, which is how [_add] calls it.  In such a
    state at most one timer runs for each id. *)
Theorem scheduler_methods_preserve_inv (cron_valid : string → bool) (st : Scheduler) :
  scheduler_inv st →
  (∀ s, schedule_id s ≠ "" → scheduler_inv (add cron_valid s st).2) ∧
  (∀ i, scheduler_inv (remove (Id i) st).2) ∧
  (∀ s, schedule_id s ≠ "" → scheduler_inv (update cron_valid s st).2) ∧
  (∀ s, is_Some (_schedules st !! schedule_id s) →
        _cronJobs st !! schedule_id s = None →
        scheduler_inv (_enable cron_valid s st).2) ∧
  (∀ x, scheduler_inv (_disable x st).2) ∧
  scheduler_inv (disableAll st).2 ∧
  handle_iff_enabled st ∧
  (∀ k, length (running_timers_of k st) ≤ 1)%nat.
Proof.
  intros Hinv.
  split; [intros s Hne; by apply add_inv|].
  split; [intros i; by apply remove_inv|].
  split; [intros s Hne; by apply update_inv|].
  split; [intros s Hs Hc; by apply _enable_inv|].
  split; [intros x; by apply _disable_inv|].
  split; [by apply disableAll_inv|].
  split; [apply Hinv|].
  intros k. by apply running_timers_at_most_one.
Qed.

Lemma scheduler_methods_preserve_inv_witness :
  scheduler_inv st_s2 ∧
  scheduler_inv (add always_valid s1 st_s2).2 ∧
  scheduler_inv (remove (Id "s2") st_s2).2 ∧
  scheduler_inv (update always_valid s2 st_s2).2 ∧
  scheduler_inv (_enable always_valid s2 st_s2).2 ∧
  scheduler_inv (_disable (Id "s2") st_s2).2 ∧
  scheduler_inv (disableAll st_s2).2.
Proof.
  assert (Hne1 : schedule_id s1 ≠ "") by (vm_compute; discriminate).
  assert (Hne2 : schedule_id s2 ≠ "") by (vm_compute; discriminate).
  assert (Hinv : scheduler_inv st_s2) by exact (add_inv always_valid s2 _ inv_empty Hne2).
  assert (Hs : is_Some (_schedules st_s2 !! schedule_id s2)) by (vm_compute; eauto).
  assert (Hc : _cronJobs st_s2 !! schedule_id s2 = None) by (vm_compute; reflexivity).
  pose proof (scheduler_methods_preserve_inv always_valid st_s2 Hinv)
    as (Ha & Hr & Hu & He & Hd & Hall & _).
  split; [exact Hinv|].
  split; [exact (Ha s1 Hne1)|].
  split; [exact (Hr "s2")|].
  split; [exact (Hu s2 Hne2)|].
  split; [exact (He s2 Hs Hc)|].
  split; [exact (Hd (Id "s2")) | exact Hall].
Defined.

(** C7.  When the key [add] files a schedule under is already in
    [_schedules], [add] throws [ScheduleOverride] and the Scheduler is left
    as it was: schedules, table, references and timers. *)
Theorem add_existing_fails (cron_valid : string → bool) (s : Schedule)
    (r : scheduleOrId) (st : Scheduler) :
  _resolveId (Sched s) = Normal r →
  is_Some (_schedules st !! toKey r) →
  add cron_valid s st = (Throw (ScheduleOverride (toKey r)), st).
Proof.
  intros Hr Hs. unfold add. run_M. rewrite Hr. simpl.
  by rewrite (has_property_own _ _ Hs).
Qed.

Lemma add_existing_fails_witness :
  _resolveId (Sched s1_new) = Normal (Id "s1") ∧
  is_Some (_schedules st_s1 !! "s1") ∧
  add always_valid s1_new st_s1 = (Throw (ScheduleOverride "s1"), st_s1).
Proof.
  assert (Hr : _resolveId (Sched s1_new) = Normal (Id "s1")) by reflexivity.
  assert (Hs : is_Some (_schedules st_s1 !! toKey (Id "s1"))) by (vm_compute; eauto).
  split; [exact Hr|]. split; [exact Hs|].
  exact (add_existing_fails always_valid s1_new (Id "s1") st_s1 Hr Hs).
Defined.

(** C8 (the code departs from the claim).  [_disable] on an id or a schedule
    that resolves to the key [k]: [NoSuchSchedule] when [k in this._schedules]
    is false; [ScheduleNotEnabled] when what the table gives for [k] is
    falsy; when the entry is [true], the timer behind the stored reference is
    stopped, the reference deleted and the entry set to [false] (the
    reference is there because an entry marked enabled always has one,
    [enabled_has_handle], which every method keeps).  For a name of
    [Object.prototype] that is in none of the tables, where the claim has
    [NoSuchSchedule], both tests pass on the inherited property and the call
    of [stop] throws a [TypeError]. *)
Theorem _disable_spec (x r : scheduleOrId) (st : Scheduler) :
  _resolveId x = Normal r →
  enabled_has_handle st →
  (_schedules st !! toKey r = None → toKey r ∉ Object_prototype →
     _disable x st = (Throw (NoSuchSchedule (toKey r)), st)) ∧
  (is_Some (_schedules st !! toKey r) →
   truthy_enabled (read_property (_scheduleTable st) (toKey r)) = false →
     _disable x st = (Throw (ScheduleNotEnabled (toKey r)), st)) ∧
  (is_Some (_schedules st !! toKey r) →
   _scheduleTable st !! toKey r = Some true →
     ∃ h, _cronJobs st !! toKey r = Some h ∧
          _disable x st = (Normal tt, disabled_state (toKey r) h st) ∧
          cj_running <$> timers (disabled_state (toKey r) h st) !! h
            = (fun _ => false) <$> timers st !! h ∧
          _cronJobs (disabled_state (toKey r) h st) !! toKey r = None ∧
          _scheduleTable (disabled_state (toKey r) h st) !! toKey r = Some false) ∧
  (toKey r ∈ Object_prototype →
   _scheduleTable st !! toKey r = None → _cronJobs st !! toKey r = None →
     _disable x st = (Throw TypeError, st) ∧ is_SchedulerError TypeError = false).
Proof.
  intros Hr Hehh. split; [|split; [|split]].
  - intros Hs Hk. apply (_disable_absent x r); [done|]. by apply has_property_false.
  - intros Hs Ht. apply (_disable_not_enabled x r);
      [done | by apply has_property_own | done].
  - intros Hs Ht. destruct (Hehh _ Ht) as [h Hc]. exists h.
    split; [done|].
    split; [apply (_disable_enabled x r);
              [done | by apply has_property_own
              | by rewrite (truthy_enabled_own _ _ _ Ht) | done]|].
    simpl. rewrite list_lookup_alter_eq, lookup_delete_eq, lookup_insert_eq.
    split; [|done]. by destruct (timers st !! h).
  - intros Hk Ht Hc. split; [|done].
    apply (_disable_no_handle x r); [done | | | done].
    + apply has_property_true. by right.
    + by rewrite (read_property_inherited _ _ Ht Hk).
Qed.

Lemma _disable_spec_witness :
  _disable (Id "s1") empty_scheduler = (Throw (NoSuchSchedule "s1"), empty_scheduler) ∧
  _disable (Id "s2") st_s2 = (Throw (ScheduleNotEnabled "s2"), st_s2) ∧
  (∃ h, _cronJobs st_s1 !! "s1" = Some h ∧
        _disable (Id "s1") st_s1 = (Normal tt, disabled_state "s1" h st_s1) ∧
        cj_running <$> timers (disabled_state "s1" h st_s1) !! h
          = (fun _ => false) <$> timers st_s1 !! h ∧
        _cronJobs (disabled_state "s1" h st_s1) !! "s1" = None ∧
        _scheduleTable (disabled_state "s1" h st_s1) !! "s1" = Some false) ∧
  _disable (Id "toString") empty_scheduler = (Throw TypeError, empty_scheduler) ∧
  _disable (Id "toString") st_s1 = (Throw TypeError, st_s1).
Proof.
  assert (Hr1 : _resolveId (Id "s1") = Normal (Id "s1")) by reflexivity.
  assert (Hr2 : _resolveId (Id "s2") = Normal (Id "s2")) by reflexivity.
  assert (Hr3 : _resolveId (Id "toString") = Normal (Id "toString")) by reflexivity.
  assert (He1 : enabled_has_handle st_s1) by exact (ehh_add always_valid s1 _ ehh_empty).
  assert (He2 : enabled_has_handle st_s2) by exact (ehh_add always_valid s2 _ ehh_empty).
  assert (Habs : _schedules empty_scheduler !! toKey (Id "s1") = None)
    by (vm_compute; reflexivity).
  assert (Hplain : toKey (Id "s1") ∉ Object_prototype).
  { intros Hin. apply (bool_decide_pack _) in Hin. vm_compute in Hin. exact Hin. }
  assert (Hs2 : is_Some (_schedules st_s2 !! toKey (Id "s2"))) by (vm_compute; eauto).
  assert (Ht2 : truthy_enabled (read_property (_scheduleTable st_s2) (toKey (Id "s2")))
                = false) by (vm_compute; reflexivity).
  assert (Hs1 : is_Some (_schedules st_s1 !! toKey (Id "s1"))) by (vm_compute; eauto).
  assert (Ht1 : _scheduleTable st_s1 !! toKey (Id "s1") = Some true)
    by (vm_compute; reflexivity).
  assert (Hin : toKey (Id "toString") ∈ Object_prototype)
    by (apply (bool_decide_unpack _); by vm_compute).
  split; [exact (proj1 (_disable_spec (Id "s1") (Id "s1") empty_scheduler Hr1 ehh_empty)
                   Habs Hplain)|].
  split; [exact (proj1 (proj2 (_disable_spec (Id "s2") (Id "s2") st_s2 Hr2 He2)) Hs2 Ht2)|].
  split; [exact (proj1 (proj2 (proj2 (_disable_spec (Id "s1") (Id "s1") st_s1 Hr1 He1)))
                   Hs1 Ht1)|].
  split.
  - exact (proj1 (proj2 (proj2 (proj2
             (_disable_spec (Id "toString") (Id "toString") empty_scheduler Hr3 ehh_empty)))
             Hin eq_refl eq_refl)).
  - exact (proj1 (proj2 (proj2 (proj2
             (_disable_spec (Id "toString") (Id "toString") st_s1 Hr3 He1)))
             Hin eq_refl eq_refl)).
Defined.

(** C6 (the code departs from the claim), at two inputs.  A schedule whose
    id is the empty string is filed under the key its object converts to,
    while [_enable] marks the entry of its id: [update] of such a schedule,
    enabled, finds the entry of the key [false], skips [_disable] and installs
    a second timer, and the first one keeps handing the job of the old
    definition to the executor.  And [update] of a schedule whose id is a name
    of [Object.prototype] and that was never added passes [exists] and
    [isEnabled] on the inherited property and fails with a [TypeError] where
    the claim has [NoSuchSchedule]. *)
Theorem update_leaves_stale_timer :
  let st1 := (add always_valid s_noid empty_scheduler).2 in
  let st2 := (update always_valid s_noid_new st1).2 in
  add always_valid s_noid empty_scheduler = (Normal tt, st1) ∧
  running_timers_of "" st1 = [0] ∧
  update always_valid s_noid_new st1 = (Normal tt, st2) ∧
  timers st2 = [mkCronJob "* * * * *" "j1" "" true; mkCronJob "0 3 * * *" "j2" "" true] ∧
  running_timers_of "" st2 = [0; 1] ∧
  tick (fun id => Some ("job " ++ id)) 0 st2 = Some (Normal "job j1") ∧
  update always_valid s_toString empty_scheduler = (Throw TypeError, empty_scheduler) ∧
  is_SchedulerError TypeError = false.
Proof. by vm_compute. Qed.

(** X30.  [update] of a schedule whose id is neither empty nor a name of
    [Object.prototype]: [NoSuchSchedule] when the id is not in [_schedules];
    when the id is enabled, with reference [h], [update] is [_add] run on the
    state [_disable] leaves, the timer behind [h] is stopped, so that a tick
    of it hands no job to the executor, and it is not the reference of the id
    any more; and after [update] the invariant holds again, so at most one
    timer runs for the id. *)
Theorem update_spec (cron_valid : string → bool) (s : Schedule) (st : Scheduler) :
  schedule_id s ≠ "" →
  schedule_id s ∉ Object_prototype →
  (_schedules st !! schedule_id s = None →
     update cron_valid s st = (Throw (NoSuchSchedule (schedule_id s)), st)) ∧
  (scheduler_inv st → _scheduleTable st !! schedule_id s = Some true →
     ∃ h, _cronJobs st !! schedule_id s = Some h ∧
          update cron_valid s st
            = _add cron_valid s (disabled_state (schedule_id s) h st) ∧
          cj_running <$> timers (update cron_valid s st).2 !! h = Some false ∧
          (∀ getJob, tick getJob h (update cron_valid s st).2 = None) ∧
          _cronJobs (update cron_valid s st).2 !! schedule_id s ≠ Some h ∧
          h ∉ running_timers_of (schedule_id s) (update cron_valid s st).2) ∧
  (scheduler_inv st →
     scheduler_inv (update cron_valid s st).2 ∧
     (length (running_timers_of (schedule_id s) (update cron_valid s st).2) ≤ 1)%nat).
Proof.
  intros Hne Hplain. pose proof (_resolveId_Sched s Hne) as Hr.
  split; [|split].
  - intros Hs. rewrite (update_absent cron_valid s _ st Hr); [done|].
    by apply has_property_false.
  - intros Hinv Ht.
    destruct (proj2 (inv_handle _ Hinv (schedule_id s)) Ht) as [h Hc].
    pose proof (has_property_own _ _ (inv_known _ Hinv _ Ht)) as Hs.
    destruct (inv_running _ Hinv _ _ Hc) as (c & Htc & Hrun & Hsid).
    pose proof (update_enabled cron_valid s _ h st Hr Hs
                  (truthy_enabled_own _ _ _ Ht) Hc) as Hupd.
    simpl in Hupd.
    assert (Hnot : _cronJobs (update cron_valid s st).2 !! schedule_id s ≠ Some h).
    { rewrite Hupd.
      destruct (_add_handle cron_valid s (disabled_state (schedule_id s) h st))
        as [-> | ->]; simpl.
      - by rewrite lookup_delete_eq.
      - rewrite length_alter. apply lookup_lt_Some in Htc. intros [= ?]. lia. }
    assert (Hstopped : timers (update cron_valid s st).2 !! h
                       = Some (cj_set_running false c)).
    { rewrite Hupd. apply _add_timers. simpl.
      by rewrite list_lookup_alter_eq, Htc. }
    exists h. split; [done|]. split; [done|].
    split; [by rewrite Hstopped|].
    split; [intros getJob; unfold tick; by rewrite Hstopped|].
    split; [done|].
    rewrite running_timers_of_spec; [done|]. by apply update_inv.
  - intros Hinv. pose proof (update_inv cron_valid s st Hinv Hne) as Hpost.
    split; [done|]. by apply running_timers_at_most_one.
Qed.

Lemma update_spec_witness :
  update always_valid s1_new empty_scheduler
    = (Throw (NoSuchSchedule "s1"), empty_scheduler) ∧
  (∃ h, _cronJobs st_s1 !! "s1" = Some h ∧
        update always_valid s1_new st_s1
          = _add always_valid s1_new (disabled_state "s1" h st_s1) ∧
        cj_running <$> timers (update always_valid s1_new st_s1).2 !! h = Some false ∧
        (∀ getJob, tick getJob h (update always_valid s1_new st_s1).2 = None) ∧
        _cronJobs (update always_valid s1_new st_s1).2 !! "s1" ≠ Some h ∧
        h ∉ running_timers_of "s1" (update always_valid s1_new st_s1).2) ∧
  scheduler_inv (update always_valid s1_new st_s1).2 ∧
  (length (running_timers_of "s1" (update always_valid s1_new st_s1).2) ≤ 1)%nat.
Proof.
  assert (Hne : schedule_id s1_new ≠ "") by (vm_compute; discriminate).
  assert (Hplain : schedule_id s1_new ∉ Object_prototype).
  { intros Hin. apply (bool_decide_pack _) in Hin. vm_compute in Hin. exact Hin. }
  assert (Hne1 : schedule_id s1 ≠ "") by (vm_compute; discriminate).
  assert (Hinv : scheduler_inv st_s1) by exact (add_inv always_valid s1 _ inv_empty Hne1).
  assert (Habs : _schedules empty_scheduler !! schedule_id s1_new = None)
    by (vm_compute; reflexivity).
  assert (Ht : _scheduleTable st_s1 !! schedule_id s1_new = Some true)
    by (vm_compute; reflexivity).
  split; [exact (proj1 (update_spec always_valid s1_new empty_scheduler Hne Hplain) Habs)|].
  split; [exact (proj1 (proj2 (update_spec always_valid s1_new st_s1 Hne Hplain)) Hinv Ht)|].
  exact (proj2 (proj2 (update_spec always_valid s1_new st_s1 Hne Hplain)) Hinv).
Defined.

Example add_disabled_schedule :
  _scheduleTable st_s2 !! "s2" = Some false ∧
  _cronJobs st_s2 !! "s2" = None ∧
  timers st_s2 = [].
Proof. by vm_compute. Qed.

Example update_replaces_timer :
  timers (update always_valid s1_new st_s1).2 =
    [mkCronJob "* * * * *" "j1" "s1" false; mkCronJob "0 3 * * *" "j2" "s1" true] ∧
  _cronJobs (update always_valid s1_new st_s1).2 !! "s1" = Some 1 ∧
  running_timers_of "s1" (update always_valid s1_new st_s1).2 = [1] ∧
  tick (fun id => Some ("job " ++ id)) 0 (update always_valid s1_new st_s1).2 = None ∧
  tick (fun id => Some ("job " ++ id)) 1 (update always_valid s1_new st_s1).2
    = Some (Normal "job j2").
Proof. by vm_compute. Qed.

(* ===================================================================== *)
(** ** Dispatcher: the claims *)
(* ===================================================================== *)

(** C3.  [checkPermission]: no declared permission, the check passes; a
    declared but empty one ([null] or the empty string), it passes iff a user
    is attached; any other, it passes iff a user is attached and
    [user.hasPermission] grants it; and when it does not pass it throws
    [Unauthorized]. *)
Theorem checkPermission_spec (this : Context) (method : Method) :
  (m_permission method = PermUndefined → checkPermission this method = Normal tt) ∧
  (m_permission method ≠ PermUndefined → perm_falsy (m_permission method) = true →
     (checkPermission this method = Normal tt ↔ is_Some (ctx_user this))) ∧
  (∀ p, m_permission method = PermString p → p ≠ "" →
     (checkPermission this method = Normal tt ↔
        ∃ user, ctx_user this = Some user ∧ User_hasPermission user p = true)) ∧
  (checkPermission this method ≠ Normal tt →
     checkPermission this method = Throw Unauthorized).
Proof.
  unfold checkPermission.
  split; [by intros ->|]. split; [|split].
  - intros Hdef Hfalsy. destruct (m_permission method) as [| |p]; [done| |].
    + destruct (ctx_user this); simpl; split; try done; by intros [? ?].
    + destruct (ctx_user this); rewrite ?Hfalsy; split; try done; by intros [? ?].
  - intros p -> Hp. unfold perm_falsy. rewrite bool_decide_eq_false_2 by done.
    destruct (ctx_user this) as [user|].
    + destruct (User_hasPermission user p) eqn:E; simpl; split; try done.
      * intros _. by exists user.
      * intros (u & [= <-] & Hu). congruence.
    + split; [done | by intros (u & ? & _)].
  - destruct (m_permission method) as [| |p]; [done| |].
    + by destruct (ctx_user this).
    + destruct (ctx_user this) as [user|]; [|done].
      destruct (perm_falsy (PermString p)); [done|].
      by destruct (User_hasPermission user p).
Qed.

Lemma checkPermission_spec_witness :
  checkPermission (sample_context deny_all) migrate = Normal tt ∧
  (checkPermission (with_user bob (sample_context deny_all)) whoami = Normal tt ↔
     is_Some (ctx_user (with_user bob (sample_context deny_all)))) ∧
  (checkPermission (with_user bob (sample_context deny_all)) user_create = Normal tt ↔
     ∃ user, ctx_user (with_user bob (sample_context deny_all)) = Some user ∧
             User_hasPermission user "admin" = true) ∧
  checkPermission (with_user bob (sample_context deny_all)) user_create
    = Throw Unauthorized.
Proof.
  pose proof (checkPermission_spec (sample_context deny_all) migrate) as (H1 & _).
  pose proof (checkPermission_spec (with_user bob (sample_context deny_all)) whoami)
    as (_ & H2 & _).
  pose proof (checkPermission_spec (with_user bob (sample_context deny_all)) user_create)
    as (_ & _ & H3 & H4).
  split; [exact (H1 eq_refl)|].
  split; [apply H2; [discriminate | reflexivity]|].
  split; [apply (H3 "admin" eq_refl); discriminate|].
  apply H4. vm_compute. discriminate.
Defined.

(** What the resolution leaves, whatever the method declares. *)
Lemma resolveParams_outcome (fuel : nat) (this : Context) (method : Method)
    (params : Params) :
  let r := resolveParams fuel this method params in
  (Some Rejected ∈ rs_promises (rr_state r) →
     ∃ e, rr_outcome r = Some (Throw e) ∧
          (lookups_ok this (rr_state r) → e = Unauthorized)) ∧
  (∀ p, rr_outcome r = Some (Normal p) →
     Forall (fun q => q = Some Fulfilled) (rs_promises (rr_state r))).
Proof.
  unfold resolveParams.
  destruct (m_resolve method) as [resolve|]; simpl.
  2:{ split; [by intros ?%elem_of_nil | by intros]. }
  destruct (ctx_user this) as [user|]; simpl.
  2:{ split; [by intros ?%elem_of_nil | by intros]. }
  destruct (resolve_loop _ _ _ _ _ _) as [st thrown] eqn:Hloop.
  destruct thrown as [err|]; simpl.
  - split; [|done]. intros _. exists err. split; [done|].
    intros Hok. by pose proof (resolve_loop_lookups_ok _ _ _ _ _ _ _ _ Hloop Hok).
  - split.
    + intros Hin. apply Bluebird_all_rejected in Hin. rewrite Hin.
      by exists Unauthorized.
    + intros p. destruct (Bluebird_all (rs_promises st)) as [[]|] eqn:Hall; [|done..].
      intros _. by apply Bluebird_all_fulfilled.
Qed.

(** C4, as stated, fails: bob calls [vm.migrate] with the id of a VM he has
    no permission on and a target that does not exist.  The check of the
    first entry is rejected, and the call fails with the [NoSuchObject] of the
    second entry's lookup, not with [Unauthorized]. *)
Lemma failed_check_without_Unauthorized :
  let params : Params := <["id" := VString "vm1"]> (<["target" := VString "nowhere"]> ∅) in
  let r := call 5 (sample_api deny_all) (Some "bob") "vm.migrate" params in
  (∃ st, cr_resolution r = Some st ∧ Some Rejected ∈ rs_promises st) ∧
  cr_outcome r = Some (Throw NoSuchObject) ∧
  cr_outcome r ≠ Some (Throw Unauthorized).
Proof.
  vm_compute. split; [|split; [reflexivity | discriminate]].
  eexists. split; [reflexivity|]. apply list_elem_of_here.
Qed.

(** The checks of the loop: those it starts are added behind those it
    found, an admin caller starts none, the check of an entry the loop
    resolves is among them, and each of them is the check of such an
    entry. *)
Lemma resolve_loop_promises_prefix (fuel : nat) (this : Context) (userId : string)
    (isAdmin : bool) (l : list (string * ResolveEntry)) (st : ResolveState) :
  ∃ extra, rs_promises (resolve_loop fuel this userId isAdmin l st).1
           = (rs_promises st ++ extra)%list.
Proof.
  revert st. induction l as [|[key e] l IH]; intros st; simpl.
  { exists []. by rewrite app_nil_r. }
  destruct (rs_params st !! re_param e) as [id|]; [|apply IH].
  destruct (ctx_getObject this (Some id) (Some (re_types e))) as [object|err].
  - destruct (IH (mkResolveState
                    (<[key := VObject object]> (delete (re_param e) (rs_params st)))
                    (if negb isAdmin
                     then (rs_promises st ++
                             [checkAuthorization fuel this userId object
                                (entry_permission e)])%list
                     else rs_promises st)
                    (rs_lookups st ++ [(id, re_types e)])%list)) as [extra ->].
    simpl. destruct isAdmin; simpl.
    + by exists extra.
    + eexists. by rewrite <- app_assoc.
  - exists []. simpl. by rewrite app_nil_r.
Qed.

Lemma resolve_loop_entry_check (fuel : nat) (this : Context) (userId : string)
    (before after : list (string * ResolveEntry)) (key : string) (e : ResolveEntry)
    (st0 st1 : ResolveState) (id : Value) (object : XoObject) :
  resolve_loop fuel this userId false before st0 = (st1, None) →
  rs_params st1 !! re_param e = Some id →
  ctx_getObject this (Some id) (Some (re_types e)) = Normal object →
  checkAuthorization fuel this userId object (entry_permission e)
    ∈ rs_promises (resolve_loop fuel this userId false
                     (before ++ (key, e) :: after) st0).1.
Proof.
  intros Hb Hp Hg. rewrite resolve_loop_app, Hb. simpl. rewrite Hp, Hg. simpl.
  destruct (resolve_loop_promises_prefix fuel this userId false after
              (mkResolveState
                 (<[key := VObject object]> (delete (re_param e) (rs_params st1)))
                 (rs_promises st1 ++
                    [checkAuthorization fuel this userId object (entry_permission e)])
                 (rs_lookups st1 ++ [(id, re_types e)]))) as [extra ->].
  simpl. set_solver.
Qed.

Lemma resolve_loop_promises_origin (fuel : nat) (this : Context) (userId : string)
    (isAdmin : bool) (l : list (string * ResolveEntry)) :
  ∀ (st : ResolveState) q,
  q ∈ rs_promises (resolve_loop fuel this userId isAdmin l st).1 →
  q ∈ rs_promises st ∨
  (isAdmin = false ∧
   ∃ before key e after object st1 id,
     l = (before ++ (key, e) :: after)%list ∧
     resolve_loop fuel this userId isAdmin before st = (st1, None) ∧
     rs_params st1 !! re_param e = Some id ∧
     ctx_getObject this (Some id) (Some (re_types e)) = Normal object ∧
     q = checkAuthorization fuel this userId object (entry_permission e)).
Proof.
  induction l as [|[key e] l IH]; intros st q; simpl; [by left|].
  destruct (rs_params st !! re_param e) as [id|] eqn:Hp.
  2:{ intros Hq. destruct (IH st q Hq)
        as [?|(Ha & before & k' & e' & after & object & st1 & id & -> & Hb & Hp' & Hg & ->)];
        [by left|].
      right. split; [done|].
      exists ((key, e) :: before), k', e', after, object, st1, id.
      split; [done|]. split; [|done]. simpl. by rewrite Hp. }
  destruct (ctx_getObject this (Some id) (Some (re_types e))) as [object|err] eqn:Hg.
  2:{ simpl. by left. }
  intros Hq. apply IH in Hq. simpl in Hq.
  destruct Hq as [Hq|(Ha & before & k' & e' & after & object' & st1 & id' & -> & Hb & Hp'
                      & Hg' & ->)].
  - destruct isAdmin; simpl in Hq; [by left|].
    apply elem_of_app in Hq as [Hq|Hq]; [by left|].
    apply list_elem_of_singleton in Hq as ->. right. split; [done|].
    exists [], key, e, l, object, st, id. by repeat split.
  - right. split; [done|].
    exists ((key, e) :: before), k', e', after, object', st1, id'.
    split; [done|]. split; [|done]. simpl. by rewrite Hp, Hg.
Qed.

(** A loop that ends without an exception has had every lookup answered. *)
Lemma resolve_loop_completed (fuel : nat) (this : Context) (userId : string)
    (isAdmin : bool) (l : list (string * ResolveEntry)) :
  ∀ (st st' : ResolveState),
  resolve_loop fuel this userId isAdmin l st = (st', None) →
  lookups_ok this st → lookups_ok this st'.
Proof.
  induction l as [|[key e] l IH]; intros st st'; simpl.
  { by intros [= <-]. }
  destruct (rs_params st !! re_param e) as [id|]; [|apply IH].
  destruct (ctx_getObject this (Some id) (Some (re_types e))) as [object|err] eqn:Hg;
    [|done].
  intros Hl Hok. apply (IH _ _ Hl). unfold lookups_ok in *. simpl.
  apply Forall_app. split; [done|]. repeat constructor. simpl. by rewrite Hg.
Qed.

(** C4, amended.  In a call that reaches the resolution, made by a user who
    is not admin: when the check started for any entry (an entry the loop
    reaches with its parameter present and whose object is found) is
    rejected, the call fails and the method body is not invoked; it fails
    with [Unauthorized] when every lookup of the resolution returned an
    object, and otherwise with the exception of the lookup that failed.  The
    body is invoked only when the check of every such entry is fulfilled.
    And every check that is started is the check of such an entry, for a
    caller who is not admin: none is started for an admin caller or for an
    entry whose parameter is absent. *)
Theorem rejected_check_fails_call (fuel : nat) (this : Context) (method : Method)
    (params : Params) (resolve : list (string * ResolveEntry)) (user : User) :
  checkPermission this method = Normal tt →
  checkParams method params = Normal tt →
  m_resolve method = Some resolve →
  ctx_user this = Some user →
  let r := call_in_context fuel this method params in
  let st := rr_state (resolveParams fuel this method params) in
  let isAdmin := User_hasPermission user "admin" in
  cr_resolution r = Some st ∧
  (∀ before key e after object,
     isAdmin = false →
     resolve = (before ++ (key, e) :: after)%list →
     entry_resolves fuel this (user_id user) isAdmin before e params object →
     checkAuthorization fuel this (user_id user) object (entry_permission e)
       = Some Rejected →
     cr_invoked r = None ∧
     ∃ err, cr_outcome r = Some (Throw err) ∧
            (lookups_ok this st → err = Unauthorized) ∧
            (¬ lookups_ok this st →
               ∃ id types, (id, types) ∈ rs_lookups st ∧
                           ctx_getObject this (Some id) (Some types) = Throw err)) ∧
  (is_Some (cr_invoked r) →
   ∀ before key e after object,
     isAdmin = false →
     resolve = (before ++ (key, e) :: after)%list →
     entry_resolves fuel this (user_id user) isAdmin before e params object →
     checkAuthorization fuel this (user_id user) object (entry_permission e)
       = Some Fulfilled) ∧
  (∀ q, q ∈ rs_promises st →
     isAdmin = false ∧
     ∃ before key e after object,
       resolve = (before ++ (key, e) :: after)%list ∧
       entry_resolves fuel this (user_id user) isAdmin before e params object ∧
       q = checkAuthorization fuel this (user_id user) object (entry_permission e)).
Proof.
  intros Hperm Hparams Hres Hu r st isAdmin. subst r st.
  unfold call_in_context. rewrite Hperm, Hparams. cbv zeta.
  unfold resolveParams. rewrite Hres, Hu. fold isAdmin.
  destruct (resolve_loop fuel this (user_id user) isAdmin resolve
              (mkResolveState params [] [])) as [st thrown] eqn:Hloop.
  assert (Hentry : ∀ before key e after object,
            isAdmin = false →
            resolve = (before ++ (key, e) :: after)%list →
            entry_resolves fuel this (user_id user) isAdmin before e params object →
            checkAuthorization fuel this (user_id user) object (entry_permission e)
              ∈ rs_promises st).
  { intros before key e after object Ha -> (st1 & id & Hb & Hp & Hg).
    rewrite Ha in Hb, Hloop.
    pose proof (resolve_loop_entry_check fuel this (user_id user) before after key e
                  _ st1 id object Hb Hp Hg) as Hin.
    by rewrite Hloop in Hin. }
  assert (Horigin : ∀ q, q ∈ rs_promises st →
            isAdmin = false ∧
            ∃ before key e after object,
              resolve = (before ++ (key, e) :: after)%list ∧
              entry_resolves fuel this (user_id user) isAdmin before e params object ∧
              q = checkAuthorization fuel this (user_id user) object (entry_permission e)).
  { intros q Hq.
    pose proof (resolve_loop_promises_origin fuel this (user_id user) isAdmin resolve
                  (mkResolveState params [] []) q) as Ho.
    rewrite Hloop in Ho.
    destruct (Ho Hq) as [Hnil|(Ha & before & key & e & after & object & st1 & id & -> & Hb
                               & Hp & Hg & ->)]; [by apply elem_of_nil in Hnil|].
    split; [done|]. exists before, key, e, after, object. split; [done|].
    split; [|done]. by exists st1, id. }
  destruct thrown as [err|]; cbn [rr_outcome rr_state].
  - split; [done|]. split; [|split; [by intros [? ?] | exact Horigin]].
    intros before key e after object Ha Hr He Hrej. split; [done|].
    exists err. split; [done|]. split.
    + intros Hok. by pose proof (resolve_loop_lookups_ok _ _ _ _ _ _ _ _ Hloop Hok).
    + intros _. by apply (resolve_loop_thrown _ _ _ _ _ _ _ _ Hloop).
  - assert (Hok : lookups_ok this st).
    { apply (resolve_loop_completed _ _ _ _ _ _ _ Hloop). by constructor. }
    destruct (Bluebird_all (rs_promises st)) as [[]|] eqn:Hall;
      cbn [cr_resolution cr_invoked cr_outcome].
    + apply Bluebird_all_fulfilled in Hall. rewrite Forall_forall in Hall.
      split; [done|]. split; [|split; [|exact Horigin]].
      * intros before key e after object Ha Hr He Hrej.
        pose proof (Hall _ (Hentry _ _ _ _ _ Ha Hr He)) as Hf. congruence.
      * intros _ before key e after object Ha Hr He.
        exact (Hall _ (Hentry _ _ _ _ _ Ha Hr He)).
    + split; [done|]. split; [|split; [by intros [? ?] | exact Horigin]].
      intros _ _ _ _ _ _ _ _ _. split; [done|]. exists Unauthorized.
      split; [done|]. split; [done|]. by intros Hnot.
    + split; [done|]. split; [|split; [by intros [? ?] | exact Horigin]].
      intros before key e after object Ha Hr He Hrej. exfalso.
      pose proof (Hentry _ _ _ _ _ Ha Hr He) as Hin. rewrite Hrej in Hin.
      apply Bluebird_all_rejected in Hin. congruence.
Qed.

Lemma rejected_check_fails_call_witness :
  let params : Params := {["id" := VString "vif2"]} in
  let this := with_user bob (sample_context deny_all) in
  cr_invoked (call_in_context 5 this vif_connect params) = None ∧
  cr_outcome (call_in_context 5 this vif_connect params) = Some (Throw Unauthorized).
Proof.
  intros params this.
  assert (Hrej : checkAuthorization 5 this (user_id bob) vif2
                   (entry_permission (mkEntry "id" (OneType "VIF") (Some "operate")))
                 = Some Rejected) by (vm_compute; reflexivity).
  assert (He : entry_resolves 5 this (user_id bob) (User_hasPermission bob "admin") []
                 (mkEntry "id" (OneType "VIF") (Some "operate")) params vif2).
  { exists (mkResolveState params [] []), (VString "vif2").
    split; [reflexivity|]. split; vm_compute; reflexivity. }
  destruct (rejected_check_fails_call 5 this vif_connect params
              [("vif", mkEntry "id" (OneType "VIF") (Some "operate"))] bob
              eq_refl eq_refl eq_refl eq_refl) as (_ & H & _).
  destruct (H [] "vif" (mkEntry "id" (OneType "VIF") (Some "operate")) [] vif2
              eq_refl eq_refl He Hrej) as (Hinv & err & Hout & Hun & _).
  split; [exact Hinv|]. rewrite Hout. f_equal. f_equal. apply Hun.
  vm_compute. repeat constructor.
Defined.

(** C5, as stated, fails: the [$network] of [vif_lost] resolves to nothing
    and its [$VM] to [vm1]; with a permission store that allows everything
    the check of [vm1] succeeds, and the check of the VIF is rejected. *)
Lemma VIF_refused_though_VM_authorized :
  let this := disk_context allow_all in
  obj_type vif_lost = "VIF" ∧
  ctx_getObject this (prop vif_lost "$network") None = Throw NoSuchObject ∧
  ctx_getObject this (prop vif_lost "$VM") None = Normal vm1 ∧
  authorization_succeeds this "bob" vm1 "operate" ∧
  authorization_fails this "bob" vif_lost "operate" ∧
  ¬ authorization_succeeds this "bob" vif_lost "operate".
Proof.
  intros this.
  assert (Hfail : authorization_fails this "bob" vif_lost "operate")
    by (exists 1; vm_compute; reflexivity).
  split; [reflexivity|]. split; [vm_compute; reflexivity|].
  split; [vm_compute; reflexivity|].
  split; [exists 1; vm_compute; reflexivity|]. split; [exact Hfail|].
  intros Hok. by apply (authorization_succeeds_not_fails _ _ _ _ Hok).
Qed.

(** C5, amended.  For a [VIF] whose [$network] and [$VM] resolve to objects,
    the check succeeds iff it succeeds for the network or for the VM, and it
    fails iff it fails for both; a [VIF] one of whose two references does not
    resolve is refused. *)
Theorem VIF_authorized_iff (this : Context) (userId : string)
    (vif : XoObject) (permission : string) :
  obj_type vif = "VIF" →
  (∀ network vm,
     ctx_getObject this (prop vif "$network") None = Normal network →
     ctx_getObject this (prop vif "$VM") None = Normal vm →
     (authorization_succeeds this userId vif permission ↔
        authorization_succeeds this userId network permission ∨
        authorization_succeeds this userId vm permission) ∧
     (authorization_fails this userId vif permission ↔
        authorization_fails this userId network permission ∧
        authorization_fails this userId vm permission)) ∧
  (is_Normal (ctx_getObject this (prop vif "$network") None) = false ∨
   is_Normal (ctx_getObject this (prop vif "$VM") None) = false →
     authorization_fails this userId vif permission ∧
     ¬ authorization_succeeds this userId vif permission).
Proof.
  intros Ht. split.
  - intros network vm Hn Hv. split.
    + split.
      * intros [[|n] Hok]; [done|].
        rewrite (checkAuthorization_VIF n _ _ _ _ _ _ Ht Hn Hv) in Hok.
        apply Bluebird_any_fulfilled in Hok.
        apply elem_of_cons in Hok as [Hok|Hok]; [left; by exists n|].
        apply elem_of_cons in Hok as [Hok|Hok]; [right; by exists n|].
        by apply elem_of_nil in Hok.
      * intros [[n Hok]|[n Hok]]; exists (S n);
          rewrite (checkAuthorization_VIF n _ _ _ _ _ _ Ht Hn Hv);
          apply Bluebird_any_fulfilled; rewrite Hok; set_solver.
    + split.
      * intros [[|n] Hrej]; [done|].
        rewrite (checkAuthorization_VIF n _ _ _ _ _ _ Ht Hn Hv) in Hrej.
        apply Bluebird_any_rejected in Hrej.
        inversion Hrej as [|?? H1 Hrej']; inversion Hrej' as [|?? H2 _].
        split; by exists n.
      * intros [[n1 H1] [n2 H2]]. exists (S (n1 `max` n2)).
        rewrite (checkAuthorization_VIF _ _ _ _ _ _ _ Ht Hn Hv).
        apply (checkAuthorization_mono n1 (n1 `max` n2)) in H1; [|lia].
        apply (checkAuthorization_mono n2 (n1 `max` n2)) in H2; [|lia].
        rewrite H1, H2. by apply Bluebird_any_rejected; repeat constructor.
  - intros Hlost.
    assert (Hfail : authorization_fails this userId vif permission).
    { exists 1. rewrite checkAuthorization_VIF_step by done. unfold VIF.
      destruct (ctx_getObject this (prop vif "$network") None) as [network|e];
        [|done].
      destruct (ctx_getObject this (prop vif "$VM") None) as [vm|e]; [|done].
      by destruct Hlost. }
    split; [done|]. intros Hok.
    by apply (authorization_succeeds_not_fails _ _ _ _ Hok).
Qed.

Lemma VIF_authorized_iff_witness :
  let this := sample_context bob_on_vm1 in
  checkAuthorization 1 this "bob" sr1 "operate" = Some Rejected ∧
  authorization_succeeds this "bob" vm1 "operate" ∧
  authorization_succeeds this "bob" vif2 "operate" ∧
  authorization_fails (disk_context allow_all) "bob" vif_lost "operate".
Proof.
  intros this.
  assert (Ht : obj_type vif2 = "VIF") by reflexivity.
  assert (Hn : ctx_getObject this (prop vif2 "$network") None = Normal sr1)
    by (vm_compute; reflexivity).
  assert (Hv : ctx_getObject this (prop vif2 "$VM") None = Normal vm1)
    by (vm_compute; reflexivity).
  assert (Hvm : authorization_succeeds this "bob" vm1 "operate")
    by (exists 1; vm_compute; reflexivity).
  split; [vm_compute; reflexivity|]. split; [exact Hvm|]. split.
  - exact (proj2 (proj1 (proj1 (VIF_authorized_iff this "bob" vif2 "operate" Ht)
                           sr1 vm1 Hn Hv)) (or_intror Hvm)).
  - apply (VIF_authorized_iff (disk_context allow_all) "bob" vif_lost "operate" eq_refl).
    left. vm_compute. reflexivity.
Defined.

(** C9.  A method that declares [resolve], called with no user attached:
    [resolveParams] throws [Unauthorized] with [params] untouched, no lookup
    made and no check started; and when the method declares no permission and
    the parameters are valid, that is how the call fails, the body not
    invoked. *)
Theorem resolveParams_requires_user (fuel : nat) (this : Context)
    (method : Method) (params : Params) (resolve : list (string * ResolveEntry)) :
  m_resolve method = Some resolve →
  ctx_user this = None →
  resolveParams fuel this method params
    = mkResolveResult (Some (Throw Unauthorized)) (mkResolveState params [] []) ∧
  (m_permission method = PermUndefined →
   checkParams method params = Normal tt →
     call_in_context fuel this method params
       = mkCallResult (Some (Throw Unauthorized)) None
           (Some (mkResolveState params [] []))).
Proof.
  intros Hres Hu.
  assert (Hr : resolveParams fuel this method params
               = mkResolveResult (Some (Throw Unauthorized)) (mkResolveState params [] [])).
  { unfold resolveParams. by rewrite Hres, Hu. }
  split; [done|]. intros Hperm Hparams.
  unfold call_in_context, checkPermission. by rewrite Hperm, Hparams, Hr.
Qed.

Lemma resolveParams_requires_user_witness :
  let params : Params := {["id" := VString "vif1"]} in
  m_resolve vif_connect = Some [("vif", mkEntry "id" (OneType "VIF") (Some "operate"))] ∧
  ctx_user (sample_context deny_all) = None ∧
  resolveParams 5 (sample_context deny_all) vif_connect params
    = mkResolveResult (Some (Throw Unauthorized)) (mkResolveState params [] []) ∧
  call_in_context 5 (sample_context deny_all) vif_connect params
    = mkCallResult (Some (Throw Unauthorized)) None (Some (mkResolveState params [] [])).
Proof.
  intros params.
  pose proof (resolveParams_requires_user 5 (sample_context deny_all) vif_connect
                params _ eq_refl eq_refl) as [H1 H2].
  split; [reflexivity|]. split; [reflexivity|]. split; [exact H1|].
  exact (H2 eq_refl eq_refl).
Defined.



(* ===================================================================== *)
(** ** Scheduler: further properties *)
(* ===================================================================== *)

Lemma get_present (i : string) (s : Schedule) (st : Scheduler) :
  _schedules st !! i = Some s → get (Id i) st = (Normal (Own s), st).
Proof.
  intros Hs. unfold get. run_M.
  rewrite has_property_own by (by rewrite Hs). simpl.
  by rewrite (read_property_own _ _ _ Hs).
Qed.

Lemma get_absent (i : string) (st : Scheduler) :
  _schedules st !! i = None → i ∉ Object_prototype →
  get (Id i) st = (Throw (NoSuchSchedule i), st).
Proof.
  intros Hs Hi. unfold get. run_M.
  by rewrite (proj2 (has_property_false _ _) (conj Hs Hi)).
Qed.

Lemma get_inherited (i : string) (st : Scheduler) :
  _schedules st !! i = None → i ∈ Object_prototype →
  get (Id i) st = (Normal (Inherited i), st).
Proof.
  intros Hs Hi. unfold get. run_M.
  rewrite (proj2 (has_property_true _ _) (or_intror Hi)). simpl.
  by rewrite (read_property_inherited _ _ Hs Hi).
Qed.

Lemma isEnabled_Id (i : string) (st : Scheduler) :
  isEnabled (Id i) st = (Normal (read_property (_scheduleTable st) i), st).
Proof. reflexivity. Qed.

Lemma add_absent_eq (cron_valid : string → bool) (s : Schedule) (st : Scheduler) :
  schedule_id s ≠ "" → schedule_id s ∉ Object_prototype →
  _schedules st !! schedule_id s = None →
  add cron_valid s st = _add cron_valid s st.
Proof.
  intros Hne Hi Hs. unfold add. run_M. rewrite (_resolveId_Sched s Hne). simpl.
  by rewrite (proj2 (has_property_false _ _) (conj Hs Hi)).
Qed.

Lemma add_present (cron_valid : string → bool) (s : Schedule) (st : Scheduler) :
  schedule_id s ≠ "" → is_Some (_schedules st !! schedule_id s) →
  add cron_valid s st = (Throw (ScheduleOverride (schedule_id s)), st).
Proof.
  intros Hne Hs. unfold add. run_M. rewrite (_resolveId_Sched s Hne). simpl.
  by rewrite (has_property_own _ _ Hs).
Qed.

(** What [_add] leaves for a schedule it installs without an exception, and
    for one whose pattern is rejected. *)
Lemma _add_installable (cron_valid : string → bool) (s : Schedule) (st : Scheduler) :
  schedule_id s ≠ "" → installable cron_valid s →
  _add cron_valid s st =
    (Normal tt,
     if schedule_enabled s then enabled_state s (added_state (schedule_id s) s st)
     else added_state (schedule_id s) s st).
Proof.
  intros Hne Hok. rewrite (_add_eq _ _ _ _ (_resolveId_Sched s Hne)). simpl.
  destruct (schedule_enabled s) eqn:He; [|done].
  by rewrite _enable_valid by (by apply Hok).
Qed.

Lemma _add_rejected (cron_valid : string → bool) (s : Schedule) (st : Scheduler) :
  schedule_id s ≠ "" → schedule_enabled s = true →
  cron_valid (schedule_cron s) = false →
  _add cron_valid s st =
    (Throw (CronPatternError (schedule_cron s)), added_state (schedule_id s) s st).
Proof.
  intros Hne He Hv. rewrite (_add_eq _ _ _ _ (_resolveId_Sched s Hne)). simpl.
  rewrite He. by rewrite _enable_invalid.
Qed.

(** X1.  [add] of a schedule whose id is not empty, is no name of
    [Object.prototype] and is new (it is not in [_schedules] and no reference
    is stored for it), and which is disabled or has a pattern [CronJob]
    accepts: it returns normally, [get] gives the schedule back, [isEnabled]
    is its [enabled] flag, and a reference is stored exactly when it is
    enabled. *)
Theorem add_then_get (cron_valid : string → bool) (s : Schedule) (st : Scheduler) :
  schedule_id s ≠ "" →
  schedule_id s ∉ Object_prototype →
  _schedules st !! schedule_id s = None →
  _cronJobs st !! schedule_id s = None →
  installable cron_valid s →
  (add cron_valid s st).1 = Normal tt ∧
  (get (Id (schedule_id s)) (add cron_valid s st).2).1 = Normal (Own s) ∧
  (isEnabled (Id (schedule_id s)) (add cron_valid s st).2).1
    = Normal (Own (schedule_enabled s)) ∧
  (is_Some (_cronJobs (add cron_valid s st).2 !! schedule_id s) ↔
     schedule_enabled s = true).
Proof.
  intros Hne Hplain Hs Hc Hok. rewrite add_absent_eq, _add_installable by done.
  cbn [fst snd]. split; [done|]. destruct (schedule_enabled s) eqn:He.
  - rewrite (get_present _ s), isEnabled_Id by (simpl; by rewrite lookup_insert_eq).
    simpl. rewrite (read_property_own _ _ true) by (by rewrite lookup_insert_eq).
    rewrite lookup_insert_eq. split; [done|]. split; [done|].
    split; [done | by eexists].
  - rewrite (get_present _ s), isEnabled_Id by (simpl; by rewrite lookup_insert_eq).
    simpl. rewrite (read_property_own _ _ false) by (by rewrite lookup_insert_eq).
    rewrite Hc. split; [done|]. split; [done|].
    split; [by intros [? ?] | done].
Qed.

Lemma add_then_get_witness :
  (add always_valid s1 st_s2).1 = Normal tt ∧
  (get (Id "s1") (add always_valid s1 st_s2).2).1 = Normal (Own s1) ∧
  (isEnabled (Id "s1") (add always_valid s1 st_s2).2).1 = Normal (Own true) ∧
  (is_Some (_cronJobs (add always_valid s1 st_s2).2 !! "s1") ↔ true = true).
Proof.
  assert (Hne : schedule_id s1 ≠ "") by (vm_compute; discriminate).
  assert (Hplain : schedule_id s1 ∉ Object_prototype).
  { intros Hin. apply (bool_decide_pack _) in Hin. vm_compute in Hin. exact Hin. }
  assert (Hs : _schedules st_s2 !! schedule_id s1 = None) by (vm_compute; reflexivity).
  assert (Hc : _cronJobs st_s2 !! schedule_id s1 = None) by (vm_compute; reflexivity).
  assert (Hok : installable always_valid s1) by (intros _; reflexivity).
  exact (add_then_get always_valid s1 st_s2 Hne Hplain Hs Hc Hok).
Defined.

(** X2.  [add] of an enabled schedule whose id is not empty, is no name of
    [Object.prototype] and is not in [_schedules], and whose pattern
    [CronJob] rejects: the exception of the constructor reaches the caller,
    and the schedule stays registered, disabled, with no reference and no
    timer created; a second [add] of it fails with [ScheduleOverride]. *)
Theorem add_rejected_pattern (cron_valid : string → bool) (s : Schedule)
    (st : Scheduler) :
  schedule_id s ≠ "" →
  schedule_id s ∉ Object_prototype →
  _schedules st !! schedule_id s = None →
  schedule_enabled s = true →
  cron_valid (schedule_cron s) = false →
  (add cron_valid s st).1 = Throw (CronPatternError (schedule_cron s)) ∧
  _schedules (add cron_valid s st).2 !! schedule_id s = Some s ∧
  _scheduleTable (add cron_valid s st).2 !! schedule_id s = Some false ∧
  _cronJobs (add cron_valid s st).2 = _cronJobs st ∧
  timers (add cron_valid s st).2 = timers st ∧
  (add cron_valid s (add cron_valid s st).2).1
    = Throw (ScheduleOverride (schedule_id s)).
Proof.
  intros Hne Hplain Hs He Hv. rewrite add_absent_eq, _add_rejected by done. simpl.
  rewrite !lookup_insert_eq. repeat (split; [done|]).
  rewrite (add_present cron_valid s); [done | done |].
  simpl. by rewrite lookup_insert_eq.
Qed.

Lemma add_rejected_pattern_witness :
  (add rejects_bad s3_bad st_s1).1 = Throw (CronPatternError "bad") ∧
  _schedules (add rejects_bad s3_bad st_s1).2 !! "s3" = Some s3_bad ∧
  _scheduleTable (add rejects_bad s3_bad st_s1).2 !! "s3" = Some false ∧
  (add rejects_bad s3_bad (add rejects_bad s3_bad st_s1).2).1
    = Throw (ScheduleOverride "s3").
Proof.
  assert (Hne : schedule_id s3_bad ≠ "") by (vm_compute; discriminate).
  assert (Hplain : schedule_id s3_bad ∉ Object_prototype).
  { intros Hin. apply (bool_decide_pack _) in Hin. vm_compute in Hin. exact Hin. }
  assert (Hs : _schedules st_s1 !! schedule_id s3_bad = None) by (vm_compute; reflexivity).
  assert (He : schedule_enabled s3_bad = true) by reflexivity.
  assert (Hv : rejects_bad (schedule_cron s3_bad) = false) by reflexivity.
  destruct (add_rejected_pattern rejects_bad s3_bad st_s1 Hne Hplain Hs He Hv)
    as (H1 & H2 & H3 & _ & _ & H6).
  split; [exact H1|]. split; [exact H2|]. split; [exact H3 | exact H6].
Defined.

Lemma tick_stopped (getJob : string → option string) (h : nat) (c : CronJob)
    (st : Scheduler) :
  timers st !! h = Some c → cj_running c = false → tick getJob h st = None.
Proof. intros Hc Hr. unfold tick. by rewrite Hc, Hr. Qed.

(** X3.  After [remove(id)] the id has no entry of its own in [_schedules]
    and in the table: for an id that is no name of [Object.prototype],
    [get(id)] fails with [NoSuchSchedule] and [isEnabled(id)] is [undefined],
    and for a name of [Object.prototype] both give the inherited property.  In
    a state satisfying the invariant the id has no reference left, no timer
    runs for it, and a tick of the timer it had hands no job to the
    executor. *)
Theorem remove_then_absent (i : string) (st : Scheduler) :
  _schedules (remove (Id i) st).2 !! i = None ∧
  _scheduleTable (remove (Id i) st).2 !! i = None ∧
  (i ∉ Object_prototype →
     (get (Id i) (remove (Id i) st).2).1 = Throw (NoSuchSchedule i) ∧
     (isEnabled (Id i) (remove (Id i) st).2).1 = Normal NoProperty) ∧
  (i ∈ Object_prototype →
     (get (Id i) (remove (Id i) st).2).1 = Normal (Inherited i) ∧
     (isEnabled (Id i) (remove (Id i) st).2).1 = Normal (Inherited i)) ∧
  (scheduler_inv st →
     _cronJobs (remove (Id i) st).2 !! i = None ∧
     running_timers_of i (remove (Id i) st).2 = [] ∧
     ∀ h getJob, _cronJobs st !! i = Some h →
       tick getJob h (remove (Id i) st).2 = None).
Proof.
  destruct (remove_purges (Id i) st) as [Hs Ht].
  change (toKey (Id i)) with i in Hs, Ht.
  split; [done|]. split; [done|].
  split; [intros Hi; split;
            [by rewrite get_absent
            | by rewrite isEnabled_Id, (read_property_absent _ _ Ht Hi)]|].
  split; [intros Hi; split;
            [by rewrite get_inherited
            | by rewrite isEnabled_Id, (read_property_inherited _ _ Ht Hi)]|].
  intros Hinv. pose proof (remove_inv i st Hinv) as Hinv'.
  assert (Hc : _cronJobs (remove (Id i) st).2 !! i = None).
  { apply inv_no_handle; [apply Hinv' | by rewrite Ht]. }
  split; [done|]. split.
  - destruct (running_timers_of i (remove (Id i) st).2) as [|h l] eqn:E; [done|].
    assert (Hin : h ∈ running_timers_of i (remove (Id i) st).2)
      by (rewrite E; apply list_elem_of_here).
    apply running_timers_of_spec in Hin; [congruence | done].
  - intros h getJob Hh.
    pose proof (proj1 (inv_handle _ Hinv i) (ex_intro _ h Hh)) as Hen.
    pose proof (has_property_own _ _ (inv_known _ Hinv _ Hen)) as Hk.
    destruct (inv_running _ Hinv _ _ Hh) as (c & Htc & _ & _).
    rewrite remove_eq, (_disable_enabled (Id i) (Id i) h st);
      [| done | done | exact (truthy_enabled_own _ _ _ Hen) | done].
    apply (tick_stopped _ _ (cj_set_running false c)); [|done].
    simpl. by rewrite list_lookup_alter_eq, Htc.
Qed.

Lemma remove_then_absent_witness :
  (get (Id "s1") (remove (Id "s1") st_s1).2).1 = Throw (NoSuchSchedule "s1") ∧
  (get (Id "toString") (remove (Id "toString") st_s1).2).1
    = Normal (Inherited "toString") ∧
  running_timers_of "s1" (remove (Id "s1") st_s1).2 = [] ∧
  tick (fun id => Some id) 0 (remove (Id "s1") st_s1).2 = None.
Proof.
  assert (Hne1 : schedule_id s1 ≠ "") by (vm_compute; discriminate).
  assert (Hinv : scheduler_inv st_s1) by exact (add_inv always_valid s1 _ inv_empty Hne1).
  assert (Hh : _cronJobs st_s1 !! "s1" = Some 0) by (vm_compute; reflexivity).
  assert (Hplain : "s1" ∉ Object_prototype).
  { intros Hin. apply (bool_decide_pack _) in Hin. vm_compute in Hin. exact Hin. }
  assert (Hin : "toString" ∈ Object_prototype)
    by (apply (bool_decide_unpack _); by vm_compute).
  destruct (remove_then_absent "s1" st_s1) as (_ & _ & H1 & _ & H3).
  destruct (remove_then_absent "toString" st_s1) as (_ & _ & _ & H2 & _).
  destruct (H3 Hinv) as (_ & H4 & H5).
  split; [exact (proj1 (H1 Hplain))|]. split; [exact (proj1 (H2 Hin))|].
  split; [exact H4 | exact (H5 0 (fun id => Some id) Hh)].
Defined.

(** X4.  [remove] is idempotent: a second [remove] of the same id returns
    normally and changes nothing.  This holds in every state for an id that
    is no name of [Object.prototype], and for such a name in a state where a
    reference is stored exactly for the ids marked enabled. *)
Theorem remove_idempotent (i : string) (st : Scheduler) :
  i ∉ Object_prototype ∨ handle_iff_enabled st →
  remove (Id i) (remove (Id i) st).2 = (Normal tt, (remove (Id i) st).2).
Proof.
  intros Hi. destruct (remove_purges (Id i) st) as [Hs Ht].
  change (toKey (Id i)) with i in Hs, Ht.
  assert (Hthrow : ∃ e, _disable (Id i) (remove (Id i) st).2
                        = (Throw e, (remove (Id i) st).2)).
  { destruct (_disable_cases (Id i) (remove (Id i) st).2)
      as [He|(r & h & Hr & Hhas & _ & Hc & _)]; [done|].
    exfalso. injection Hr as <-. cbn [toKey] in Hhas, Hc.
    apply has_property_true in Hhas as [[? Hsome]|Hin]; [congruence|].
    destruct Hi as [Hi|Hinv]; [done|].
    rewrite remove_eq in Hc. cbn [snd purged_state _cronJobs] in Hc.
    destruct (_disable_cases (Id i) st) as [[e He]|(r & h0 & Hr & _ & _ & _ & He)].
    - rewrite He in Hc. cbn [snd] in Hc.
      assert (Hten : _scheduleTable st !! i = Some true)
        by (apply Hinv; by rewrite Hc).
      rewrite (_disable_enabled (Id i) (Id i) h st eq_refl) in He;
        [done | apply has_property_true; by right
        | exact (truthy_enabled_own _ _ _ Hten) | done].
    - injection Hr as <-. rewrite He in Hc. cbn [snd disabled_state _cronJobs toKey] in Hc.
      by rewrite lookup_delete_eq in Hc. }
  destruct Hthrow as [e He].
  set (st1 := (remove (Id i) st).2) in *. clearbody st1.
  rewrite (remove_eq (Id i) st1), He.
  cbn [fst snd toKey]. f_equal.
  destruct st1 as [sch tab cj tm]. unfold purged_state. simpl in *.
  by rewrite !delete_id.
Qed.

Lemma remove_idempotent_witness :
  remove (Id "s1") (remove (Id "s1") st_s1).2 = (Normal tt, (remove (Id "s1") st_s1).2) ∧
  remove (Id "toString") (remove (Id "toString") st_s1).2
    = (Normal tt, (remove (Id "toString") st_s1).2).
Proof.
  assert (Hne1 : schedule_id s1 ≠ "") by (vm_compute; discriminate).
  assert (Hinv : scheduler_inv st_s1) by exact (add_inv always_valid s1 _ inv_empty Hne1).
  split.
  - apply remove_idempotent. left.
    intros Hin. apply (bool_decide_pack _) in Hin. vm_compute in Hin. exact Hin.
  - apply remove_idempotent. right. apply Hinv.
Defined.

(** Why the condition on the names of [Object.prototype]: with a reference
    stored under such a name next to an entry that is [false], the first
    [remove] leaves the reference, and the second one, which reads the
    inherited property as the entry, stops its timer and deletes it. *)
Example remove_twice_with_stale_reference :
  ¬ handle_iff_enabled st_stale ∧
  _cronJobs (remove (Id "toString") st_stale).2 !! "toString" = Some 0 ∧
  _cronJobs (remove (Id "toString") (remove (Id "toString") st_stale).2).2
    !! "toString" = None.
Proof.
  split; [|by vm_compute].
  intros H. destruct (H "toString") as [H1 _].
  assert (Hc : is_Some (_cronJobs st_stale !! "toString")) by (vm_compute; eauto).
  specialize (H1 Hc). vm_compute in H1. discriminate H1.
Qed.

(** And in [update]: a schedule filed under a name of [Object.prototype]
    with no entry in the table is taken for enabled, and [update] fails on the
    reference it does not find. *)
Example update_without_table_entry :
  is_Some (_schedules st_unaligned !! "toString") ∧
  ¬ tables_aligned st_unaligned ∧
  update always_valid s_toString st_unaligned = (Throw TypeError, st_unaligned).
Proof.
  split; [vm_compute; eauto|]. split; [|by vm_compute].
  intros H. destruct (H "toString") as [b Hb]; [vm_compute; eauto|].
  vm_compute in Hb. discriminate Hb.
Qed.

(** What [update] runs on an id that is present, in a state where an entry
    marked enabled has a reference. *)
Lemma update_present (cron_valid : string → bool) (s : Schedule) (st : Scheduler) :
  schedule_id s ≠ "" →
  is_Some (_schedules st !! schedule_id s) →
  (schedule_id s ∈ Object_prototype → is_Some (_scheduleTable st !! schedule_id s)) →
  enabled_has_handle st →
  (_scheduleTable st !! schedule_id s ≠ Some true ∧
   update cron_valid s st = _add cron_valid s st) ∨
  (∃ h, _scheduleTable st !! schedule_id s = Some true ∧
        _cronJobs st !! schedule_id s = Some h ∧
        update cron_valid s st
          = _add cron_valid s (disabled_state (schedule_id s) h st)).
Proof.
  intros Hne Hs Hown Hehh. pose proof (_resolveId_Sched s Hne) as Hr.
  pose proof (has_property_own _ _ Hs) as Hhas.
  destruct (decide (_scheduleTable st !! schedule_id s = Some true)) as [Ht|Ht].
  - right. destruct (Hehh _ Ht) as [h Hc]. exists h. split; [done|]. split; [done|].
    apply (update_enabled cron_valid s _ h st Hr); [done | | done].
    exact (truthy_enabled_own _ _ _ Ht).
  - left. split; [done|]. apply (update_disabled cron_valid s _ st Hr); [done|].
    cbn [toKey]. destruct (_scheduleTable st !! schedule_id s) as [[]|] eqn:E;
      [done | by rewrite (truthy_enabled_own _ _ _ E) |].
    destruct (decide (schedule_id s ∈ Object_prototype)) as [Hin|Hin].
    + by destruct (Hown Hin).
    + by rewrite (read_property_absent _ _ E Hin).
Qed.

(** X5.  [update] of a schedule whose id is present and which is disabled or
    has a pattern [CronJob] accepts: it returns normally, [get] gives the new
    definition, and [isEnabled] is the [enabled] flag of the new
    definition, whatever it was before.  An id that is a name of
    [Object.prototype] is taken to have its entry in the table, as every id of
    [_schedules] has in the states the methods build ([tables_aligned]). *)
Theorem update_then_get (cron_valid : string → bool) (s : Schedule) (st : Scheduler) :
  schedule_id s ≠ "" →
  is_Some (_schedules st !! schedule_id s) →
  (schedule_id s ∈ Object_prototype → is_Some (_scheduleTable st !! schedule_id s)) →
  enabled_has_handle st →
  installable cron_valid s →
  (update cron_valid s st).1 = Normal tt ∧
  (get (Id (schedule_id s)) (update cron_valid s st).2).1 = Normal (Own s) ∧
  (isEnabled (Id (schedule_id s)) (update cron_valid s st).2).1
    = Normal (Own (schedule_enabled s)).
Proof.
  intros Hne Hs Hown Hehh Hok.
  assert (Hadd : ∀ st0, (_add cron_valid s st0).1 = Normal tt ∧
            (get (Id (schedule_id s)) (_add cron_valid s st0).2).1 = Normal (Own s) ∧
            (isEnabled (Id (schedule_id s)) (_add cron_valid s st0).2).1
              = Normal (Own (schedule_enabled s))).
  { intros st0. rewrite _add_installable by done. cbn [fst snd].
    split; [done|].
    destruct (schedule_enabled s);
      rewrite (get_present _ s), isEnabled_Id by (simpl; by rewrite lookup_insert_eq);
      simpl; by rewrite (read_property_own _ _ _ (lookup_insert_eq _ _ _)). }
  destruct (update_present cron_valid s st Hne Hs Hown Hehh)
    as [[_ ->]|(h & _ & _ & ->)]; apply Hadd.
Qed.

Lemma update_then_get_witness :
  (update always_valid s1_new st_s1).1 = Normal tt ∧
  (get (Id "s1") (update always_valid s1_new st_s1).2).1 = Normal (Own s1_new) ∧
  (isEnabled (Id "s1") (update always_valid s1_new st_s1).2).1 = Normal (Own true).
Proof.
  assert (Hne : schedule_id s1_new ≠ "") by (vm_compute; discriminate).
  assert (Hs : is_Some (_schedules st_s1 !! schedule_id s1_new)) by (vm_compute; eauto).
  assert (Hown : schedule_id s1_new ∈ Object_prototype →
                 is_Some (_scheduleTable st_s1 !! schedule_id s1_new))
    by (intros _; vm_compute; eauto).
  assert (He : enabled_has_handle st_s1) by exact (ehh_add always_valid s1 _ ehh_empty).
  assert (Hok : installable always_valid s1_new) by (intros _; reflexivity).
  exact (update_then_get always_valid s1_new st_s1 Hne Hs Hown He Hok).
Defined.

(** X6.  [update] of a present id to an enabled definition whose pattern
    [CronJob] rejects: the exception reaches the caller after the old timer
    has been stopped; the new definition is stored, disabled, with no
    reference, and a tick of the timer the id had hands no job to the
    executor.  An id that is a name of [Object.prototype] is taken to have its
    entry in the table, as in [update_then_get]. *)
Theorem update_rejected_pattern (cron_valid : string → bool) (s : Schedule)
    (st : Scheduler) :
  schedule_id s ≠ "" →
  is_Some (_schedules st !! schedule_id s) →
  (schedule_id s ∈ Object_prototype → is_Some (_scheduleTable st !! schedule_id s)) →
  scheduler_inv st →
  schedule_enabled s = true →
  cron_valid (schedule_cron s) = false →
  (update cron_valid s st).1 = Throw (CronPatternError (schedule_cron s)) ∧
  _schedules (update cron_valid s st).2 !! schedule_id s = Some s ∧
  _scheduleTable (update cron_valid s st).2 !! schedule_id s = Some false ∧
  _cronJobs (update cron_valid s st).2 !! schedule_id s = None ∧
  (∀ h getJob, _cronJobs st !! schedule_id s = Some h →
     tick getJob h (update cron_valid s st).2 = None).
Proof.
  intros Hne Hs Hown Hinv He Hv.
  pose proof (inv_enabled_has_handle _ Hinv) as Hehh.
  destruct (update_present cron_valid s st Hne Hs Hown Hehh)
    as [[Ht ->]|(h & Ht & Hc & ->)];
    rewrite _add_rejected by done; cbn [fst snd]; simpl; rewrite !lookup_insert_eq.
  - pose proof (inv_no_handle st _ (inv_handle _ Hinv) Ht) as Hc.
    repeat (split; [done|]). intros h getJob Hh. congruence.
  - rewrite lookup_delete_eq. repeat (split; [done|]).
    intros h' getJob Hh. assert (h' = h) as -> by congruence.
    destruct (inv_running _ Hinv _ _ Hc) as (c & Htc & _ & _).
    apply (tick_stopped _ _ (cj_set_running false c)); [|done].
    simpl. by rewrite list_lookup_alter_eq, Htc.
Qed.

Lemma update_rejected_pattern_witness :
  (update rejects_bad s1_bad st_s1).1 = Throw (CronPatternError "bad") ∧
  _schedules (update rejects_bad s1_bad st_s1).2 !! "s1" = Some s1_bad ∧
  _scheduleTable (update rejects_bad s1_bad st_s1).2 !! "s1" = Some false ∧
  _cronJobs (update rejects_bad s1_bad st_s1).2 !! "s1" = None ∧
  tick (fun id => Some id) 0 (update rejects_bad s1_bad st_s1).2 = None.
Proof.
  assert (Hne : schedule_id s1_bad ≠ "") by (vm_compute; discriminate).
  assert (Hne1 : schedule_id s1 ≠ "") by (vm_compute; discriminate).
  assert (Hs : is_Some (_schedules st_s1 !! schedule_id s1_bad)) by (vm_compute; eauto).
  assert (Hinv : scheduler_inv st_s1) by exact (add_inv always_valid s1 _ inv_empty Hne1).
  assert (Hh : _cronJobs st_s1 !! schedule_id s1_bad = Some 0) by (vm_compute; reflexivity).
  assert (Hown : schedule_id s1_bad ∈ Object_prototype →
                 is_Some (_scheduleTable st_s1 !! schedule_id s1_bad))
    by (intros _; vm_compute; eauto).
  destruct (update_rejected_pattern rejects_bad s1_bad st_s1 Hne Hs Hown Hinv
              eq_refl eq_refl) as (H1 & H2 & H3 & H4 & H5).
  split; [exact H1|]. split; [exact H2|]. split; [exact H3|]. split; [exact H4|].
  exact (H5 0 (fun id => Some id) Hh).
Defined.

(** *** What a method leaves alone *)

Lemma same_entries_refl (k : string) (st : Scheduler) : same_entries k st st.
Proof. done. Qed.

Lemma same_entries_trans (k : string) (a b c : Scheduler) :
  same_entries k a b → same_entries k b c → same_entries k a c.
Proof. intros (H1 & H2 & H3) (H4 & H5 & H6). repeat split; congruence. Qed.

Lemma same_disabled_state (k i : string) (h : nat) (st : Scheduler) :
  k ≠ i → same_entries k st (disabled_state i h st).
Proof.
  intros Hne. unfold same_entries. simpl.
  by rewrite lookup_insert_ne, lookup_delete_ne.
Qed.

Lemma same_added_state (k i : string) (s : Schedule) (st : Scheduler) :
  k ≠ i → same_entries k st (added_state i s st).
Proof. intros Hne. unfold same_entries. simpl. by rewrite !lookup_insert_ne. Qed.

Lemma same_enabled_state (k : string) (s : Schedule) (st : Scheduler) :
  k ≠ schedule_id s → same_entries k st (enabled_state s st).
Proof. intros Hne. unfold same_entries. simpl. by rewrite !lookup_insert_ne. Qed.

Lemma same_purged_state (k i : string) (st : Scheduler) :
  k ≠ i → same_entries k st (purged_state i st).
Proof. intros Hne. unfold same_entries. simpl. by rewrite !lookup_delete_ne. Qed.

Lemma _disable_same (x r : scheduleOrId) (k : string) (st : Scheduler) :
  _resolveId x = Normal r → k ≠ toKey r → same_entries k st (_disable x st).2.
Proof.
  intros Hr Hne.
  destruct (_disable_cases x st) as [[e ->]|(r' & h & Hr' & _ & _ & _ & ->)]; [done|].
  assert (r' = r) as -> by congruence. by apply same_disabled_state.
Qed.

Lemma _add_same (cron_valid : string → bool) (s : Schedule) (k : string)
    (st : Scheduler) :
  schedule_id s ≠ "" → k ≠ schedule_id s →
  same_entries k st (_add cron_valid s st).2.
Proof.
  intros Hne Hk. rewrite (_add_eq _ _ _ _ (_resolveId_Sched s Hne)). simpl.
  pose proof (same_added_state k (schedule_id s) s st Hk) as Hadded.
  destruct (schedule_enabled s); [|done].
  destruct (cron_valid (schedule_cron s)) eqn:Hv.
  - rewrite _enable_valid by done. simpl.
    eapply same_entries_trans; [done | by apply same_enabled_state].
  - by rewrite _enable_invalid.
Qed.

Lemma add_same (cron_valid : string → bool) (s : Schedule) (k : string)
    (st : Scheduler) :
  schedule_id s ≠ "" → k ≠ schedule_id s →
  same_entries k st (add cron_valid s st).2.
Proof.
  intros Hne Hk.
  destruct (add_cases cron_valid s _ st (_resolveId_Sched s Hne)) as [-> | ->];
    [done | by apply _add_same].
Qed.

Lemma remove_same (i k : string) (st : Scheduler) :
  k ≠ i → same_entries k st (remove (Id i) st).2.
Proof.
  intros Hk. rewrite remove_eq. cbn [snd toKey].
  eapply same_entries_trans; [by apply (_disable_same (Id i) (Id i))|].
  by apply same_purged_state.
Qed.

Lemma update_same (cron_valid : string → bool) (s : Schedule) (k : string)
    (st : Scheduler) :
  schedule_id s ≠ "" → k ≠ schedule_id s →
  same_entries k st (update cron_valid s st).2.
Proof.
  intros Hne Hk. pose proof (_resolveId_Sched s Hne) as Hr.
  destruct (update_cases cron_valid s _ st Hr) as [[e ->]|[-> |(h & _ & ->)]].
  - done.
  - by apply _add_same.
  - eapply same_entries_trans; [|by apply _add_same].
    by apply same_disabled_state.
Qed.

Lemma _disable_same_timer (x r : scheduleOrId) (k : string) (st : Scheduler) :
  scheduler_inv st → _resolveId x = Normal r → k ≠ toKey r →
  same_timer k st (_disable x st).2.
Proof.
  intros Hinv Hr Hne h Hh.
  destruct (_disable_cases x st) as [[e ->]|(r' & h' & Hr' & _ & _ & Hc & ->)]; [done|].
  assert (r' = r) as -> by congruence. simpl.
  destruct (inv_running _ Hinv _ _ Hh) as (c & _ & _ & Hk).
  destruct (inv_running _ Hinv _ _ Hc) as (c' & Htc' & _ & Hk').
  rewrite list_lookup_alter_ne; [done|]. intros ->.
  destruct (inv_running _ Hinv _ _ Hh) as (c'' & Htc'' & _ & Hk'').
  congruence.
Qed.

Lemma _add_same_timer (cron_valid : string → bool) (s : Schedule) (k : string)
    (st : Scheduler) :
  scheduler_inv st → same_timer k st (_add cron_valid s st).2.
Proof.
  intros Hinv h Hh. destruct (inv_running _ Hinv _ _ Hh) as (c & Htc & _ & _).
  rewrite Htc. by apply _add_timers.
Qed.

(** X7.  [add], [update] and [remove] on one id leave every other id as it
    was: its schedule, its entry of the table and its reference; and, in a
    state satisfying the invariant, its timer. *)
Theorem other_ids_untouched (cron_valid : string → bool) (s : Schedule)
    (k : string) (st : Scheduler) :
  schedule_id s ≠ "" → k ≠ schedule_id s →
  (same_entries k st (add cron_valid s st).2 ∧
   same_entries k st (update cron_valid s st).2 ∧
   same_entries k st (remove (Id (schedule_id s)) st).2) ∧
  (scheduler_inv st →
   same_timer k st (add cron_valid s st).2 ∧
   same_timer k st (update cron_valid s st).2 ∧
   same_timer k st (remove (Id (schedule_id s)) st).2).
Proof.
  intros Hne Hk. pose proof (_resolveId_Sched s Hne) as Hr.
  split; [split; [by apply add_same | split; [by apply update_same | by apply remove_same]]|].
  intros Hinv. split; [|split].
  - destruct (add_cases cron_valid s _ st Hr) as [-> | ->];
      [done | by apply _add_same_timer].
  - destruct (update_cases cron_valid s _ st Hr) as [[e ->]|[-> |(h & Hc & ->)]];
      [done | by apply _add_same_timer |].
    intros h' Hh'. cbn [toKey] in Hc.
    destruct (inv_running _ Hinv _ _ Hh') as (c' & Htc' & _ & Hk').
    destruct (inv_running _ Hinv _ _ Hc) as (c & Htc & _ & Hkc).
    assert (h ≠ h') by (intros ->; congruence).
    rewrite Htc'. apply _add_timers. simpl. by rewrite list_lookup_alter_ne.
  - intros h Hh. rewrite remove_eq. cbn [snd toKey]. simpl.
    by apply (_disable_same_timer (Id (schedule_id s)) (Id (schedule_id s)) k st).
Qed.

Lemma other_ids_untouched_witness :
  schedule_id s1_new ≠ "" ∧ "s2" ≠ schedule_id s1_new ∧
  scheduler_inv (add always_valid s1 st_s2).2 ∧
  same_entries "s2" (add always_valid s1 st_s2).2
    (update always_valid s1_new (add always_valid s1 st_s2).2).2 ∧
  same_timer "s2" (add always_valid s1 st_s2).2
    (remove (Id (schedule_id s1_new)) (add always_valid s1 st_s2).2).2.
Proof.
  assert (Hne : schedule_id s1_new ≠ "") by (vm_compute; discriminate).
  assert (Hne1 : schedule_id s1 ≠ "") by (vm_compute; discriminate).
  assert (Hne2 : schedule_id s2 ≠ "") by (vm_compute; discriminate).
  assert (Hk : "s2" ≠ schedule_id s1_new) by (vm_compute; discriminate).
  assert (Hinv : scheduler_inv (add always_valid s1 st_s2).2)
    by exact (add_inv always_valid s1 _ (add_inv always_valid s2 _ inv_empty Hne2) Hne1).
  destruct (other_ids_untouched always_valid s1_new "s2" (add always_valid s1 st_s2).2
              Hne Hk) as ((_ & H2 & _) & H4).
  destruct (H4 Hinv) as (_ & _ & H7).
  split; [exact Hne|]. split; [exact Hk|]. split; [exact Hinv|].
  split; [exact H2 | exact H7].
Defined.

(** *** [disableAll] *)

Lemma disableAll_keys_spec (keys : list string) (st : Scheduler) :
  scheduler_inv st →
  (disableAll_keys keys st).1 = Normal tt ∧
  _schedules (disableAll_keys keys st).2 = _schedules st ∧
  ∀ k, _scheduleTable (disableAll_keys keys st).2 !! k =
       if decide (k ∈ keys) then (fun _ => false) <$> _scheduleTable st !! k
       else _scheduleTable st !! k.
Proof.
  revert st. induction keys as [|k0 keys IH]; intros st Hinv.
  { split; [done|]. split; [done|]. intros k. by rewrite decide_False by apply not_elem_of_nil. }
  simpl. run_M.
  destruct (_scheduleTable st !! k0) as [[]|] eqn:Ht; simpl.
  - destruct (proj2 (inv_handle _ Hinv k0) Ht) as [h Hc].
    pose proof (has_property_own _ _ (inv_known _ Hinv _ Ht)) as Hs.
    rewrite (_disable_enabled (Id k0) (Id k0) h st eq_refl Hs
               (truthy_enabled_own _ _ _ Ht) Hc). cbn [toKey].
    destruct (IH (disabled_state k0 h st)) as (H1 & H2 & H3);
      [by apply inv_disabled_state|].
    split; [done|]. split; [done|]. intros k. rewrite H3. simpl.
    destruct (decide (k = k0)) as [->|Hne].
    + rewrite lookup_insert_eq, Ht, (decide_True (P := k0 ∈ k0 :: keys))
        by apply list_elem_of_here.
      by destruct (decide (k0 ∈ keys)).
    + rewrite lookup_insert_ne by done.
      destruct (decide (k ∈ keys)) as [Hin|Hnin].
      * by rewrite decide_True by (by apply list_elem_of_further).
      * rewrite decide_False; [done|]. by intros [?|?]%elem_of_cons.
  - destruct (IH st Hinv) as (H1 & H2 & H3).
    split; [done|]. split; [done|]. intros k. rewrite H3.
    destruct (decide (k = k0)) as [->|Hne].
    + rewrite Ht, (decide_True (P := k0 ∈ k0 :: keys)) by apply list_elem_of_here.
      by destruct (decide (k0 ∈ keys)).
    + destruct (decide (k ∈ keys)) as [Hin|Hnin].
      * by rewrite decide_True by (by apply list_elem_of_further).
      * rewrite decide_False; [done|]. by intros [?|?]%elem_of_cons.
  - destruct (IH st Hinv) as (H1 & H2 & H3).
    split; [done|]. split; [done|]. intros k. rewrite H3.
    destruct (decide (k = k0)) as [->|Hne].
    + rewrite Ht, (decide_True (P := k0 ∈ k0 :: keys)) by apply list_elem_of_here.
      by destruct (decide (k0 ∈ keys)).
    + destruct (decide (k ∈ keys)) as [Hin|Hnin].
      * by rewrite decide_True by (by apply list_elem_of_further).
      * rewrite decide_False; [done|]. by intros [?|?]%elem_of_cons.
Qed.

(** X8.  In a state satisfying the invariant, [disableAll] returns normally
    and leaves every schedule registered and disabled: every entry of the
    table is [false], no reference is stored, and no timer hands a job to
    the executor any more. *)
Theorem disableAll_disables_all (st : Scheduler) :
  scheduler_inv st →
  (disableAll st).1 = Normal tt ∧
  _schedules (disableAll st).2 = _schedules st ∧
  _scheduleTable (disableAll st).2 = (fun _ => false) <$> _scheduleTable st ∧
  _cronJobs (disableAll st).2 = ∅ ∧
  (∀ h getJob, tick getJob h (disableAll st).2 = None).
Proof.
  intros Hinv. pose proof (disableAll_inv st Hinv) as Hinv'.
  unfold disableAll in *. run_M. simpl in Hinv'.
  destruct (disableAll_keys_spec (map_to_list (_scheduleTable st)).*1 st Hinv)
    as (H1 & H2 & H3).
  set (st' := (disableAll_keys (map_to_list (_scheduleTable st)).*1 st).2) in *.
  assert (Htab : _scheduleTable st' = (fun _ => false) <$> _scheduleTable st).
  { apply map_eq. intros k. rewrite H3, lookup_fmap.
    destruct (decide _) as [Hin|Hnin]; [done|].
    destruct (_scheduleTable st !! k) as [b|] eqn:Hb; [|done].
    exfalso. apply Hnin. apply list_elem_of_fmap. exists (k, b).
    split; [done|]. by apply elem_of_map_to_list. }
  assert (Hcj : _cronJobs st' = ∅).
  { apply map_eq. intros k. rewrite lookup_empty.
    apply inv_no_handle; [apply Hinv'|].
    rewrite Htab, lookup_fmap. by destruct (_scheduleTable st !! k). }
  split; [done|]. split; [done|]. split; [done|]. split; [done|].
  intros h getJob. unfold tick.
  destruct (timers st' !! h) as [c|] eqn:Hc; [|done].
  destruct (cj_running c) eqn:Hr; [|done].
  assert (Ho : _cronJobs st' !! cj_scheduleId c = Some h)
    by exact (inv_owned _ Hinv' _ _ Hc Hr).
  by rewrite Hcj, lookup_empty in Ho.
Qed.

Lemma disableAll_disables_all_witness :
  scheduler_inv (add always_valid s1 st_s2).2 ∧
  (disableAll (add always_valid s1 st_s2).2).1 = Normal tt ∧
  _scheduleTable (disableAll (add always_valid s1 st_s2).2).2
    = (fun _ => false) <$> _scheduleTable (add always_valid s1 st_s2).2 ∧
  _cronJobs (disableAll (add always_valid s1 st_s2).2).2 = ∅ ∧
  tick (fun id => Some id) 0 (disableAll (add always_valid s1 st_s2).2).2 = None.
Proof.
  assert (Hne1 : schedule_id s1 ≠ "") by (vm_compute; discriminate).
  assert (Hne2 : schedule_id s2 ≠ "") by (vm_compute; discriminate).
  assert (Hinv : scheduler_inv (add always_valid s1 st_s2).2)
    by exact (add_inv always_valid s1 _ (add_inv always_valid s2 _ inv_empty Hne2) Hne1).
  destruct (disableAll_disables_all _ Hinv) as (H1 & _ & H3 & H4 & H5).
  split; [exact Hinv|]. split; [exact H1|]. split; [exact H3|]. split; [exact H4|].
  exact (H5 0 (fun id => Some id)).
Defined.

(** *** [_loadSchedules] *)


Lemma _add_table (cron_valid : string → bool) (s : Schedule) (st : Scheduler) :
  schedule_id s ≠ "" → installable cron_valid s →
  _scheduleTable (_add cron_valid s st).2
    = <[schedule_id s := schedule_enabled s]> (_scheduleTable st).
Proof.
  intros Hne Hok. rewrite _add_installable by done. simpl.
  destruct (schedule_enabled s); simpl; [|done]. by rewrite insert_insert_eq.
Qed.

Lemma forEach_add_installs (cron_valid : string → bool) (schedules : list Schedule)
    (st : Scheduler) :
  NoDup (schedule_id <$> schedules) →
  Forall (fun s => schedule_id s ≠ "") schedules →
  Forall (installable cron_valid) schedules →
  (forEach_add cron_valid schedules st).1 = Normal tt ∧
  (∀ s, s ∈ schedules →
     _schedules (forEach_add cron_valid schedules st).2 !! schedule_id s = Some s ∧
     _scheduleTable (forEach_add cron_valid schedules st).2 !! schedule_id s
       = Some (schedule_enabled s)) ∧
  (∀ k, k ∉ schedule_id <$> schedules →
     _schedules (forEach_add cron_valid schedules st).2 !! k = _schedules st !! k ∧
     _scheduleTable (forEach_add cron_valid schedules st).2 !! k
       = _scheduleTable st !! k).
Proof.
  revert st. induction schedules as [|s rest IH]; intros st Hnd Hne Hok.
  { split; [done|]. split; [by intros s ?%elem_of_nil | done]. }
  rewrite fmap_cons in Hnd. apply NoDup_cons in Hnd as [Hnotin Hnd].
  apply Forall_cons in Hne as [Hne1 Hne]. apply Forall_cons in Hok as [Hok1 Hok].
  pose proof (_add_schedules cron_valid s st Hne1) as Hsch.
  pose proof (_add_table cron_valid s st Hne1 Hok1) as Htab.
  pose proof (_add_installable cron_valid s st Hne1 Hok1) as Hadd.
  simpl. run_M. destruct (_add cron_valid s st) as [c st1].
  injection Hadd as -> _. simpl in Hsch, Htab.
  destruct (IH st1 Hnd Hne Hok) as (H1 & H2 & H3).
  split; [done|]. split.
  - intros s' [->|Hin]%elem_of_cons; [|by apply H2].
    destruct (H3 (schedule_id s) Hnotin) as [-> ->].
    by rewrite Hsch, Htab, !lookup_insert_eq.
  - intros k Hk. apply not_elem_of_cons in Hk as [Hk1 Hk2].
    destruct (H3 k Hk2) as [-> ->].
    by rewrite Hsch, Htab, !lookup_insert_ne.
Qed.

Lemma _loadSchedules_eq (cron_valid : string → bool) (schedules : list Schedule)
    (st : Scheduler) :
  _loadSchedules cron_valid schedules st
    = forEach_add cron_valid schedules (mkScheduler ∅ ∅ ∅ (timers st)).
Proof. reflexivity. Qed.

(** X9.  [_loadSchedules] over stored schedules with distinct, non-empty
    ids, none of them [__proto__], each disabled or with a pattern [CronJob]
    accepts: it completes, and exactly the stored schedules are registered,
    each enabled as its [enabled] flag says; for any other id [get] fails
    with [NoSuchSchedule], unless the id is a name of [Object.prototype], for
    which [get] gives the inherited property. *)
Theorem _loadSchedules_installs (cron_valid : string → bool)
    (schedules : list Schedule) (st : Scheduler) :
  NoDup (schedule_id <$> schedules) →
  Forall (fun s => schedule_id s ≠ "") schedules →
  Forall (fun s => schedule_id s ≠ "__proto__") schedules →
  Forall (installable cron_valid) schedules →
  (_loadSchedules cron_valid schedules st).1 = Normal tt ∧
  (∀ s, s ∈ schedules →
     (get (Id (schedule_id s)) (_loadSchedules cron_valid schedules st).2).1
       = Normal (Own s) ∧
     (isEnabled (Id (schedule_id s)) (_loadSchedules cron_valid schedules st).2).1
       = Normal (Own (schedule_enabled s))) ∧
  (∀ k, k ∉ schedule_id <$> schedules → k ∉ Object_prototype →
     (get (Id k) (_loadSchedules cron_valid schedules st).2).1
       = Throw (NoSuchSchedule k)) ∧
  (∀ k, k ∉ schedule_id <$> schedules → k ∈ Object_prototype →
     (get (Id k) (_loadSchedules cron_valid schedules st).2).1
       = Normal (Inherited k)).
Proof.
  intros Hnd Hne _ Hok. rewrite _loadSchedules_eq.
  destruct (forEach_add_installs cron_valid schedules
              (mkScheduler ∅ ∅ ∅ (timers st)) Hnd Hne Hok) as (H1 & H2 & H3).
  split; [done|]. split; [|split].
  - intros s Hin. destruct (H2 s Hin) as [Hs Ht].
    by rewrite (get_present _ s), isEnabled_Id, (read_property_own _ _ _ Ht).
  - intros k Hk Hplain. destruct (H3 k Hk) as [Hs _]. simpl in Hs.
    rewrite lookup_empty in Hs. by rewrite get_absent.
  - intros k Hk Hin. destruct (H3 k Hk) as [Hs _]. simpl in Hs.
    rewrite lookup_empty in Hs. by rewrite get_inherited.
Qed.

Lemma _loadSchedules_installs_witness :
  (_loadSchedules always_valid [s1; s2] empty_scheduler).1 = Normal tt ∧
  (get (Id "s2") (_loadSchedules always_valid [s1; s2] empty_scheduler).2).1
    = Normal (Own s2) ∧
  (isEnabled (Id "s2") (_loadSchedules always_valid [s1; s2] empty_scheduler).2).1
    = Normal (Own false) ∧
  (get (Id "s3") (_loadSchedules always_valid [s1; s2] empty_scheduler).2).1
    = Throw (NoSuchSchedule "s3").
Proof.
  assert (Hnd : NoDup (schedule_id <$> [s1; s2])).
  { apply (bool_decide_unpack _). by vm_compute. }
  assert (Hne : Forall (fun s => schedule_id s ≠ "") [s1; s2])
    by (repeat constructor; vm_compute; discriminate).
  assert (Hnp : Forall (fun s => schedule_id s ≠ "__proto__") [s1; s2])
    by (repeat constructor; vm_compute; discriminate).
  assert (Hok : Forall (installable always_valid) [s1; s2])
    by (repeat constructor; intros _; reflexivity).
  destruct (_loadSchedules_installs always_valid [s1; s2] empty_scheduler
              Hnd Hne Hnp Hok) as (H1 & H2 & H5 & _).
  assert (Hin : s2 ∈ [s1; s2]) by (apply list_elem_of_further, list_elem_of_here).
  destruct (H2 s2 Hin) as [H3 H4].
  split; [exact H1|]. split; [exact H3|]. split; [exact H4|].
  apply H5.
  - intros Hk. apply (bool_decide_pack _) in Hk. vm_compute in Hk. exact Hk.
  - intros Hk. apply (bool_decide_pack _) in Hk. vm_compute in Hk. exact Hk.
Defined.



(** *** The timer of an id is the timer of its stored definition *)

Lemma tm_empty : timers_match empty_scheduler.
Proof. intros k h s c. simpl. by rewrite lookup_empty. Qed.

Lemma tm_disabled_state (k : string) (h : nat) (st : Scheduler) :
  timers_match st → timers_match (disabled_state k h st).
Proof.
  intros H k' h' s c. simpl. destruct (decide (k = k')) as [<-|Hne].
  { by rewrite lookup_delete_eq. }
  rewrite lookup_delete_ne by done. intros Hc Hs.
  destruct (decide (h = h')) as [<-|Hh].
  - rewrite list_lookup_alter_eq. destruct (timers st !! h) as [c0|] eqn:Hc0; [|done].
    simpl. intros [= <-]. simpl. by apply (H k' h s c0).
  - rewrite list_lookup_alter_ne by done. intros Ht. by apply (H _ _ _ _ Hc Hs Ht).
Qed.

Lemma tm_added_state (k : string) (s : Schedule) (st : Scheduler) :
  timers_match st → _cronJobs st !! k = None → timers_match (added_state k s st).
Proof.
  intros H Hnone k' h' s' c. simpl. destruct (decide (k = k')) as [<-|Hne].
  - by rewrite Hnone.
  - rewrite lookup_insert_ne by done. apply H.
Qed.

Lemma tm_purged_state (k : string) (st : Scheduler) :
  timers_match st → timers_match (purged_state k st).
Proof.
  intros H k' h' s' c. simpl. destruct (decide (k = k')) as [<-|Hne].
  - by rewrite lookup_delete_eq.
  - rewrite lookup_delete_ne by done. apply H.
Qed.

Lemma tm_enabled_state (s : Schedule) (st : Scheduler) :
  timers_match st → handles_running st →
  _schedules st !! schedule_id s = Some s →
  timers_match (enabled_state s st).
Proof.
  intros H Hrun Hs k' h' s' c. simpl.
  destruct (decide (schedule_id s = k')) as [<-|Hne].
  - rewrite lookup_insert_eq, Hs. intros [= <-] [= <-].
    rewrite list_lookup_alter_eq, lookup_app_r by lia.
    replace (length (timers st) - length (timers st)) with 0 by lia.
    simpl. by intros [= <-].
  - rewrite lookup_insert_ne by done. intros Hc Hs'.
    destruct (Hrun _ _ Hc) as (c0 & Htc & _ & _).
    pose proof (lookup_lt_Some _ _ _ Htc).
    rewrite list_lookup_alter_ne by lia. rewrite lookup_app_l by done.
    intros Ht. by apply (H _ _ _ _ Hc Hs' Ht).
Qed.

Section TimersMatch.

Variable cron_valid : string → bool.

Lemma tm__disable (x : scheduleOrId) (st : Scheduler) :
  timers_match st → timers_match (_disable x st).2.
Proof.
  intros H.
  destruct (_disable_cases x st) as [[e ->]|(r & h & _ & _ & _ & _ & ->)]; [done|].
  by apply tm_disabled_state.
Qed.

Lemma tm__add (s : Schedule) (st : Scheduler) :
  scheduler_inv st → timers_match st → schedule_id s ≠ "" →
  _cronJobs st !! schedule_id s = None →
  timers_match (_add cron_valid s st).2.
Proof.
  intros Hinv H Hne Hc.
  rewrite (_add_eq _ _ _ _ (_resolveId_Sched s Hne)). simpl.
  pose proof (tm_added_state (schedule_id s) s st H Hc) as Hadded.
  pose proof (inv_added_state st (schedule_id s) s Hinv Hc) as Hinv'.
  destruct (schedule_enabled s); [|done].
  destruct (cron_valid (schedule_cron s)) eqn:Hv.
  - rewrite _enable_valid by done.
    apply tm_enabled_state; [done | apply Hinv' | simpl; by rewrite lookup_insert_eq].
  - by rewrite _enable_invalid.
Qed.

Lemma tm_add (s : Schedule) (st : Scheduler) :
  scheduler_inv st → timers_match st → schedule_id s ≠ "" →
  timers_match (add cron_valid s st).2.
Proof.
  intros Hinv H Hne. unfold add. run_M. rewrite (_resolveId_Sched s Hne). simpl.
  destruct (has_property (_schedules st) (schedule_id s)) eqn:Hs; [done|].
  apply has_property_false in Hs as [Hs _].
  apply tm__add; [done..|].
  by apply inv_unknown_no_handle; [apply Hinv | apply Hinv |].
Qed.

Lemma tm_remove (x : scheduleOrId) (st : Scheduler) :
  timers_match st → timers_match (remove x st).2.
Proof. intros H. rewrite remove_eq. by apply tm_purged_state, tm__disable. Qed.

Lemma tm_update (s : Schedule) (st : Scheduler) :
  scheduler_inv st → timers_match st → schedule_id s ≠ "" →
  timers_match (update cron_valid s st).2.
Proof.
  intros Hinv H Hne. pose proof (_resolveId_Sched s Hne) as Hr.
  destruct (has_property (_schedules st) (schedule_id s)) eqn:Hs.
  2:{ by rewrite (update_absent cron_valid s _ st Hr). }
  destruct (truthy_enabled (read_property (_scheduleTable st) (schedule_id s))) eqn:Ht.
  - destruct (_cronJobs st !! schedule_id s) as [h|] eqn:Hc.
    + rewrite (update_enabled cron_valid s _ h st Hr) by done.
      apply tm__add; [by apply inv_disabled_state | by apply tm_disabled_state | done |].
      simpl. by rewrite lookup_delete_eq.
    + by rewrite (update_no_handle cron_valid s _ st Hr).
  - rewrite (update_disabled cron_valid s _ st Hr) by done.
    apply tm__add; [done..|].
    apply inv_no_handle; [apply Hinv|]. by apply truthy_enabled_false.
Qed.

Lemma tm_disableAll (st : Scheduler) :
  timers_match st → timers_match (disableAll st).2.
Proof.
  intros H. unfold disableAll. run_M.
  generalize (map_to_list (_scheduleTable st)).*1. intros keys.
  revert st H. induction keys as [|k keys IH]; intros st H; [done|].
  simpl. run_M. destruct (truthy_entry (_scheduleTable st !! k)).
  - pose proof (tm__disable (Id k) st H) as Hd.
    destruct (_disable (Id k) st) as [[[]|e] st1]; simpl in *; [by apply IH | done].
  - by apply IH.
Qed.

Lemma tm_forEach_add (schedules : list Schedule) (st : Scheduler) :
  scheduler_inv st → timers_match st →
  NoDup (schedule_id <$> schedules) →
  Forall (fun s => schedule_id s ≠ "") schedules →
  Forall (fun s => _schedules st !! schedule_id s = None) schedules →
  timers_match (forEach_add cron_valid schedules st).2.
Proof.
  revert st. induction schedules as [|s rest IH]; intros st Hinv H Hnd Hne Hnew; [done|].
  rewrite fmap_cons in Hnd. apply NoDup_cons in Hnd as [Hnotin Hnd].
  apply Forall_cons in Hne as [Hne1 Hne]. apply Forall_cons in Hnew as [Hnew1 Hnew].
  assert (Hc : _cronJobs st !! schedule_id s = None)
    by (by apply inv_unknown_no_handle; [apply Hinv | apply Hinv |]).
  pose proof (_add_inv cron_valid s st Hinv Hne1 Hc) as Hinv1.
  pose proof (tm__add s st Hinv H Hne1 Hc) as H1.
  pose proof (_add_schedules cron_valid s st Hne1) as Hsch.
  simpl. run_M.
  destruct (_add cron_valid s st) as [[[]|e] st1]; simpl in *; [|done].
  apply IH; [done..|].
  rewrite Forall_forall in Hnew |- *. intros s' Hin.
  rewrite Hsch, lookup_insert_ne; [by apply Hnew|].
  intros Heq. apply Hnotin. rewrite Heq. apply list_elem_of_fmap. by exists s'.
Qed.

Lemma reachable_timers_match (st : Scheduler) :
  reachable cron_valid st → timers_match st.
Proof.
  induction 1 as [schedules Hnd Hne | st s Hr IH Hne | st i Hr IH
                  | st s Hr IH Hne | st Hr IH].
  - rewrite _loadSchedules_eq. apply tm_forEach_add; [apply inv_empty | apply tm_empty | done..|].
    apply Forall_forall. intros s _. simpl. apply lookup_empty.
  - apply tm_add; [by apply (reachable_inv cron_valid) | done..].
  - by apply tm_remove.
  - apply tm_update; [by apply (reachable_inv cron_valid) | done..].
  - by apply tm_disableAll.
Qed.

End TimersMatch.

(** X11.  In every reachable state, an id marked enabled has exactly one
    running timer; it was created from the definition now stored for the id
    (after an [update], the new one), with its pattern, and a tick of it
    loads the job of that definition afresh: the job goes to the executor,
    or the tick fails with [ScheduleJobNotFound] when the store has no such
    job. *)
Theorem enabled_schedule_fires_its_job (cron_valid : string → bool)
    (st : Scheduler) (k : string) :
  reachable cron_valid st →
  _scheduleTable st !! k = Some true →
  ∃ h s, _cronJobs st !! k = Some h ∧
         _schedules st !! k = Some s ∧
         running_timers_of k st = [h] ∧
         cj_cron <$> timers st !! h = Some (schedule_cron s) ∧
         ∀ getJob, tick getJob h st = Some (_getJob getJob (schedule_job s) k).
Proof.
  intros Hreach Ht.
  pose proof (reachable_inv cron_valid st Hreach) as Hinv.
  pose proof (reachable_timers_match cron_valid st Hreach) as Htm.
  destruct (proj2 (inv_handle _ Hinv k) Ht) as [h Hc].
  destruct (inv_known _ Hinv _ Ht) as [s Hs].
  destruct (inv_running _ Hinv _ _ Hc) as (c & Htc & Hrun & Hsid).
  destruct (Htm _ _ _ _ Hc Hs Htc) as [Hcron Hjob].
  exists h, s. split; [done|]. split; [done|]. split; [|split].
  - pose proof (running_timers_of_NoDup st k) as Hnd.
    assert (Hiff : ∀ x, x ∈ running_timers_of k st ↔ x = h).
    { intros x. rewrite running_timers_of_spec by done. rewrite Hc.
      split; [by intros [= ->] | by intros ->]. }
    destruct (running_timers_of k st) as [|a [|b l]].
    + exfalso. by apply (not_elem_of_nil h), Hiff.
    + f_equal. apply Hiff, list_elem_of_here.
    + exfalso. apply NoDup_cons in Hnd as [Hnotin _]. apply Hnotin.
      assert (a = h) as -> by apply Hiff, list_elem_of_here.
      assert (b = h) as -> by apply Hiff, list_elem_of_further, list_elem_of_here.
      apply list_elem_of_here.
  - by rewrite Htc, <- Hcron.
  - intros getJob. unfold tick. by rewrite Htc, Hrun, Hjob, Hsid.
Qed.

Lemma enabled_schedule_fires_its_job_witness :
  reachable always_valid (update always_valid s1_new st_s1).2 ∧
  _scheduleTable (update always_valid s1_new st_s1).2 !! "s1" = Some true ∧
  ∃ h s, _cronJobs (update always_valid s1_new st_s1).2 !! "s1" = Some h ∧
         _schedules (update always_valid s1_new st_s1).2 !! "s1" = Some s ∧
         running_timers_of "s1" (update always_valid s1_new st_s1).2 = [h] ∧
         cj_cron <$> timers (update always_valid s1_new st_s1).2 !! h
           = Some (schedule_cron s) ∧
         ∀ getJob, tick getJob h (update always_valid s1_new st_s1).2
                   = Some (_getJob getJob (schedule_job s) "s1").
Proof.
  assert (Hne : schedule_id s1_new ≠ "") by (vm_compute; discriminate).
  assert (Hne1 : schedule_id s1 ≠ "") by (vm_compute; discriminate).
  assert (Hr : reachable always_valid (update always_valid s1_new st_s1).2).
  { apply reachable_update; [|exact Hne]. apply reachable_add; [|exact Hne1].
    exact (reachable_load always_valid [] (NoDup_nil_2) (Forall_nil_2 _)). }
  assert (Ht : _scheduleTable (update always_valid s1_new st_s1).2 !! "s1" = Some true)
    by (vm_compute; reflexivity).
  split; [exact Hr|]. split; [exact Ht|].
  exact (enabled_schedule_fires_its_job always_valid _ "s1" Hr Ht).
Defined.

(* ===================================================================== *)
(** ** Dispatcher: further properties of the authorization rules *)
(* ===================================================================== *)

Lemma checkAuthorizationByTypes_None chk (t : string) :
  t ∉ typed_rules → checkAuthorizationByTypes chk !! t = None.
Proof.
  intros Hnot. rewrite checkAuthorizationByTypes_lookup.
  repeat case_decide; try done;
    exfalso; apply Hnot; subst t; apply (bool_decide_unpack _); by vm_compute.
Qed.

Lemma checkAuthorization_default (n : nat) this userId object permission :
  obj_type object ∉ typed_rules →
  obj_type object ∉ Object_prototype →
  checkAuthorization (S n) this userId object permission =
    Some (if ctx_hasPermission this userId (obj_id object) permission
          then Fulfilled else Rejected).
Proof.
  intros Hnot Hplain. rewrite checkAuthorization_no_rule; [done | | done].
  by apply checkAuthorizationByTypes_None.
Qed.

(** An object whose type is a name of [Object.prototype] is checked by the
    built-in function of that name, which asks the permission store
    nothing. *)
Example inherited_type_is_not_checked :
  checkAuthorization 1 (sample_context deny_all) "bob"
    (mkObject "o1" "toString" ∅ []) "operate" = Some Fulfilled ∧
  checkAuthorization 1 (sample_context allow_all) "bob"
    (mkObject "o1" "__defineGetter__" ∅ []) "operate" = Some Rejected.
Proof. by vm_compute. Qed.

(** X12.  An object whose type has no rule of its own and is no name of
    [Object.prototype] is authorized exactly as the permission store answers
    for the user, the id of the object and the permission. *)
Theorem default_authorization (this : Context) (userId : string)
    (object : XoObject) (permission : string) :
  obj_type object ∉ typed_rules →
  obj_type object ∉ Object_prototype →
  (authorization_succeeds this userId object permission ↔
     ctx_hasPermission this userId (obj_id object) permission = true) ∧
  (authorization_fails this userId object permission ↔
     ctx_hasPermission this userId (obj_id object) permission = false).
Proof.
  intros Hnot Hplain. split; split.
  - intros [[|n] H]; [done|]. rewrite checkAuthorization_default in H by done.
    by destruct (ctx_hasPermission _ _ _ _).
  - intros H. exists 1. by rewrite checkAuthorization_default, H.
  - intros [[|n] H]; [done|]. rewrite checkAuthorization_default in H by done.
    by destruct (ctx_hasPermission _ _ _ _).
  - intros H. exists 1. by rewrite checkAuthorization_default, H.
Qed.

Lemma default_authorization_witness :
  authorization_succeeds (sample_context bob_on_vm1) "bob" vm1 "operate" ∧
  authorization_fails (sample_context bob_on_vm1) "alice" vm1 "operate".
Proof.
  assert (Hnot : obj_type vm1 ∉ typed_rules).
  { intros Hin. apply (bool_decide_pack _) in Hin. vm_compute in Hin. exact Hin. }
  assert (Hplain : obj_type vm1 ∉ Object_prototype).
  { intros Hin. apply (bool_decide_pack _) in Hin. vm_compute in Hin. exact Hin. }
  destruct (default_authorization (sample_context bob_on_vm1) "bob" vm1 "operate"
              Hnot Hplain) as [[_ H1] _].
  destruct (default_authorization (sample_context bob_on_vm1) "alice" vm1 "operate"
              Hnot Hplain) as [_ [_ H2]].
  split; [exact (H1 eq_refl) | exact (H2 eq_refl)].
Defined.

Lemma checkAuthorization_authorized (n : nat) this userId object permission :
  obj_type object = "network" ∨ obj_type object = "VM-template" →
  checkAuthorization (S n) this userId object permission = Some Fulfilled.
Proof.
  intros [Ht|Ht]; simpl; rewrite Ht; reflexivity.
Qed.

(** X13.  A [network] or a [VM-template] is authorized for every user and
    every permission, whatever the permission store holds; and so is a [VIF]
    whose [$network] resolves to an object of type [network], as soon as its
    [$VM] resolves to an object too. *)
Theorem network_authorizes_everyone (this : Context) (userId permission : string) :
  (∀ object,
     obj_type object = "network" ∨ obj_type object = "VM-template" →
     authorization_succeeds this userId object permission) ∧
  (∀ vif network vm,
     obj_type vif = "VIF" →
     ctx_getObject this (prop vif "$network") None = Normal network →
     ctx_getObject this (prop vif "$VM") None = Normal vm →
     obj_type network = "network" →
     authorization_succeeds this userId vif permission).
Proof.
  split.
  - intros object Ht. exists 1. by apply checkAuthorization_authorized.
  - intros vif network vm Ht Hn Hv Hnet. exists 2.
    rewrite (checkAuthorization_VIF 1 _ _ _ _ _ _ Ht Hn Hv).
    apply Bluebird_any_fulfilled.
    rewrite checkAuthorization_authorized by (by left). apply list_elem_of_here.
Qed.

Lemma network_authorizes_everyone_witness :
  obj_type vif1 = "VIF" ∧
  ctx_getObject (sample_context deny_all) (prop vif1 "$network") None = Normal net1 ∧
  ctx_getObject (sample_context deny_all) (prop vif1 "$VM") None = Normal vm1 ∧
  obj_type net1 = "network" ∧
  authorization_fails (sample_context deny_all) "bob" vm1 "administrate" ∧
  authorization_succeeds (sample_context deny_all) "bob" vif1 "administrate".
Proof.
  assert (Hn : ctx_getObject (sample_context deny_all) (prop vif1 "$network") None
               = Normal net1) by (vm_compute; reflexivity).
  assert (Hv : ctx_getObject (sample_context deny_all) (prop vif1 "$VM") None
               = Normal vm1) by (vm_compute; reflexivity).
  split; [reflexivity|]. split; [exact Hn|]. split; [exact Hv|]. split; [reflexivity|].
  split; [exists 1; vm_compute; reflexivity|].
  exact (proj2 (network_authorizes_everyone (sample_context deny_all) "bob" "administrate")
           vif1 net1 vm1 eq_refl Hn Hv eq_refl).
Defined.

Lemma checkAuthorization_delegate (n : nat) this userId object permission member :
  delegate_member (obj_type object) = Some member →
  checkAuthorization (S n) this userId object permission =
    Bluebird_method
      (checkMemberAuthorization (checkAuthorization n) member this userId object permission).
Proof.
  unfold delegate_member. intros Hm. cbn [checkAuthorization].
  unfold read_property. rewrite checkAuthorizationByTypes_lookup.
  repeat case_decide; simplify_eq; try done; congruence.
Qed.

(** X14.  A [message], a [task], a [VBD] or a [VM-snapshot] is authorized as
    the object its member ([$object], [$host], [VDI], [$snapshot_of]) points
    to: when the member resolves, the check succeeds iff it succeeds for that
    object and fails iff it fails for it; when it does not resolve, the check
    fails. *)
Theorem delegated_authorization (this : Context) (userId : string)
    (object : XoObject) (permission member : string) :
  delegate_member (obj_type object) = Some member →
  (∀ parent,
     ctx_getObject this (prop object member) None = Normal parent →
     (authorization_succeeds this userId object permission ↔
        authorization_succeeds this userId parent permission) ∧
     (authorization_fails this userId object permission ↔
        authorization_fails this userId parent permission)) ∧
  (∀ e,
     ctx_getObject this (prop object member) None = Throw e →
     authorization_fails this userId object permission).
Proof.
  intros Hm. split.
  - intros parent Hp.
    assert (Hstep : ∀ n, checkAuthorization (S n) this userId object permission
                         = checkAuthorization n this userId parent permission).
    { intros n. rewrite (checkAuthorization_delegate n _ _ _ _ _ Hm).
      unfold checkMemberAuthorization. by rewrite Hp. }
    split; split.
    + intros [[|n] H]; [done|]. rewrite Hstep in H. by exists n.
    + intros [n H]. exists (S n). by rewrite Hstep.
    + intros [[|n] H]; [done|]. rewrite Hstep in H. by exists n.
    + intros [n H]. exists (S n). by rewrite Hstep.
  - intros e He. exists 1. rewrite (checkAuthorization_delegate 0 _ _ _ _ _ Hm).
    unfold checkMemberAuthorization. by rewrite He.
Qed.

Lemma delegated_authorization_witness :
  delegate_member (obj_type msg1) = Some "$object" ∧
  ctx_getObject (sample_context bob_on_vm1) (prop msg1 "$object") None = Normal vm1 ∧
  authorization_succeeds (sample_context bob_on_vm1) "bob" vm1 "operate" ∧
  authorization_succeeds (sample_context bob_on_vm1) "bob" msg1 "operate".
Proof.
  assert (Hm : delegate_member (obj_type msg1) = Some "$object") by reflexivity.
  assert (Hp : ctx_getObject (sample_context bob_on_vm1) (prop msg1 "$object") None
               = Normal vm1) by (vm_compute; reflexivity).
  assert (Hvm : authorization_succeeds (sample_context bob_on_vm1) "bob" vm1 "operate")
    by (exists 1; vm_compute; reflexivity).
  destruct (delegated_authorization (sample_context bob_on_vm1) "bob" msg1 "operate"
              "$object" Hm) as [H _].
  split; [exact Hm|]. split; [exact Hp|]. split; [exact Hvm|].
  exact (proj2 (proj1 (H vm1 Hp)) Hvm).
Defined.

(** X15.  A [VIF] one of whose references, [$network] or [$VM], does not
    resolve is refused, even when the check of the other one succeeds. *)
Theorem VIF_unresolved_reference_fails (this : Context) (userId : string)
    (vif : XoObject) (permission : string) (e : Error) :
  obj_type vif = "VIF" →
  ctx_getObject this (prop vif "$network") None = Throw e ∨
  (is_Normal (ctx_getObject this (prop vif "$network") None) = true ∧
   ctx_getObject this (prop vif "$VM") None = Throw e) →
  authorization_fails this userId vif permission ∧
  ¬ authorization_succeeds this userId vif permission.
Proof.
  intros Ht Hlost.
  assert (Hfail : authorization_fails this userId vif permission).
  { exists 1. rewrite checkAuthorization_VIF_step by done. unfold VIF.
    destruct Hlost as [->|[Hn ->]]; [done|].
    by destruct (ctx_getObject this (prop vif "$network") None). }
  split; [done|]. intros Hok. by apply (authorization_succeeds_not_fails _ _ _ _ Hok).
Qed.

Lemma VIF_unresolved_reference_fails_witness :
  obj_type vif_lost = "VIF" ∧
  ctx_getObject (sample_context bob_on_vm1) (prop vif_lost "$network") None
    = Throw NoSuchObject ∧
  authorization_succeeds (sample_context bob_on_vm1) "bob" vm1 "operate" ∧
  authorization_fails (sample_context bob_on_vm1) "bob" vif_lost "operate".
Proof.
  assert (Hn : ctx_getObject (sample_context bob_on_vm1) (prop vif_lost "$network") None
               = Throw NoSuchObject) by (vm_compute; reflexivity).
  split; [reflexivity|]. split; [exact Hn|].
  split; [exists 1; vm_compute; reflexivity|].
  exact (proj1 (VIF_unresolved_reference_fails (sample_context bob_on_vm1) "bob" vif_lost
                  "operate" NoSuchObject eq_refl (or_introl Hn))).
Defined.

(** *** The rule of [VDI] *)

Lemma VDI_promises (chk : Context → string → XoObject → string → option settled)
    (this : Context) (userId permission : string) (vbds vms : list XoObject) :
  Forall2 (fun vbd vm =>
             ctx_getObject this (prop vbd "VM") (Some (OneType "VM")) = Normal vm)
    vbds vms →
  mapM (fun vbd =>
          vm ← ctx_getObject this (prop vbd "VM") (Some (OneType "VM"));
          Normal (chk this userId vm permission)) vbds
    = Normal ((fun vm => chk this userId vm permission) <$> vms).
Proof.
  induction 1 as [|vbd vm vbds vms Hvm _ IH]; simpl; [done|].
  by rewrite Hvm, IH.
Qed.

Lemma VDI_promises_throw
    (chk : Context → string → XoObject → string → option settled)
    (this : Context) (userId permission : string) (vbds : list XoObject)
    (vbd : XoObject) (e : Error) :
  vbd ∈ vbds →
  ctx_getObject this (prop vbd "VM") (Some (OneType "VM")) = Throw e →
  ∃ e', mapM (fun vbd =>
                vm ← ctx_getObject this (prop vbd "VM") (Some (OneType "VM"));
                Normal (chk this userId vm permission)) vbds = Throw e'.
Proof.
  intros Hin He. induction vbds as [|v vbds IH]; [by apply elem_of_nil in Hin|].
  simpl. destruct (ctx_getObject this (prop v "VM") (Some (OneType "VM"))) as [vm|e1] eqn:Hv;
    simpl; [|by eexists].
  apply elem_of_cons in Hin as [->|Hin]; [congruence|].
  destruct (IH Hin) as [e' ->]. by eexists.
Qed.

Lemma checkAuthorization_VDI_step (n : nat) this userId vdi permission :
  obj_type vdi = "VDI" →
  checkAuthorization (S n) this userId vdi permission =
    Bluebird_method (VDI (checkAuthorization n) this userId vdi permission).
Proof.
  intros Ht. by apply checkAuthorization_rule; rewrite Ht.
Qed.

Lemma checkAuthorization_VDI (n : nat) this userId vdi permission
    (vbds vms : list XoObject) (sr : XoObject) :
  obj_type vdi = "VDI" →
  ctx_getObjects this (obj_VBDs vdi) "VBD" = Normal vbds →
  Forall2 (fun vbd vm =>
             ctx_getObject this (prop vbd "VM") (Some (OneType "VM")) = Normal vm)
    vbds vms →
  ctx_getObject this (prop vdi "$SR") (Some (OneType "SR")) = Normal sr →
  checkAuthorization (S n) this userId vdi permission =
    Bluebird_any (((fun vm => checkAuthorization n this userId vm permission) <$> vms)
                  ++ [checkAuthorization n this userId sr permission])%list.
Proof.
  intros Ht Hvbds Hvms Hsr. rewrite checkAuthorization_VDI_step by done.
  unfold VDI. rewrite Hvbds. simpl.
  rewrite (VDI_promises _ _ _ _ _ _ Hvms). simpl. by rewrite Hsr.
Qed.

Lemma fails_common_fuel this userId permission (objects : list XoObject) :
  Forall (fun o => authorization_fails this userId o permission) objects →
  ∃ n, Forall (fun o => checkAuthorization n this userId o permission = Some Rejected)
         objects.
Proof.
  induction 1 as [|o objects [n1 H1] _ [n2 IH]]; [by exists 0|].
  exists (n1 `max` n2). constructor.
  - apply (checkAuthorization_mono n1); [lia | done].
  - eapply Forall_impl; [exact IH|]. intros o' Ho'. simpl in Ho'.
    apply (checkAuthorization_mono n2); [lia | done].
Qed.

(** X16.  A [VDI] whose attachments, their VMs and its SR all resolve is
    authorized iff the check succeeds for the SR or for one of the VMs it is
    attached to, and refused iff the check fails for the SR and for every
    such VM. *)
Theorem VDI_authorized_iff (this : Context) (userId : string) (vdi : XoObject)
    (permission : string) (vbds vms : list XoObject) (sr : XoObject) :
  obj_type vdi = "VDI" →
  ctx_getObjects this (obj_VBDs vdi) "VBD" = Normal vbds →
  Forall2 (fun vbd vm =>
             ctx_getObject this (prop vbd "VM") (Some (OneType "VM")) = Normal vm)
    vbds vms →
  ctx_getObject this (prop vdi "$SR") (Some (OneType "SR")) = Normal sr →
  (authorization_succeeds this userId vdi permission ↔
     authorization_succeeds this userId sr permission ∨
     ∃ vm, vm ∈ vms ∧ authorization_succeeds this userId vm permission) ∧
  (authorization_fails this userId vdi permission ↔
     authorization_fails this userId sr permission ∧
     ∀ vm, vm ∈ vms → authorization_fails this userId vm permission).
Proof.
  intros Ht Hvbds Hvms Hsr.
  pose proof (fun n => checkAuthorization_VDI n this userId vdi permission
                         vbds vms sr Ht Hvbds Hvms Hsr) as Hstep.
  split; split.
  - intros [[|n] H]; [done|]. rewrite Hstep in H.
    apply Bluebird_any_fulfilled, elem_of_app in H as [H|H].
    + right. apply list_elem_of_fmap in H as (vm & Heq & Hin).
      exists vm. split; [done|]. by exists n.
    + left. apply list_elem_of_singleton in H. by exists n.
  - intros [[n H]|(vm & Hin & [n H])]; exists (S n); rewrite Hstep;
      apply Bluebird_any_fulfilled, elem_of_app.
    + right. rewrite H. apply list_elem_of_here.
    + left. apply list_elem_of_fmap. by exists vm.
  - intros [[|n] H]; [done|]. rewrite Hstep in H.
    apply Bluebird_any_rejected, Forall_app in H as [Hvm Hs].
    split.
    + rewrite Forall_singleton in Hs. exists n. exact Hs.
    + intros vm Hin. exists n. rewrite Forall_fmap, Forall_forall in Hvm.
      exact (Hvm vm Hin).
  - intros [[n1 Hs] Hall].
    destruct (fails_common_fuel this userId permission vms) as [n2 Hn2];
      [by apply Forall_forall|].
    exists (S (n1 `max` n2)). rewrite Hstep.
    apply Bluebird_any_rejected, Forall_app. split.
    + rewrite Forall_fmap. eapply Forall_impl; [exact Hn2|].
      intros vm Hvm. simpl in *. apply (checkAuthorization_mono n2); [lia | done].
    + apply Forall_singleton. apply (checkAuthorization_mono n1); [lia | done].
Qed.

Lemma VDI_authorized_iff_witness :
  let this := disk_context bob_on_vm1 in
  obj_type vdi1 = "VDI" ∧
  ctx_getObjects this (obj_VBDs vdi1) "VBD" = Normal [vbd1] ∧
  Forall2 (fun vbd vm =>
             ctx_getObject this (prop vbd "VM") (Some (OneType "VM")) = Normal vm)
    [vbd1] [vm1] ∧
  ctx_getObject this (prop vdi1 "$SR") (Some (OneType "SR")) = Normal sr1 ∧
  authorization_fails this "bob" sr1 "operate" ∧
  authorization_succeeds this "bob" vdi1 "operate".
Proof.
  intros this.
  assert (Hvbds : ctx_getObjects this (obj_VBDs vdi1) "VBD" = Normal [vbd1])
    by (vm_compute; reflexivity).
  assert (Hvms : Forall2 (fun vbd vm =>
             ctx_getObject this (prop vbd "VM") (Some (OneType "VM")) = Normal vm)
            [vbd1] [vm1]) by (repeat constructor).
  assert (Hsr : ctx_getObject this (prop vdi1 "$SR") (Some (OneType "SR")) = Normal sr1)
    by (vm_compute; reflexivity).
  assert (Hvm : authorization_succeeds this "bob" vm1 "operate")
    by (exists 1; vm_compute; reflexivity).
  split; [reflexivity|]. split; [exact Hvbds|]. split; [exact Hvms|]. split; [exact Hsr|].
  split; [exists 1; vm_compute; reflexivity|].
  apply (proj1 (VDI_authorized_iff this "bob" vdi1 "operate" [vbd1] [vm1] sr1
                  eq_refl Hvbds Hvms Hsr)).
  right. exists vm1. split; [apply list_elem_of_here | exact Hvm].
Defined.

(** X17.  A [VDI] with an attachment whose VM does not resolve is refused,
    whatever the checks of its SR and of its other VMs would give. *)
Theorem VDI_dangling_attachment_fails (this : Context) (userId : string)
    (vdi : XoObject) (permission : string) (vbds : list XoObject)
    (vbd : XoObject) (e : Error) :
  obj_type vdi = "VDI" →
  ctx_getObjects this (obj_VBDs vdi) "VBD" = Normal vbds →
  vbd ∈ vbds →
  ctx_getObject this (prop vbd "VM") (Some (OneType "VM")) = Throw e →
  authorization_fails this userId vdi permission ∧
  ¬ authorization_succeeds this userId vdi permission.
Proof.
  intros Ht Hvbds Hin He.
  assert (Hfail : authorization_fails this userId vdi permission).
  { exists 1. rewrite checkAuthorization_VDI_step by done. unfold VDI.
    rewrite Hvbds.
    destruct (VDI_promises_throw (checkAuthorization 0) this userId permission
                vbds vbd e Hin He) as [e' He'].
    cbn [mbind completion_bind] in He' |- *. by rewrite He'. }
  split; [done|]. intros Hok. by apply (authorization_succeeds_not_fails _ _ _ _ Hok).
Qed.

Lemma VDI_dangling_attachment_fails_witness :
  let this := disk_context allow_all in
  obj_type vdi2 = "VDI" ∧
  ctx_getObjects this (obj_VBDs vdi2) "VBD" = Normal [vbd_lost] ∧
  vbd_lost ∈ [vbd_lost] ∧
  ctx_getObject this (prop vbd_lost "VM") (Some (OneType "VM")) = Throw NoSuchObject ∧
  authorization_succeeds this "bob" sr1 "operate" ∧
  authorization_fails this "bob" vdi2 "operate".
Proof.
  intros this.
  assert (Hvbds : ctx_getObjects this (obj_VBDs vdi2) "VBD" = Normal [vbd_lost])
    by (vm_compute; reflexivity).
  assert (Hin : vbd_lost ∈ [vbd_lost]) by apply list_elem_of_here.
  assert (He : ctx_getObject this (prop vbd_lost "VM") (Some (OneType "VM"))
               = Throw NoSuchObject) by (vm_compute; reflexivity).
  split; [reflexivity|]. split; [exact Hvbds|]. split; [exact Hin|]. split; [exact He|].
  split; [exists 1; vm_compute; reflexivity|].
  exact (proj1 (VDI_dangling_attachment_fails this "bob" vdi2 "operate" [vbd_lost]
                  vbd_lost NoSuchObject eq_refl Hvbds Hin He)).
Defined.

(* ===================================================================== *)
(** ** Dispatcher: permissions, and the order of the pipeline *)
(* ===================================================================== *)

Lemma perms_lookup (p : string) :
  perms !! p =
    if decide ("none" = p) then Some 0
    else if decide ("read" = p) then Some 1
    else if decide ("write" = p) then Some 2
    else if decide ("admin" = p) then Some 3
    else None.
Proof. unfold perms. by rewrite !lookup_insert, lookup_empty. Qed.

Lemma perms_inv (p : string) (n : nat) :
  perms !! p = Some n →
  (n = 0 ∧ p = "none") ∨ (n = 1 ∧ p = "read") ∨ (n = 2 ∧ p = "write") ∨
  (n = 3 ∧ p = "admin").
Proof.
  rewrite perms_lookup. repeat case_decide; intros [= <-]; subst p; tauto.
Qed.

Lemma perms_known (p : string) : is_Some (perms !! p) ↔ p ∈ known_permissions.
Proof.
  split.
  - intros [n Hn]. destruct (perms_inv _ _ Hn) as [[_ ->]|[[_ ->]|[[_ ->]|[_ ->]]]];
      apply (bool_decide_unpack _); by vm_compute.
  - unfold known_permissions. rewrite !elem_of_cons, elem_of_nil.
    intros [->|[->|[->|[->|[]]]]]; by eexists.
Qed.

(** A level is granted to the users whose own permission is a level at least
    as high, and to no other user. *)
Lemma hasPermission_eq (user : User) (p : string) (wanted : nat) :
  perms !! p = Some wanted →
  User_hasPermission user p =
    match perms !! user_permission user with
    | Some mine => bool_decide (wanted ≤ mine)%nat
    | None => false
    end.
Proof.
  intros Hp. unfold User_hasPermission, read_property. rewrite Hp.
  destruct (perms !! user_permission user); [done|]. by case_bool_decide.
Qed.

(** What is granted is a level, when the permission asked for or the user's
    own permission is no name of [Object.prototype]. *)
Lemma hasPermission_known (user : User) (p : string) :
  p ∉ Object_prototype ∨ user_permission user ∉ Object_prototype →
  User_hasPermission user p = true → p ∈ known_permissions.
Proof.
  intros Hplain. unfold User_hasPermission, read_property.
  destruct (perms !! p) as [wanted|] eqn:Hp.
  { intros _. apply perms_known. by eexists. }
  destruct (perms !! user_permission user) as [mine|] eqn:Hu.
  { by case_bool_decide. }
  destruct Hplain as [H|H]; rewrite (bool_decide_eq_false_2 _ H);
    [by case_bool_decide | done].
Qed.

(** Two names of [Object.prototype] are compared as the source texts of
    the functions they name. *)
Example hasPermission_of_inherited_names :
  User_hasPermission (mkUser "eve" "valueOf") "toString" = true ∧
  User_hasPermission (mkUser "eve" "toString") "valueOf" = false ∧
  User_hasPermission (mkUser "eve" "valueOf") "admin" = false ∧
  User_hasPermission alice "toString" = false.
Proof. by vm_compute. Qed.

Lemma hasPermission_admin (user : User) :
  user_permission user = "admin" → User_hasPermission user "admin" = true.
Proof. intros Heq. unfold User_hasPermission. rewrite Heq. by vm_compute. Qed.

(** X18.  [User.hasPermission] compares the four levels [none], [read],
    [write] and [admin]: it grants [admin] exactly to the users whose
    permission is [admin], and a user granted a level is granted the levels
    below it; to a user whose own permission is one of the four levels it
    grants nothing but levels, and a permission that is neither a level nor a
    name of [Object.prototype] it grants to nobody. *)
Theorem hasPermission_levels (user : User) :
  (User_hasPermission user "admin" = true ↔ user_permission user = "admin") ∧
  (User_hasPermission user "admin" = true → User_hasPermission user "write" = true) ∧
  (User_hasPermission user "write" = true → User_hasPermission user "read" = true) ∧
  (User_hasPermission user "read" = true → User_hasPermission user "none" = true) ∧
  (user_permission user ∈ known_permissions →
     ∀ p, User_hasPermission user p = true → p ∈ known_permissions) ∧
  (∀ p, p ∉ known_permissions → p ∉ Object_prototype →
     User_hasPermission user p = false).
Proof.
  assert (Hlast : (user_permission user ∈ known_permissions →
                     ∀ p, User_hasPermission user p = true → p ∈ known_permissions) ∧
                  (∀ p, p ∉ known_permissions → p ∉ Object_prototype →
                     User_hasPermission user p = false)).
  { split.
    - intros Hu p. apply hasPermission_known. right. intros Hin.
      revert Hu. unfold known_permissions, Object_prototype in *.
      rewrite !elem_of_cons, elem_of_nil in Hin.
      rewrite !elem_of_cons, elem_of_nil.
      intros Hu. destruct Hu as [Hu|[Hu|[Hu|[Hu|[]]]]]; rewrite Hu in Hin;
        repeat (destruct Hin as [Hin|Hin]; [discriminate Hin|]); exact Hin.
    - intros p Hp Hplain. destruct (User_hasPermission user p) eqn:E; [|done].
      exfalso. apply Hp. apply (hasPermission_known user p); [by left | done]. }
  rewrite (hasPermission_eq user "admin" 3), (hasPermission_eq user "write" 2),
    (hasPermission_eq user "read" 1), (hasPermission_eq user "none" 0) by reflexivity.
  destruct (perms !! user_permission user) as [mine|] eqn:Hmine.
  - pose proof (perms_inv _ _ Hmine) as Hcases.
    split; [|split; [|split; [|split; [|exact Hlast]]];
               intros H%bool_decide_eq_true; apply bool_decide_eq_true; lia].
    split.
    + intros H%bool_decide_eq_true.
      destruct Hcases as [[-> _]|[[-> _]|[[-> _]|[_ ->]]]]; [lia | lia | lia | done].
    + intros Heq. rewrite Heq in Hmine. vm_compute in Hmine.
      injection Hmine as <-. by apply bool_decide_eq_true.
  - split; [|split; [done|split; [done|split; [done|exact Hlast]]]].
    split; [done|]. intros Heq. rewrite Heq in Hmine.
    vm_compute in Hmine. discriminate Hmine.
Qed.

(** X19.  A method that declares a permission other than the four levels
    (and other than the empty one) cannot be called by anyone whose own
    permission is no name of [Object.prototype], nor without a user, and by
    nobody at all when the declared permission is no such name either: the
    call fails with [Unauthorized] before the parameters are looked at. *)
Theorem unknown_permission_rejects_everyone (fuel : nat) (this : Context)
    (method : Method) (params : Params) (p : string) :
  m_permission method = PermString p →
  p ≠ "" →
  p ∉ known_permissions →
  (p ∉ Object_prototype ∨
   ∀ user, ctx_user this = Some user → user_permission user ∉ Object_prototype) →
  checkPermission this method = Throw Unauthorized ∧
  call_in_context fuel this method params
    = mkCallResult (Some (Throw Unauthorized)) None None.
Proof.
  intros Hp Hne Hunknown Hplain.
  assert (Hc : checkPermission this method = Throw Unauthorized).
  { unfold checkPermission. rewrite Hp. destruct (ctx_user this) as [user|]; [|done].
    unfold perm_falsy. rewrite bool_decide_eq_false_2 by done.
    destruct (User_hasPermission user p) eqn:Hhas; [|done].
    apply hasPermission_known in Hhas; [done|].
    destruct Hplain as [H|H]; [by left | right; by apply H]. }
  split; [done|]. unfold call_in_context. by rewrite Hc.
Qed.

Lemma unknown_permission_rejects_everyone_witness :
  call_in_context 5 (with_user alice (sample_context allow_all)) odd_permission ∅
    = mkCallResult (Some (Throw Unauthorized)) None None.
Proof.
  assert (Hne : "administrate" ≠ "") by discriminate.
  assert (Hun : "administrate" ∉ known_permissions).
  { intros Hin. apply (bool_decide_pack _) in Hin. vm_compute in Hin. exact Hin. }
  assert (Hplain : "administrate" ∉ Object_prototype).
  { intros Hin. apply (bool_decide_pack _) in Hin. vm_compute in Hin. exact Hin. }
  exact (proj2 (unknown_permission_rejects_everyone 5
                  (with_user alice (sample_context allow_all)) odd_permission ∅
                  "administrate" eq_refl Hne Hun (or_introl Hplain))).
Defined.

(** X20.  [call] stops at the first stage that fails, and nothing of the
    later stages runs: an unknown name gives [MethodNotFound]; a failing
    lookup of the session's user gives that failure as it is; a failing
    permission check gives its error without the parameters being validated;
    invalid parameters give [InvalidParameters] without any object being
    looked up; and in none of these cases is the method body invoked. *)
Theorem call_stops_at_first_failure (fuel : nat) (api : Api)
    (session : option string) (name : string) (params : Params) :
  (_methods api !! name = None →
     call fuel api session name params
       = mkCallResult (Some (Throw (MethodNotFound name))) None None) ∧
  (∀ method userId e,
     _methods api !! name = Some method →
     session = Some userId → userId ≠ "" →
     ctx_getUser (context api) userId = Throw e →
     call fuel api session name params = mkCallResult (Some (Throw e)) None None) ∧
  (∀ method this e,
     checkPermission this method = Throw e →
     call_in_context fuel this method params = mkCallResult (Some (Throw e)) None None) ∧
  (∀ method this schema error,
     checkPermission this method = Normal tt →
     m_params method = Some schema → schema params = Some error →
     call_in_context fuel this method params
       = mkCallResult (Some (Throw (InvalidParameters error))) None None).
Proof.
  split; [|split; [|split]].
  - intros Hm. unfold call. by rewrite Hm.
  - intros method userId e Hm -> Hne He. unfold call. rewrite Hm.
    destruct (decide _); [done|]. by rewrite He.
  - intros method this e Hc. unfold call_in_context. by rewrite Hc.
  - intros method this schema error Hc Hs Herr.
    unfold call_in_context, checkParams. by rewrite Hc, Hs, Herr.
Qed.

Lemma call_stops_at_first_failure_witness :
  call 5 (sample_api deny_all) (Some "bob") "vm.destroy" ∅
    = mkCallResult (Some (Throw (MethodNotFound "vm.destroy"))) None None ∧
  call 5 (sample_api deny_all) (Some "carol") "whoami" ∅
    = mkCallResult (Some (Throw (ForeignError "no such user"))) None None ∧
  call_in_context 5 (with_user bob (sample_context deny_all)) user_create ∅
    = mkCallResult (Some (Throw Unauthorized)) None None ∧
  call_in_context 5 (with_user bob (sample_context deny_all)) needs_id ∅
    = mkCallResult (Some (Throw (InvalidParameters "id is missing"))) None None.
Proof.
  destruct (call_stops_at_first_failure 5 (sample_api deny_all) (Some "bob")
              "vm.destroy" ∅) as (H1 & _).
  destruct (call_stops_at_first_failure 5 (sample_api deny_all) (Some "carol")
              "whoami" ∅) as (_ & H2 & H3 & H4).
  split; [apply H1; vm_compute; reflexivity|].
  split; [apply (H2 whoami "carol"); [vm_compute; reflexivity | reflexivity
                                     | discriminate | vm_compute; reflexivity]|].
  split; [apply H3; vm_compute; reflexivity|].
  eapply H4; [vm_compute; reflexivity | reflexivity | vm_compute; reflexivity].
Defined.

(* ===================================================================== *)
(** ** Dispatcher: further properties of the resolution *)
(* ===================================================================== *)

Lemma resolve_loop_admin (fuel fuel' : nat) (this : Context)
    (acl : string → string → string → bool) (userId userId' : string)
    (l : list (string * ResolveEntry)) (st : ResolveState) :
  resolve_loop fuel this userId true l st
    = resolve_loop fuel' (with_acl acl this) userId' true l st ∧
  rs_promises (resolve_loop fuel this userId true l st).1 = rs_promises st.
Proof.
  revert st. induction l as [|[key e] l IH]; intros st; simpl; [done|].
  destruct (rs_params st !! re_param e) as [id|]; [|apply IH].
  destruct (ctx_getObject this (Some id) (Some (re_types e))); [|done].
  apply (IH (mkResolveState _ _ _)).
Qed.

(** X21.  For a caller whose permission is [admin], the resolution starts no
    check: it settles whatever the room given to the checks, it does not
    depend on the permission store, and it fails only with the exception of
    a lookup, never with the [Unauthorized] of a rejected check. *)
Theorem admin_bypasses_checks (fuel : nat) (this : Context) (method : Method)
    (params : Params) (user : User) (resolve : list (string * ResolveEntry)) :
  ctx_user this = Some user →
  user_permission user = "admin" →
  m_resolve method = Some resolve →
  rs_promises (rr_state (resolveParams fuel this method params)) = [] ∧
  (rr_outcome (resolveParams fuel this method params)
     = Some (Normal (rs_params (rr_state (resolveParams fuel this method params)))) ∨
   ∃ id types err,
     (id, types) ∈ rs_lookups (rr_state (resolveParams fuel this method params)) ∧
     ctx_getObject this (Some id) (Some types) = Throw err ∧
     rr_outcome (resolveParams fuel this method params) = Some (Throw err)) ∧
  (∀ fuel' acl,
     resolveParams fuel' (with_acl acl this) method params
       = resolveParams fuel this method params).
Proof.
  intros Hu Hadmin Hres.
  assert (Hisadmin : User_hasPermission user "admin" = true)
    by (by apply hasPermission_admin).
  assert (Hstep : ∀ fuel' acl,
            resolveParams fuel' (with_acl acl this) method params
              = resolveParams fuel this method params).
  { intros fuel' acl. unfold resolveParams. simpl. rewrite Hres, Hu, Hisadmin.
    by rewrite <- (proj1 (resolve_loop_admin fuel fuel' this acl (user_id user)
                            (user_id user) resolve (mkResolveState params [] []))). }
  split; [|split; [|done]]; unfold resolveParams; rewrite Hres, Hu, Hisadmin.
  - pose proof (proj2 (resolve_loop_admin fuel fuel this (ctx_hasPermission this)
                         (user_id user) (user_id user) resolve
                         (mkResolveState params [] []))) as Hp.
    by destruct (resolve_loop _ _ _ _ _ _) as [st [err|]].
  - pose proof (proj2 (resolve_loop_admin fuel fuel this (ctx_hasPermission this)
                         (user_id user) (user_id user) resolve
                         (mkResolveState params [] []))) as Hp.
    destruct (resolve_loop _ _ _ _ _ _) as [st [err|]] eqn:Hloop; simpl in *.
    + right. destruct (resolve_loop_thrown _ _ _ _ _ _ _ _ Hloop)
        as (id & types & Hin & Hg).
      by exists id, types, err.
    + left. by rewrite Hp.
Qed.

Lemma admin_bypasses_checks_witness :
  let this := with_user alice (sample_context deny_all) in
  let params : Params := {["id" := VString "vif2"]} in
  ctx_user this = Some alice ∧
  user_permission alice = "admin" ∧
  rs_promises (rr_state (resolveParams 0 this vif_connect params)) = [] ∧
  rr_outcome (resolveParams 0 this vif_connect params)
    = Some (Normal {["vif" := VObject vif2]}).
Proof.
  intros this params.
  destruct (admin_bypasses_checks 0 this vif_connect params alice _
              eq_refl eq_refl eq_refl) as (H1 & _ & _).
  split; [reflexivity|]. split; [reflexivity|]. split; [exact H1|].
  vm_compute. reflexivity.
Defined.

(** What the loop leaves alone: a name that is neither the key nor the
    parameter of an entry. *)
Lemma resolve_loop_frame (fuel : nat) (this : Context) (userId : string)
    (isAdmin : bool) (l : list (string * ResolveEntry)) (st : ResolveState)
    (x : string) :
  x ∉ l.*1 → x ∉ re_param <$> l.*2 →
  rs_params (resolve_loop fuel this userId isAdmin l st).1 !! x = rs_params st !! x.
Proof.
  revert st. induction l as [|[key e] l IH]; intros st Hk Hp; simpl; [done|].
  rewrite fmap_cons in Hk. rewrite !fmap_cons in Hp. cbn [fst snd] in Hk, Hp.
  apply not_elem_of_cons in Hk as [Hk1 Hk2]. apply not_elem_of_cons in Hp as [Hp1 Hp2].
  destruct (rs_params st !! re_param e) as [id|]; [|by apply IH].
  destruct (ctx_getObject this (Some id) (Some (re_types e))); [|done].
  rewrite IH by done. simpl. by rewrite lookup_insert_ne, lookup_delete_ne.
Qed.

Ltac frame_at Hloop x Hk Hp H :=
  match type of Hloop with
  | resolve_loop ?f ?t ?u ?a ?l ?s = _ =>
      pose proof (resolve_loop_frame f t u a l s x Hk Hp) as H;
      rewrite Hloop in H; simpl in H
  end.

Lemma resolve_loop_effect (fuel : nat) (this : Context) (userId : string)
    (isAdmin : bool) (l : list (string * ResolveEntry)) (st st' : ResolveState) :
  resolve_loop fuel this userId isAdmin l st = (st', None) →
  NoDup (l.*1) → NoDup (re_param <$> l.*2) →
  (∀ k, k ∈ l.*1 → k ∉ re_param <$> l.*2) →
  ∀ key e, (key, e) ∈ l →
    match rs_params st !! re_param e with
    | Some id =>
        ∃ o, ctx_getObject this (Some id) (Some (re_types e)) = Normal o ∧
             rs_params st' !! key = Some (VObject o) ∧
             rs_params st' !! re_param e = None
    | None => rs_params st' !! key = rs_params st !! key
    end.
Proof.
  revert st. induction l as [|[k0 e0] l IH]; intros st Hloop Hndk Hndp Hdisj key e Hin;
    [by apply elem_of_nil in Hin|].
  rewrite fmap_cons in Hndk. rewrite !fmap_cons in Hndp.
  setoid_rewrite fmap_cons in Hdisj. cbn [fst snd] in Hndk, Hndp, Hdisj.
  apply NoDup_cons in Hndk as [Hk0 Hndk]. apply NoDup_cons in Hndp as [Hp0 Hndp].
  assert (Hk0p : k0 ≠ re_param e0 ∧ k0 ∉ re_param <$> l.*2).
  { apply not_elem_of_cons, Hdisj, list_elem_of_here. }
  destruct Hk0p as [Hk0p0 Hk0p].
  assert (Hdisj' : ∀ k, k ∈ l.*1 → k ∉ re_param <$> l.*2).
  { intros k Hk. by apply (not_elem_of_cons _ k (re_param e0)), Hdisj, list_elem_of_further. }
  assert (Hp0k : re_param e0 ∉ l.*1).
  { intros Hk. pose proof (Hdisj _ (list_elem_of_further _ _ _ Hk)) as Hn.
    by apply not_elem_of_cons in Hn as [Hn _]. }
  simpl in Hloop.
  assert (Hrest : (key, e) ∈ l → key ≠ k0 ∧ key ≠ re_param e0 ∧
                                 re_param e ≠ k0 ∧ re_param e ≠ re_param e0).
  { intros Hin'.
    assert (Hkin : key ∈ l.*1) by (apply list_elem_of_fmap; by exists (key, e)).
    assert (Hpin : re_param e ∈ re_param <$> l.*2).
    { apply list_elem_of_fmap. exists e. split; [done|].
      apply list_elem_of_fmap. by exists (key, e). }
    repeat split; intros Heq; subst.
    - exact (Hk0 Hkin).
    - exact (Hp0k Hkin).
    - exact (Hk0p Hpin).
    - rewrite Heq in Hpin. exact (Hp0 Hpin). }
  destruct (rs_params st !! re_param e0) as [id0|] eqn:Hid0.
  - destruct (ctx_getObject this (Some id0) (Some (re_types e0))) as [o0|err] eqn:Hg;
      [|by injection Hloop].
    apply elem_of_cons in Hin as [[= -> ->]|Hin].
    + rewrite Hid0. exists o0. split; [done|].
      frame_at Hloop k0 Hk0 Hk0p H1. frame_at Hloop (re_param e0) Hp0k Hp0 H2.
      rewrite H1, H2.
      by rewrite lookup_insert_eq, lookup_insert_ne, lookup_delete_eq.
    + destruct (Hrest Hin) as (H1 & H2 & H3 & H4).
      specialize (IH _ Hloop Hndk Hndp Hdisj' key e Hin). simpl in IH.
      by rewrite !lookup_insert_ne, !lookup_delete_ne in IH by done.
  - apply elem_of_cons in Hin as [[= -> ->]|Hin].
    + rewrite Hid0. frame_at Hloop k0 Hk0 Hk0p H1. by rewrite H1.
    + by apply (IH _ Hloop Hndk Hndp Hdisj').
Qed.

(** X22.  When the resolution succeeds, for a [resolve] whose entries have
    distinct parameters, none of which is the key of an entry: every entry
    whose parameter was given has its object, the one [getObject] returns for
    the given id and the types of the entry, stored under its key, and its
    parameter removed; an entry whose parameter was not given leaves its key
    as it was; and every other parameter is passed on untouched. *)
Theorem resolution_replaces_ids (fuel : nat) (this : Context) (method : Method)
    (params params' : Params) (resolve : list (string * ResolveEntry)) :
  m_resolve method = Some resolve →
  NoDup (resolve.*1) →
  NoDup (re_param <$> resolve.*2) →
  (∀ k, k ∈ resolve.*1 → k ∉ re_param <$> resolve.*2) →
  rr_outcome (resolveParams fuel this method params) = Some (Normal params') →
  (∀ key e, (key, e) ∈ resolve →
     match params !! re_param e with
     | Some id =>
         ∃ o, ctx_getObject this (Some id) (Some (re_types e)) = Normal o ∧
              params' !! key = Some (VObject o) ∧
              params' !! re_param e = None
     | None => params' !! key = params !! key
     end) ∧
  (∀ x, x ∉ resolve.*1 → x ∉ re_param <$> resolve.*2 → params' !! x = params !! x).
Proof.
  intros Hres Hndk Hndp Hdisj. unfold resolveParams. rewrite Hres.
  destruct (ctx_user this) as [user|]; [|done].
  destruct (resolve_loop _ _ _ _ _ _) as [st thrown] eqn:Hloop.
  destruct thrown as [err|]; [done|]. simpl.
  destruct (Bluebird_all (rs_promises st)) as [[]|]; [|done..].
  intros [= <-]. split.
  - intros key e Hin.
    exact (resolve_loop_effect _ _ _ _ _ _ _ Hloop Hndk Hndp Hdisj key e Hin).
  - intros x Hk Hp.
    pose proof (resolve_loop_frame fuel this (user_id user)
                  (User_hasPermission user "admin") resolve
                  (mkResolveState params [] []) x Hk Hp) as Hf.
    by rewrite Hloop in Hf.
Qed.

Lemma resolution_replaces_ids_witness :
  let this := with_user bob (sample_context bob_on_vm1) in
  let params : Params := <["id" := VString "vm1"]> {["force" := VBool true]} in
  let resolve := [("vm", mkEntry "id" (OneType "VM") None);
                  ("host", mkEntry "target" (OneType "host") None)] in
  ∃ params',
    rr_outcome (resolveParams 5 this migrate params) = Some (Normal params') ∧
    (∃ o, ctx_getObject this (Some (VString "vm1")) (Some (OneType "VM")) = Normal o ∧
          params' !! "vm" = Some (VObject o) ∧ params' !! "id" = None) ∧
    params' !! "host" = None ∧
    params' !! "force" = Some (VBool true).
Proof.
  intros this params resolve.
  set (params' := (<["vm" := VObject vm1]> {["force" := VBool true]} : Params)).
  assert (Hout : rr_outcome (resolveParams 5 this migrate params) = Some (Normal params'))
    by (vm_compute; reflexivity).
  assert (Hndk : NoDup (resolve.*1)) by (apply (bool_decide_unpack _); by vm_compute).
  assert (Hndp : NoDup (re_param <$> resolve.*2))
    by (apply (bool_decide_unpack _); by vm_compute).
  assert (Hdisj : ∀ k, k ∈ resolve.*1 → k ∉ re_param <$> resolve.*2).
  { intros k Hk Hp. simpl in Hk, Hp.
    repeat (apply elem_of_cons in Hk as [->|Hk];
            [repeat (apply elem_of_cons in Hp as [Hp|Hp]; [discriminate Hp|]);
             by apply elem_of_nil in Hp|]).
    by apply elem_of_nil in Hk. }
  destruct (resolution_replaces_ids 5 this migrate params params' resolve
              eq_refl Hndk Hndp Hdisj Hout) as [H1 H2].
  exists params'. split; [exact Hout|]. split; [|split].
  - exact (H1 "vm" (mkEntry "id" (OneType "VM") None) (list_elem_of_here _ _)).
  - exact (H1 "host" (mkEntry "target" (OneType "host") None)
             (list_elem_of_further _ _ _ (list_elem_of_here _ _))).
  - apply (H2 "force"); simpl; intros Hin;
      repeat (apply elem_of_cons in Hin as [Hin|Hin]; [discriminate Hin|]);
      by apply elem_of_nil in Hin.
Defined.

(* ===================================================================== *)
(** ** Dispatcher: registering trees of methods *)
(* ===================================================================== *)

(** Induction on a tree of methods, with the hypothesis for every value of a
    namespace. *)
Lemma MethodTree_nested_ind (P : MethodTree → Prop) :
  (∀ f, P (Fn f)) →
  (∀ methods, Forall (fun nm => P nm.2) methods → P (Namespace methods)) →
  ∀ t, P t.
Proof.
  intros HFn HNs. fix IH 1. intros [f|methods]; [apply HFn|].
  apply HNs. induction methods as [|[n m] l IHl]; constructor; [apply IH|exact IHl].
Qed.

Lemma register_app methods l1 l2 :
  register methods (l1 ++ l2)%list = register (register methods l1) l2.
Proof. apply foldl_app. Qed.

Lemma register_absent methods l name :
  name ∉ l.*1 → register methods l !! name = methods !! name.
Proof.
  revert methods. induction l as [|[n f] l IH]; intros methods Hn; [done|].
  rewrite fmap_cons, not_elem_of_cons in Hn. destruct Hn as [Hne Hn].
  simpl. rewrite (IH _ Hn). by rewrite lookup_insert_ne.
Qed.

Lemma register_last methods l1 name f l2 :
  name ∉ l2.*1 →
  register methods (l1 ++ (name, f) :: l2)%list !! name = Some f.
Proof.
  intros Hn. rewrite register_app. simpl. rewrite (register_absent _ _ _ Hn).
  simpl. by rewrite lookup_insert_eq.
Qed.

Lemma addMethods_each_spec (t : MethodTree) : ∀ base name api,
  _methods (addMethods_each base name t api)
    = register (_methods api) (paths_each base name t) ∧
  context (addMethods_each base name t api) = context api.
Proof.
  induction t as [f|methods IH] using MethodTree_nested_ind; intros base name api;
    [done|].
  simpl. generalize ((base ++ name) ++ ".") as base'. intros base'.
  revert api. induction IH as [|[n m] l Hm _ IHl]; intros api; [done|].
  cbn [snd] in Hm. destruct (Hm base' n api) as [Hm1 Hm2].
  destruct (IHl (addMethods_each base' n m api)) as [Hl1 Hl2].
  rewrite register_app, <- Hm1. split; [exact Hl1 | by rewrite Hl2].
Qed.

Lemma addMethods_spec (methods : list (string * MethodTree)) : ∀ api,
  _methods (addMethods methods api) = register (_methods api) (paths methods) ∧
  context (addMethods methods api) = context api.
Proof.
  unfold addMethods, paths.
  induction methods as [|[n m] l IH]; intros api; [done|].
  cbn [foldl flat_map fst snd].
  destruct (addMethods_each_spec m "" n api) as [Hm1 Hm2].
  destruct (IH (addMethods_each "" n m api)) as [Hl1 Hl2].
  rewrite register_app, <- Hm1. split; [exact Hl1 | by rewrite Hl2].
Qed.

(** X23.  [addMethods] registers every function of the tree it is given under
    its dotted path: the function registered under a name is the last one of
    the tree with that path, a name that is no path of the tree keeps what it
    had, and the context is left alone. *)
Theorem addMethods_registers_paths (methods : list (string * MethodTree))
    (api : Api) (l1 l2 : list (string * Method)) (name : string) (f : Method) :
  paths methods = (l1 ++ (name, f) :: l2)%list →
  name ∉ l2.*1 →
  getMethod name (addMethods methods api) = Some f ∧
  (∀ other, other ∉ (paths methods).*1 →
     getMethod other (addMethods methods api) = getMethod other api) ∧
  context (addMethods methods api) = context api.
Proof.
  intros Hp Hn. destruct (addMethods_spec methods api) as [Hm Hc].
  unfold getMethod. rewrite Hm. split; [|split; [|exact Hc]].
  - rewrite Hp. by apply register_last.
  - intros other Ho. by apply register_absent.
Qed.

Lemma addMethods_registers_paths_witness :
  getMethod "vm.vif.connect" (addMethods system_tree (sample_api deny_all))
    = Some vif_connect ∧
  getMethod "whoami" (addMethods system_tree (sample_api deny_all))
    = Some user_create ∧
  getMethod "user.create" (addMethods system_tree (sample_api deny_all))
    = Some user_create.
Proof.
  destruct (addMethods_registers_paths system_tree (sample_api deny_all)
              [("system.whoami", whoami); ("vm.migrate", migrate)]
              [("whoami", user_create)] "vm.vif.connect" vif_connect)
    as (H1 & _ & _); [reflexivity | |].
  { intros Hin. apply (bool_decide_pack _) in Hin. vm_compute in Hin. exact Hin. }
  destruct (addMethods_registers_paths system_tree (sample_api deny_all)
              [("system.whoami", whoami); ("vm.migrate", migrate);
               ("vm.vif.connect", vif_connect)]
              [] "whoami" user_create)
    as (H2 & H3 & _); [reflexivity | |].
  { intros Hin. apply (bool_decide_pack _) in Hin. vm_compute in Hin. exact Hin. }
  split; [exact H1|]. split; [exact H2|].
  rewrite (H3 "user.create"); [reflexivity|].
  intros Hin. apply (bool_decide_pack _) in Hin. vm_compute in Hin. exact Hin.
Defined.

(* ===================================================================== *)
(** ** [xo.coffee]: the pool of a connection and the batches of events *)
(* ===================================================================== *)

Lemma pool_loop_found pools ref pool :
  pool_loop pools (Some ref) (Some pool)
    = match pools with
      | [] => Normal (Some ref, Some pool)
      | _ => Throw (ForeignError "more than one pool!")
      end.
Proof. by destruct pools as [|[? ?] ?]. Qed.

(** X24.  A connection is set up only for a server with exactly one pool:
    without a pool it fails with 'no pool found', with several with 'more
    than one pool!'; with one, the pool is stored under its reference with
    its [$type] set and no [$pool] added, and its UUID becomes the UUID of
    the connection. *)
Theorem connect_pool_needs_one_pool (refs : gmap string (option string))
    (pools : list (string * XapiRecord)) :
  (is_Normal (connect_pool refs pools) = true ↔ length pools = 1%nat) ∧
  (pools = [] → connect_pool refs pools = Throw (ForeignError "no pool found")) ∧
  ((2 ≤ length pools)%nat →
     connect_pool refs pools = Throw (ForeignError "more than one pool!")) ∧
  (∀ ref pool, pools = [(ref, pool)] →
     ∃ loaded, connect_pool refs pools = Normal loaded ∧
       pl_poolUUID loaded = mjoin (pool !! "uuid") ∧
       pl_objects loaded = <[ref := <["$type" := Some "pool"]> pool]> ∅ ∧
       (∀ uuid, pool !! "uuid" = Some (Some uuid) →
          pl_refsToUUIDs loaded !! ref = Some (Some uuid))).
Proof.
  destruct pools as [|[ref pool] [|[ref2 pool2] rest]].
  - split; [split; [discriminate|discriminate]|].
    split; [done|]. split; [simpl; lia|]. intros ? ? Hp. discriminate Hp.
  - unfold connect_pool, normalizeObject. cbn [pool_loop].
    split; [by split|]. split; [discriminate|]. split; [simpl; lia|].
    intros ref' pool' [= <- <-]. eexists. split; [reflexivity|].
    cbn [pl_poolUUID pl_objects pl_refsToUUIDs].
    split; [done|]. split; [by rewrite decide_True|].
    intros uuid Hu. rewrite Hu. by rewrite lookup_insert_eq.
  - unfold connect_pool. cbn [pool_loop].
    split; [split; [discriminate | simpl; lia]|].
    split; [discriminate|]. split; [done|]. intros ? ? Hp. discriminate Hp.
Qed.

Section Events.

Variable poolUUID : option string.

Lemma normalizeObject_object refs object ref type :
  (normalizeObject poolUUID refs object ref type).2
    = (normalizeObject poolUUID ∅ object ref type).2.
Proof. done. Qed.

Lemma handle_event_other (b : Batch) (ev : XapiEvent) (ref : string) :
  ev_ref ev ≠ ref →
  updatedObjects (handle_event poolUUID b ev) !! ref = updatedObjects b !! ref ∧
  removedObjects (handle_event poolUUID b ev) !! ref = removedObjects b !! ref ∧
  refsToUUIDs (handle_event poolUUID b ev) !! ref = refsToUUIDs b !! ref.
Proof.
  intros Hne. unfold handle_event, normalizeObject.
  assert (Hrefs : match ev_snapshot ev !! "uuid" with
                  | Some (Some uuid) => <[ev_ref ev := Some uuid]> (refsToUUIDs b)
                  | _ => refsToUUIDs b
                  end !! ref = refsToUUIDs b !! ref).
  { destruct (ev_snapshot ev !! "uuid") as [[uuid|]|]; [|done|done].
    by rewrite lookup_insert_ne. }
  destruct (decide (ev_operation ev = "del")); cbn [updatedObjects removedObjects refsToUUIDs];
    rewrite ?lookup_insert_ne, ?lookup_delete_ne by done; by rewrite Hrefs.
Qed.

Lemma handle_events_other (l : list XapiEvent) (ref : string) : ∀ b,
  ref ∉ ev_ref <$> l →
  updatedObjects (foldl (handle_event poolUUID) b l) !! ref = updatedObjects b !! ref ∧
  removedObjects (foldl (handle_event poolUUID) b l) !! ref = removedObjects b !! ref ∧
  refsToUUIDs (foldl (handle_event poolUUID) b l) !! ref = refsToUUIDs b !! ref.
Proof.
  induction l as [|ev l IH]; intros b Hn; [done|].
  rewrite fmap_cons, not_elem_of_cons in Hn. destruct Hn as [Hne Hn].
  cbn [foldl]. destruct (IH (handle_event poolUUID b ev) Hn) as (-> & -> & ->).
  by apply handle_event_other.
Qed.

Lemma handle_event_same (b : Batch) (ev : XapiEvent) :
  (if decide (ev_operation ev = "del")
   then updatedObjects (handle_event poolUUID b ev) !! ev_ref ev = None ∧
        removedObjects (handle_event poolUUID b ev) !! ev_ref ev = Some (normalized poolUUID ev)
   else updatedObjects (handle_event poolUUID b ev) !! ev_ref ev = Some (normalized poolUUID ev) ∧
        removedObjects (handle_event poolUUID b ev) !! ev_ref ev = None) ∧
  (∀ uuid, ev_snapshot ev !! "uuid" = Some (Some uuid) →
     refsToUUIDs (handle_event poolUUID b ev) !! ev_ref ev = Some (Some uuid)).
Proof.
  unfold handle_event, normalized, normalizeObject.
  destruct (decide (ev_operation ev = "del"));
    cbn [updatedObjects removedObjects refsToUUIDs snd];
    rewrite lookup_insert_eq, lookup_delete_eq; (split; [done|]);
    intros uuid Hu; rewrite Hu; by rewrite lookup_insert_eq.
Qed.

Lemma handle_event_disjoint (b : Batch) (ev : XapiEvent) :
  batch_disjoint b → batch_disjoint (handle_event poolUUID b ev).
Proof.
  intros Hb ref. destruct (decide (ev_ref ev = ref)) as [<-|Hne].
  - destruct (handle_event_same b ev) as [H _].
    destruct (decide (ev_operation ev = "del")); [left|right]; apply H.
  - destruct (handle_event_other b ev ref Hne) as (-> & -> & _). apply Hb.
Qed.

Lemma handle_events_disjoint (l : list XapiEvent) : ∀ b,
  batch_disjoint b → batch_disjoint (foldl (handle_event poolUUID) b l).
Proof.
  induction l as [|ev l IH]; intros b Hb; [done|].
  cbn [foldl]. by apply IH, handle_event_disjoint.
Qed.

Lemma handle_events_forgets_nothing (l : list XapiEvent) (ref : string) : ∀ b,
  is_Some (refsToUUIDs b !! ref) →
  is_Some (refsToUUIDs (foldl (handle_event poolUUID) b l) !! ref).
Proof.
  induction l as [|ev l IH]; intros b Hb; [done|].
  cbn [foldl]. apply IH. destruct (decide (ev_ref ev = ref)) as [<-|Hne].
  - unfold handle_event, normalizeObject.
    destruct (ev_snapshot ev !! "uuid") as [[uuid|]|];
      destruct (decide (ev_operation ev = "del")); cbn [refsToUUIDs];
      rewrite ?lookup_insert_eq; done.
  - by destruct (handle_event_other b ev ref Hne) as (_ & _ & ->).
Qed.

End Events.

(** X25.  In a batch of events the last event of a reference wins: after a
    'del' the normalized snapshot is among the removed objects and not among
    the updated ones, after any other operation it is the other way round;
    no reference is in both, a reference without event is in neither, and
    the UUID of the snapshot is recorded for the reference in either case,
    while no reference known before is forgotten. *)
Theorem event_batch_last_wins (poolUUID : option string)
    (refs : gmap string (option string)) (event l1 l2 : list XapiEvent)
    (ev : XapiEvent) :
  event = (l1 ++ ev :: l2)%list →
  ev_ref ev ∉ ev_ref <$> l2 →
  let b := handle_events poolUUID refs event in
  (if decide (ev_operation ev = "del")
   then updatedObjects b !! ev_ref ev = None ∧
        removedObjects b !! ev_ref ev = Some (normalized poolUUID ev)
   else updatedObjects b !! ev_ref ev = Some (normalized poolUUID ev) ∧
        removedObjects b !! ev_ref ev = None) ∧
  (∀ uuid, ev_snapshot ev !! "uuid" = Some (Some uuid) →
     refsToUUIDs b !! ev_ref ev = Some (Some uuid)) ∧
  (∀ ref, updatedObjects b !! ref = None ∨ removedObjects b !! ref = None) ∧
  (∀ ref, ref ∉ ev_ref <$> event →
     updatedObjects b !! ref = None ∧ removedObjects b !! ref = None ∧
     refsToUUIDs b !! ref = refs !! ref) ∧
  (∀ ref, is_Some (refs !! ref) → is_Some (refsToUUIDs b !! ref)).
Proof.
  intros -> Hn b. subst b. unfold handle_events.
  split; [|split; [|split; [|split]]].
  - rewrite foldl_app. cbn [foldl].
    destruct (handle_events_other poolUUID l2 (ev_ref ev)
                (handle_event poolUUID (foldl (handle_event poolUUID) (mkBatch refs ∅ ∅) l1) ev)
                Hn) as (-> & -> & _).
    apply handle_event_same.
  - intros uuid Hu. rewrite foldl_app. cbn [foldl].
    destruct (handle_events_other poolUUID l2 (ev_ref ev)
                (handle_event poolUUID (foldl (handle_event poolUUID) (mkBatch refs ∅ ∅) l1) ev)
                Hn) as (_ & _ & ->).
    by apply handle_event_same.
  - apply handle_events_disjoint. intros ref. by left.
  - intros ref Hr.
    by destruct (handle_events_other poolUUID _ ref (mkBatch refs ∅ ∅) Hr) as (-> & -> & ->).
  - intros ref Hr. by apply handle_events_forgets_nothing.
Qed.

Lemma event_batch_last_wins_witness :
  let b := handle_events (Some "uuid-pool") null_refs sample_events in
  updatedObjects b !! "OpaqueRef:1" = None ∧
  removedObjects b !! "OpaqueRef:1"
    = Some (<["$type" := Some "vm"]> (<["$pool" := Some "uuid-pool"]> vm_record)) ∧
  refsToUUIDs b !! "OpaqueRef:1" = Some (Some "uuid-vm").
Proof.
  destruct (event_batch_last_wins (Some "uuid-pool") null_refs sample_events
              [mkEvent "add" "vm" "OpaqueRef:1" vm_record;
               mkEvent "mod" "vm" "OpaqueRef:2" vm_record]
              [mkEvent "mod" "pool" "OpaqueRef:3" pool_record]
              (mkEvent "del" "vm" "OpaqueRef:1" vm_record))
    as ([H1 H2] & H3 & _); [reflexivity | |].
  { intros Hin. apply (bool_decide_pack _) in Hin. vm_compute in Hin. exact Hin. }
  split; [exact H1|]. split; [exact H2|]. by apply H3.
Defined.

(* ===================================================================== *)
(** ** Splitting strings *)
(* ===================================================================== *)

Lemma split_on_not_nil sep s : split_on sep s ≠ [].
Proof.
  destruct s as [|c s]; [done|]. simpl.
  destruct (Ascii.eqb c sep); [done|]. by destruct (split_on sep s).
Qed.

Lemma split_on_no_sep sep t : has_char sep t = false → split_on sep t = [t].
Proof.
  induction t as [|c t IH]; [done|]. simpl. intros [Hc Ht]%orb_false_iff.
  rewrite Hc. by rewrite (IH Ht).
Qed.

Lemma split_on_app sep t rest :
  has_char sep t = false →
  split_on sep (t ++ String sep rest) = t :: split_on sep rest.
Proof.
  induction t as [|c t IH]; simpl.
  - intros _. by rewrite Ascii.eqb_refl.
  - intros [Hc Ht]%orb_false_iff. rewrite Hc. by rewrite (IH Ht).
Qed.

Lemma split_on_inv sep s : ∀ t ws,
  split_on sep s = t :: ws →
  has_char sep t = false ∧
  (ws = [] ∧ s = t ∨ ∃ s', s = t ++ String sep s' ∧ split_on sep s' = ws).
Proof.
  induction s as [|c s IH]; intros t ws; simpl.
  - intros [= <- <-]. split; [done|]. by left.
  - destruct (Ascii.eqb c sep) eqn:Hc.
    + intros [= <- <-]. split; [done|]. right. exists s.
      apply Ascii.eqb_eq in Hc. by subst c.
    + destruct (split_on sep s) as [|w ws'] eqn:Hs; [by destruct (split_on_not_nil sep s)|].
      intros [= <- <-]. destruct (IH w ws' eq_refl) as [Hw Hcases].
      split; [simpl; by rewrite Hc, Hw|].
      destruct Hcases as [[-> ->]|(s' & -> & Hs')]; [by left|].
      right. by exists s'.
Qed.

Lemma prefix_app_same a b c : String.prefix (a ++ b) (a ++ c) = String.prefix b c.
Proof.
  induction a as [|x a IH]; [done|]. simpl. by destruct (ascii_dec x x).
Qed.

Lemma prefix_app_r b x : String.prefix b (b ++ x) = true.
Proof.
  induction b as [|c b IH]; [by destruct x|]. simpl. by destruct (ascii_dec c c).
Qed.

Lemma prefix_self b : String.prefix b b = true.
Proof. induction b as [|c b IH]; [done|]. simpl. by destruct (ascii_dec c c). Qed.

Lemma String_slice_app a b : String_slice (String.length a) (a ++ b) = b.
Proof. induction a as [|c a IH]; [by destruct b|]. exact IH. Qed.

(* ===================================================================== *)
(** ** [xo.coffee]: the types whose records are retrieved *)
(* ===================================================================== *)

Lemma retrievableTypes_fold (methods : list string) : ∀ types t,
  t ∈ foldl (fun types method =>
               let parts := split_on "."%char method in
               let type := parts !! 0%nat in
               let method := parts !! 1%nat in
               if bool_decide (method = Some "get_all_records")
                  && negb (bool_decide (type = Some "pool"))
               then (types ++ [default EmptyString type])%list
               else types) types methods
  ↔ t ∈ types ∨
    ∃ m, m ∈ methods ∧ split_on "."%char m !! 1%nat = Some "get_all_records" ∧
         split_on "."%char m !! 0%nat = Some t ∧ t ≠ "pool".
Proof.
  induction methods as [|m methods IH]; intros types t; cbn [foldl].
  - split; [by left|]. intros [H|(m & Hm & _)]; [done|]. by apply elem_of_nil in Hm.
  - rewrite IH. clear IH. cbv zeta.
    destruct (split_on "."%char m !! 0%nat) as [t0|] eqn:H0;
      [|destruct (split_on "."%char m) eqn:Hs;
          [by destruct (split_on_not_nil "."%char m) | discriminate H0]].
    destruct (bool_decide (split_on "."%char m !! 1%nat = Some "get_all_records")) eqn:H1;
      [apply bool_decide_eq_true in H1|apply bool_decide_eq_false in H1].
    + destruct (bool_decide (Some t0 = Some "pool")) eqn:Hp;
        [apply bool_decide_eq_true in Hp|apply bool_decide_eq_false in Hp]; cbn [andb negb].
      * injection Hp as ->. split.
        -- intros [H|(m' & Hm' & Hrest)]; [by left|]. right. exists m'.
           split; [by right|done].
        -- intros [H|(m' & Hm' & Hrest)]; [by left|].
           apply elem_of_cons in Hm'. destruct Hm' as [->|Hm'].
           ++ destruct Hrest as (_ & Ht & Hne). rewrite H0 in Ht. by injection Ht as <-.
           ++ right. by exists m'.
      * change (default EmptyString (Some t0)) with t0. rewrite elem_of_app, list_elem_of_singleton. split.
        -- intros [[H| ->]|(m' & Hm' & Hrest)]; [by left| |].
           ++ right. exists m. split; [by left|]. split; [done|]. split; [done|].
              intros ->. by apply Hp.
           ++ right. exists m'. split; [by right|done].
        -- intros [H|(m' & Hm' & Hrest)]; [by left; left|].
           apply elem_of_cons in Hm'. destruct Hm' as [->|Hm'].
           ++ destruct Hrest as (_ & Ht & _). rewrite H0 in Ht. injection Ht as <-.
              by left; right.
           ++ right. by exists m'.
    + cbn [andb]. split.
      * intros [H|(m' & Hm' & Hrest)]; [by left|]. right. exists m'.
        split; [by right|done].
      * intros [H|(m' & Hm' & Hrest)]; [by left|].
        apply elem_of_cons in Hm'. destruct Hm' as [->|Hm'].
        -- by destruct Hrest as (H1' & _).
        -- right. by exists m'.
Qed.

(** X26.  The retrievable types are the classes with a [get_all_records]
    method, [pool] excepted: every type listed is not [pool], holds no dot and
    some method name starts with [type.get_all_records]; and every such type
    other than [pool] whose [type.get_all_records] is a method is listed. *)
Theorem retrievableTypes_spec (methods : list string) :
  (∀ t, t ∈ retrievableTypes methods →
     t ≠ "pool" ∧ has_char "."%char t = false ∧
     ∃ m, m ∈ methods ∧ String.prefix (t ++ ".get_all_records") m = true) ∧
  (∀ t, t ≠ "pool" → has_char "."%char t = false →
     (t ++ ".get_all_records") ∈ methods → t ∈ retrievableTypes methods).
Proof.
  split; intros t.
  - intros Ht. apply retrievableTypes_fold in Ht.
    destruct Ht as [Ht|(m & Hm & H1 & H0 & Hne)]; [by apply elem_of_nil in Ht|].
    destruct (split_on "."%char m) as [|t0 [|u ws]] eqn:Hs; try discriminate.
    injection H0 as ->. injection H1 as ->.
    destruct (split_on_inv _ _ _ _ Hs) as [Hdot [[? _]|(s' & -> & Hs')]]; [done|].
    split; [done|]. split; [done|]. exists (t ++ String "."%char s'). split; [done|].
    change (t ++ ".get_all_records") with (t ++ String "."%char "get_all_records").
    rewrite prefix_app_same. simpl. destruct (ascii_dec "."%char "."%char); [|done].
    destruct (split_on_inv _ _ _ _ Hs') as [_ [[_ ->]|(s'' & -> & _)]].
    + apply prefix_self.
    + apply prefix_app_r.
  - intros Hne Hdot Hin. apply retrievableTypes_fold. right.
    exists (t ++ ".get_all_records"). split; [done|].
    change (t ++ ".get_all_records") with (t ++ String "."%char "get_all_records").
    rewrite (split_on_app _ _ _ Hdot). by vm_compute.
Qed.

(* ===================================================================== *)
(** ** [remote-handler.js]: resolving remotes *)
(* ===================================================================== *)

Lemma _resolve_nfs (remote : Remote) :
  is_nfs remote = true →
  _resolve remote
    = (Normal None,
       mkRemote (remote_id remote) (remote_url remote) (remote_enabled remote)
         (Some "nfs") (Some (remote_id remote))
         (split_on ":"%char (String_slice 6 (remote_url remote)) !! 0%nat)
         (split_on ":"%char (String_slice 6 (remote_url remote)) !! 1%nat)).
Proof. unfold is_nfs, _resolve, startsWith. simpl default. by intros ->. Qed.

Lemma _resolve_other (remote : Remote) :
  is_nfs remote = false →
  _resolve remote = (Throw (ForeignError "Unknown remote url protocol"), remote).
Proof. unfold is_nfs, _resolve, startsWith. simpl default. by intros ->. Qed.

Lemma resolved_type (remote : Remote) :
  is_nfs remote = true → remote_type (resolved remote) = Some "nfs".
Proof. intros H. unfold resolved. by rewrite (_resolve_nfs _ H). Qed.

Lemma resolve_each_nfs (l : list Remote) :
  Forall (fun remote => is_nfs remote = true) l →
  resolve_each l = (Normal tt, resolved <$> l).
Proof.
  induction 1 as [|remote l Hr _ IH]; [done|].
  cbn [resolve_each]. rewrite fmap_cons, (_resolve_nfs _ Hr), IH.
  unfold resolved. by rewrite (_resolve_nfs _ Hr).
Qed.

Lemma resolve_each_stops (l1 : list Remote) (remote : Remote) (l2 : list Remote) :
  Forall (fun remote => is_nfs remote = true) l1 →
  is_nfs remote = false →
  resolve_each (l1 ++ remote :: l2)
    = (Throw (ForeignError "Unknown remote url protocol"),
       ((resolved <$> l1) ++ remote :: l2)%list).
Proof.
  intros Hl1 Hr. induction Hl1 as [|r l Hn _ IH].
  - cbn [app fmap list_fmap resolve_each]. by rewrite (_resolve_other _ Hr).
  - rewrite <- app_comm_cons. cbn [resolve_each]. rewrite fmap_cons, <- app_comm_cons.
    rewrite (_resolve_nfs _ Hn), IH. unfold resolved. by rewrite (_resolve_nfs _ Hn).
Qed.

Lemma filter_resolved_nfs (l : list Remote) :
  Forall (fun remote => is_nfs remote = true) l →
  filter (fun remote => remote_type remote = Some "nfs") (resolved <$> l) = resolved <$> l ∧
  filter (fun remote => remote_type remote = Some "local") (resolved <$> l) = [].
Proof.
  induction 1 as [|remote l Hr _ [IH1 IH2]]; [done|].
  rewrite fmap_cons. split.
  - rewrite filter_cons_True by (by apply resolved_type). by rewrite IH1.
  - rewrite filter_cons_False by (by rewrite (resolved_type _ Hr)). exact IH2.
Qed.

(** X27.  [sync] and [forget] of the remote handler never reach a handler:
    for a remote whose URL starts with [nfs://] they fail with a TypeError
    once the remote has been resolved, for any other URL, [file://] ones
    included, with 'Unknown remote url protocol' and the remote untouched;
    whatever the handlers are. *)
Theorem sync_and_forget_always_fail (handlers : gmap string RemoteOps)
    (remote : Remote) :
  RemoteHandler_sync handlers remote
    = (Throw (if is_nfs remote then TypeError
              else ForeignError "Unknown remote url protocol"),
       if is_nfs remote then resolved remote else remote) ∧
  RemoteHandler_forget handlers remote
    = (Throw (if is_nfs remote then TypeError
              else ForeignError "Unknown remote url protocol"),
       if is_nfs remote then resolved remote else remote).
Proof.
  unfold RemoteHandler_sync, RemoteHandler_forget, resolved.
  destruct (is_nfs remote) eqn:Hn.
  - by rewrite (_resolve_nfs _ Hn).
  - by rewrite (_resolve_other _ Hn).
Qed.

(** X28.  [_resolve] of a remote whose URL is [nfs://] followed by [rest]
    types it [nfs] with its id as path, and cuts [rest] at its colons: the
    host is what precedes the first colon and the share what lies between the
    first and the second, anything after a second colon being dropped; with
    no colon the host is [rest] and the share is left [undefined]. *)
Theorem _resolve_nfs_url (remote : Remote) (rest : string) :
  remote_url remote = "nfs://" ++ rest →
  (_resolve remote).1 = Normal None ∧
  remote_type (resolved remote) = Some "nfs" ∧
  remote_path (resolved remote) = Some (remote_id remote) ∧
  remote_id (resolved remote) = remote_id remote ∧
  remote_url (resolved remote) = remote_url remote ∧
  remote_enabled (resolved remote) = remote_enabled remote ∧
  (∀ host share, rest = host ++ ":" ++ share →
     has_char ":"%char host = false → has_char ":"%char share = false →
     remote_host (resolved remote) = Some host ∧
     remote_share (resolved remote) = Some share) ∧
  (∀ host share more, rest = host ++ ":" ++ share ++ ":" ++ more →
     has_char ":"%char host = false → has_char ":"%char share = false →
     remote_host (resolved remote) = Some host ∧
     remote_share (resolved remote) = Some share) ∧
  (has_char ":"%char rest = false →
     remote_host (resolved remote) = Some rest ∧
     remote_share (resolved remote) = None).
Proof.
  intros Hurl.
  assert (Hn : is_nfs remote = true).
  { unfold is_nfs. rewrite Hurl. apply prefix_app_r. }
  assert (Hs : String_slice 6 (remote_url remote) = rest).
  { rewrite Hurl. exact (String_slice_app "nfs://" rest). }
  unfold resolved. rewrite (_resolve_nfs _ Hn), Hs.
  cbn [fst snd remote_type remote_path remote_id remote_url remote_enabled
       remote_host remote_share].
  do 6 (split; [done|]). split; [|split].
  - intros host share -> Hh Hsh.
    change (host ++ ":" ++ share) with (host ++ String ":"%char share).
    by rewrite (split_on_app _ _ _ Hh), (split_on_no_sep _ _ Hsh).
  - intros host share more -> Hh Hsh.
    change (host ++ ":" ++ share ++ ":" ++ more)
      with (host ++ String ":"%char (share ++ String ":"%char more)).
    rewrite (split_on_app _ _ _ Hh), (split_on_app _ _ _ Hsh). done.
  - intros Hr. by rewrite (split_on_no_sep _ _ Hr).
Qed.

Lemma _resolve_nfs_url_witness :
  resolved nfs_remote
    = mkRemote "r1" "nfs://filer:/export/backups" true (Some "nfs") (Some "r1")
        (Some "filer") (Some "/export/backups").
Proof.
  destruct (_resolve_nfs_url nfs_remote "filer:/export/backups" eq_refl)
    as (_ & Ht & Hp & Hi & Hu & He & Hhs & _).
  destruct (Hhs "filer" "/export/backups" eq_refl eq_refl eq_refl) as [Hh Hs].
  destruct (resolved nfs_remote). cbn in *. by subst.
Defined.

(** X29.  [disableAll] of the remote handler resolves the remotes in order
    and stops at the first whose URL does not start with [nfs://]: it then
    fails with 'Unknown remote url protocol' without calling a handler, the
    remotes before that one resolved and the others untouched.  When all are
    NFS remotes the local handler is given none of them, the NFS mounter all
    of them, resolved, and the outcome is the mounter's. *)
Theorem disableAll_only_nfs (NfsMounter : RemoteOps)
    (ensureDir : option string → completion unit) (remotes l1 l2 : list Remote) :
  remotes = (l1 ++ l2)%list →
  Forall (fun remote => is_nfs remote = true) l1 →
  let result :=
    RemoteHandler_disableAll (RemoteHandler_handlers NfsMounter ensureDir) remotes in
  (l2 = [] →
     da_outcome result = ops_disableAll NfsMounter (resolved <$> remotes) ∧
     da_calls result = [("local", []); ("nfs", resolved <$> remotes)] ∧
     da_remotes result = resolved <$> remotes) ∧
  (∀ remote l3, l2 = remote :: l3 → is_nfs remote = false →
     da_outcome result = Throw (ForeignError "Unknown remote url protocol") ∧
     da_calls result = [] ∧
     da_remotes result = ((resolved <$> l1) ++ remote :: l3)%list).
Proof.
  intros -> Hl1 result. subst result. split.
  - intros ->. rewrite app_nil_r. unfold RemoteHandler_disableAll.
    rewrite (resolve_each_nfs _ Hl1).
    destruct (filter_resolved_nfs _ Hl1) as [Hf1 Hf2].
    cbn [map da_outcome da_calls da_remotes]. rewrite Hf1, Hf2.
    split; [|done]. unfold Promise_all, handler_of, RemoteHandler_handlers.
    cbn [map foldr fst snd default]. 
    rewrite lookup_insert_eq, lookup_insert_ne, lookup_insert_eq by done.
    simpl. by destruct (ops_disableAll NfsMounter (resolved <$> l1)) as [[]|e].
  - intros remote l3 -> Hr. unfold RemoteHandler_disableAll.
    by rewrite (resolve_each_stops _ _ _ Hl1 Hr).
Qed.

Lemma disableAll_only_nfs_witness :
  da_calls (RemoteHandler_disableAll (RemoteHandler_handlers mounter_ok ensureDir_ok)
              [nfs_remote; file_remote]) = [] ∧
  da_calls (RemoteHandler_disableAll (RemoteHandler_handlers mounter_ok ensureDir_ok)
              [nfs_remote]) = [("local", []); ("nfs", [resolved nfs_remote])].
Proof.
  split.
  - destruct (disableAll_only_nfs mounter_ok ensureDir_ok [nfs_remote; file_remote]
                [nfs_remote] [file_remote] eq_refl) as [_ H].
    { by repeat constructor. }
    by destruct (H file_remote [] eq_refl eq_refl) as (_ & Hc & _).
  - destruct (disableAll_only_nfs mounter_ok ensureDir_ok [nfs_remote]
                [nfs_remote] [] eq_refl) as [H _].
    { by repeat constructor. }
    by destruct (H eq_refl) as (_ & Hc & _).
Defined.

(* ===================================================================== *)
(** ** Instances of the statements without premises *)
(* ===================================================================== *)

Lemma hasPermission_levels_witness :
  User_hasPermission alice "read" = true ∧ User_hasPermission bob "admin" = false.
Proof.
  destruct (hasPermission_levels alice) as (Ha & Hw & Hr & _).
  destruct (hasPermission_levels bob) as (Hb & _).
  split; [apply Hr, Hw, Ha; reflexivity|].
  destruct (User_hasPermission bob "admin") eqn:Hbob; [|reflexivity].
  discriminate (proj1 Hb eq_refl).
Defined.

Lemma connect_pool_needs_one_pool_witness :
  (∃ loaded, connect_pool null_refs [("OpaqueRef:3", pool_record)] = Normal loaded ∧
     pl_poolUUID loaded = Some "uuid-pool") ∧
  connect_pool null_refs [("OpaqueRef:3", pool_record); ("OpaqueRef:4", pool_record)]
    = Throw (ForeignError "more than one pool!").
Proof.
  split.
  - destruct (connect_pool_needs_one_pool null_refs [("OpaqueRef:3", pool_record)])
      as (_ & _ & _ & H).
    destruct (H "OpaqueRef:3" pool_record eq_refl) as (loaded & Hl & Hu & _).
    exists loaded. split; [exact Hl|]. rewrite Hu. reflexivity.
  - apply (connect_pool_needs_one_pool null_refs
             [("OpaqueRef:3", pool_record); ("OpaqueRef:4", pool_record)]).
    simpl. lia.
Defined.

Lemma retrievableTypes_spec_witness :
  "VM" ∈ retrievableTypes ["pool.get_all_records"; "VM.get_all_records"; "VM.start"] ∧
  "pool" ∉ retrievableTypes ["pool.get_all_records"; "VM.get_all_records"; "VM.start"].
Proof.
  destruct (retrievableTypes_spec
              ["pool.get_all_records"; "VM.get_all_records"; "VM.start"]) as [H1 H2].
  split.
  - apply H2; [discriminate | reflexivity |].
    apply (bool_decide_unpack _). by vm_compute.
  - intros Hin. by destruct (H1 "pool" Hin) as [Hne _].
Defined.

Lemma sync_and_forget_always_fail_witness :
  (RemoteHandler_sync (RemoteHandler_handlers mounter_ok ensureDir_ok) nfs_remote).1
    = Throw TypeError ∧
  RemoteHandler_sync (RemoteHandler_handlers mounter_ok ensureDir_ok) file_remote
    = (Throw (ForeignError "Unknown remote url protocol"), file_remote).
Proof.
  split.
  - by rewrite (proj1 (sync_and_forget_always_fail
                         (RemoteHandler_handlers mounter_ok ensureDir_ok) nfs_remote)).
  - by rewrite (proj1 (sync_and_forget_always_fail
                         (RemoteHandler_handlers mounter_ok ensureDir_ok) file_remote)).
Defined.
